(** * Unified Bed Leveling: move splitting and mesh interpolation

    A shallow embedding of [ubl_motion.cpp] (Marlin, feature/bedlevel/ubl):
    the cell-boundary splitter [line_to_destination_cartesian] and the
    fixed-length segmenter [line_to_destination_segmented], together with
    the properties of the motion specification that concern them.

    Numbers.  A C++ [float] is modelled by the type [float] below: the
    IEEE special values (the two infinities and NaN) with their propagation
    rules, and finite values as exact rationals.  Rounding and overflow of
    finite values are not modelled, and the sign of a zero is not tracked
    (a non-zero value divided by zero gives the infinity of the sign of the
    dividend).  Every arithmetic operation returns its rational result in
    lowest terms, so two computed values are equal exactly when they are the
    same number. *)

From Stdlib Require Import ZArith QArith Qround Qabs Bool List Lia Lqa.
Import ListNotations.

Local Open Scope Z_scope.

(** ** Floating-point values *)

Inductive float : Type :=
| Fin (q : Q)
| Inf (neg : bool)
| NaN.

Declare Scope float_scope.
Delimit Scope float_scope with F.
Bind Scope float_scope with float.

Definition Qneg_bool (q : Q) : bool :=
  match (q ?= 0)%Q with Lt => true | _ => false end.

Definition Qzero_bool (q : Q) : bool :=
  match (q ?= 0)%Q with Eq => true | _ => false end.

Definition fopp (a : float) : float :=
  match a with
  | Fin q => Fin (Qred (- q))
  | Inf s => Inf (negb s)
  | NaN => NaN
  end.

Definition fadd (a b : float) : float :=
  match a, b with
  | NaN, _ | _, NaN => NaN
  | Fin p, Fin q => Fin (Qred (p + q))
  | Fin _, Inf t => Inf t
  | Inf s, Fin _ => Inf s
  | Inf s, Inf t => if Bool.eqb s t then Inf s else NaN
  end.

Definition fsub (a b : float) : float :=
  match a, b with
  | NaN, _ | _, NaN => NaN
  | Fin p, Fin q => Fin (Qred (p - q))
  | Fin _, Inf t => Inf (negb t)
  | Inf s, Fin _ => Inf s
  | Inf s, Inf t => if Bool.eqb s t then NaN else Inf s
  end.

Definition fmul (a b : float) : float :=
  match a, b with
  | NaN, _ | _, NaN => NaN
  | Fin p, Fin q => Fin (Qred (p * q))
  | Fin p, Inf t => if Qzero_bool p then NaN else Inf (xorb (Qneg_bool p) t)
  | Inf s, Fin q => if Qzero_bool q then NaN else Inf (xorb s (Qneg_bool q))
  | Inf s, Inf t => Inf (xorb s t)
  end.

Definition fdiv (a b : float) : float :=
  match a, b with
  | NaN, _ | _, NaN => NaN
  | Fin p, Fin q =>
      if Qzero_bool q
      then (if Qzero_bool p then NaN else Inf (Qneg_bool p))
      else Fin (Qred (p / q))
  | Fin _, Inf _ => Fin 0
  | Inf s, Fin q => Inf (xorb s (Qneg_bool q))
  | Inf _, Inf _ => NaN
  end.

Infix "+" := fadd : float_scope.
Infix "-" := fsub : float_scope.
Infix "*" := fmul : float_scope.
Infix "/" := fdiv : float_scope.
Notation "- x" := (fopp x) : float_scope.

Definition isnan (a : float) : bool :=
  match a with NaN => true | _ => false end.

Definition isinf (a : float) : bool :=
  match a with Inf _ => true | _ => false end.

Definition isfinite (a : float) : bool :=
  match a with Fin _ => true | _ => false end.

(** Ordered comparison; [None] when either operand is NaN. *)
Definition fcompare (a b : float) : option comparison :=
  match a, b with
  | NaN, _ | _, NaN => None
  | Fin p, Fin q => Some (p ?= q)%Q
  | Fin _, Inf t => Some (if t then Gt else Lt)
  | Inf s, Fin _ => Some (if s then Lt else Gt)
  | Inf s, Inf t => Some (if Bool.eqb s t then Eq else if s then Lt else Gt)
  end.

Definition flt (a b : float) : bool :=
  match fcompare a b with Some Lt => true | _ => false end.
Definition fgt (a b : float) : bool := flt b a.
Definition fle (a b : float) : bool :=
  match fcompare a b with Some Lt | Some Eq => true | _ => false end.
Definition fge (a b : float) : bool := fle b a.
Definition feqb (a b : float) : bool :=
  match fcompare a b with Some Eq => true | _ => false end.
Definition fneb (a b : float) : bool := negb (feqb a b).

Definition float_of_Z (z : Z) : float := Fin (inject_Z z).

(** [WITHIN(v, lo, hi)] of the firmware's macros. *)
Definition WITHIN (v lo hi : float) : bool := fge v lo && fle v hi.
Definition WITHIN_Z (v lo hi : Z) : bool := (lo <=? v) && (v <=? hi).

(** [RECIPROCAL(x)] is [1.0f / x]. *)
Definition RECIPROCAL (x : float) : float := (Fin 1 / x)%F.

(** [sq(x)] and [HYPOT2(x, y)]. *)
Definition sq (x : float) : float := (x * x)%F.
Definition HYPOT2 (x y : float) : float := (sq x + sq y)%F.

(** [lroundf]: nearest integer, halves away from zero.  The result for an
    infinity or NaN is unspecified in C; it is 0 here. *)
Definition LROUND (a : float) : Z :=
  match a with
  | Fin q => if Qneg_bool q then (- Qfloor (- q + (1 # 2)))%Z
             else Qfloor (q + (1 # 2))
  | _ => 0
  end.

(** [FLOOR]: the integer floor of a finite value (0 for the others). *)
Definition FLOOR (a : float) : Z :=
  match a with Fin q => Qfloor q | _ => 0 end.

(** Truncating conversion of a [float] to an integer, as in [int8_t(f)]. *)
Definition ftrunc (a : float) : Z :=
  match a with
  | Fin q => Z.quot (Qnum q) (Zpos (Qden q))
  | _ => 0
  end.

(** ** Fixed-width integers *)

Definition int8_t (z : Z) : Z := (z + 128) mod 256 - 128.
Definition uint16_t (z : Z) : Z := z mod 65536.

Definition constrain (v lo hi : Z) : Z :=
  if v <? lo then lo else if hi <? v then hi else v.

Record xy_int8_t : Type := mk_xy_int8 { ix : Z; iy : Z }.

Definition xy_int8_eqb (a b : xy_int8_t) : bool :=
  (ix a =? ix b) && (iy a =? iy b).

(** ** Poses *)

Record xyze_pos_t : Type := mk_pos {
  pos_x : float;
  pos_y : float;
  pos_z : float;
  pos_e : float
}.

Definition set_z (p : xyze_pos_t) (v : float) : xyze_pos_t :=
  mk_pos (pos_x p) (pos_y p) v (pos_e p).

Definition pos_add (a b : xyze_pos_t) : xyze_pos_t :=
  mk_pos (pos_x a + pos_x b) (pos_y a + pos_y b)
         (pos_z a + pos_z b) (pos_e a + pos_e b)%F.

Definition pos_sub (a b : xyze_pos_t) : xyze_pos_t :=
  mk_pos (pos_x a - pos_x b) (pos_y a - pos_y b)
         (pos_z a - pos_z b) (pos_e a - pos_e b)%F.

Definition pos_scale (a : xyze_pos_t) (k : float) : xyze_pos_t :=
  mk_pos (pos_x a * k) (pos_y a * k) (pos_z a * k) (pos_e a * k)%F.

(** [xy_pos_t(a) != xy_pos_t(b)]. *)
Definition xy_neb (a b : xyze_pos_t) : bool :=
  fneb (pos_x a) (pos_x b) || fneb (pos_y a) (pos_y b).

Definition pos_finite (p : xyze_pos_t) : Prop :=
  isfinite (pos_x p) = true /\ isfinite (pos_y p) = true /\
  isfinite (pos_z p) = true /\ isfinite (pos_e p) = true.

(** ** The environment of the leveling code

    Everything [ubl_motion.cpp] takes from the rest of the firmware: the
    configuration macros, the mesh table, and the planner's entry points. *)

Record ubl_env : Type := mk_env {
  MESH_MIN_X : Q;
  MESH_MIN_Y : Q;
  MESH_X_DIST : Q;
  MESH_Y_DIST : Q;
  GRID_MAX_CELLS_X : Z;
  GRID_MAX_CELLS_Y : Z;
  (** [Some r] when the macro is defined with value [r]. *)
  UBL_Z_RAISE_WHEN_OFF_MESH : option float;
  (** Minimum segment length of the active kinematic class. *)
  DELTA_SEGMENT_MIN_LENGTH : float;
  (** [Some s] on a kinematic machine ([IS_KINEMATIC]), [s] segments per
      second; [None] on a Cartesian one. *)
  segments_per_second : option float;
  ENABLE_LEVELING_FADE_HEIGHT : bool;
  (** The mesh table [z_values[][]]; an undefined sample is NaN. *)
  z_values : Z -> Z -> float;
  (** [planner.fade_scaling_factor_for_z]. *)
  fade_scaling_factor_for_z : float -> float;
  (** [planner.leveling_active] and [planner.leveling_active_at_z]. *)
  leveling_active : bool;
  leveling_active_at_z : float -> bool;
  (** [planner.apply_modifiers]. *)
  apply_modifiers : xyze_pos_t -> xyze_pos_t;
  (** The answer of [planner.buffer_segment] to a sub-move, given the
      sub-moves this call has already handed over. *)
  buffer_segment : list xyze_pos_t -> xyze_pos_t -> bool;
  (** [position_is_reachable]. *)
  position_is_reachable : xyze_pos_t -> bool;
  (** Edge-linear corrections of [ubl.h]. *)
  z_correction_for_x_on_horizontal_mesh_line : float -> Z -> Z -> float;
  z_correction_for_y_on_vertical_mesh_line : float -> Z -> Z -> float;
  (** [sqrtf]. *)
  SQRT : float -> float
}.

Section Mesh.

Variable env : ubl_env.

(** Modelled from the spec: [get_mesh_x] and [get_mesh_y] of [ubl.h], the
    coordinate of a mesh line on a grid of fixed origin and spacing. *)
Definition get_mesh_x (i : Z) : float :=
  (Fin (MESH_MIN_X env) + float_of_Z i * Fin (MESH_X_DIST env))%F.
Definition get_mesh_y (i : Z) : float :=
  (Fin (MESH_MIN_Y env) + float_of_Z i * Fin (MESH_Y_DIST env))%F.

(** Modelled from the spec: the cell index functions of [ubl.h]
    ([cell_index_x_raw], [cell_index_x_valid], [cell_index_x],
    [cell_indexes] and their Y counterparts), the column (row) of the
    lower-left mesh point of the square containing a coordinate, clamped to
    the valid range for positions outside the measured area. *)
Definition cell_index_x_raw (x : float) : Z :=
  FLOOR ((x - Fin (MESH_MIN_X env)) * RECIPROCAL (Fin (MESH_X_DIST env)))%F.
Definition cell_index_y_raw (y : float) : Z :=
  FLOOR ((y - Fin (MESH_MIN_Y env)) * RECIPROCAL (Fin (MESH_Y_DIST env)))%F.

Definition cell_index_x_valid (x : float) : bool :=
  WITHIN_Z (cell_index_x_raw x) 0 (GRID_MAX_CELLS_X env - 1).
Definition cell_index_y_valid (y : float) : bool :=
  WITHIN_Z (cell_index_y_raw y) 0 (GRID_MAX_CELLS_Y env - 1).

Definition cell_index_x (x : float) : Z :=
  constrain (cell_index_x_raw x) 0 (GRID_MAX_CELLS_X env - 1).
Definition cell_index_y (y : float) : Z :=
  constrain (cell_index_y_raw y) 0 (GRID_MAX_CELLS_Y env - 1).

Definition cell_indexes (p : xyze_pos_t) : xy_int8_t :=
  mk_xy_int8 (cell_index_x (pos_x p)) (cell_index_y (pos_y p)).

End Mesh.

(** ** The cell-boundary splitter ([!UBL_SEGMENTED]) *)

Section Splitter.

Variable env : ubl_env.

(** The values [line_to_destination_cartesian] computes once per move,
    before its loops (source lines 57-139). *)
Record line_locals : Type := mk_locals {
  start : xyze_pos_t;
  end_ : xyze_pos_t;
  istart : xy_int8_t;
  iend : xy_int8_t;
  dist_x : float;
  dist_y : float;
  neg_x : bool;
  neg_y : bool;
  ineg : xy_int8_t;
  sign_x : float;
  sign_y : float;
  iadd : xy_int8_t;
  use_x_dist : bool;
  z_normalized_dist : float;
  e_normalized_dist : float;
  inf_normalized_flag : bool;
  ratio : float;
  c : float;
  inf_ratio_flag : bool
}.

Definition Z_of_bool (b : bool) : Z := if b then 1 else 0.

Definition compute_locals (current_position destination : xyze_pos_t)
  : line_locals :=
  let start := apply_modifiers env current_position in
  let end_ := apply_modifiers env destination in
  let istart := cell_indexes env start in
  let iend := cell_indexes env end_ in
  let dist_x := (pos_x end_ - pos_x start)%F in
  let dist_y := (pos_y end_ - pos_y start)%F in
  let neg_x := flt dist_x (Fin 0) in
  let neg_y := flt dist_y (Fin 0) in
  let ineg := mk_xy_int8 (Z_of_bool neg_x) (Z_of_bool neg_y) in
  let sign_x := if neg_x then Fin (-1) else Fin 1 in
  let sign_y := if neg_y then Fin (-1) else Fin 1 in
  let iadd :=
    mk_xy_int8 (if ix iend =? ix istart then 0 else int8_t (ftrunc sign_x))
               (if iy iend =? iy istart then 0 else int8_t (ftrunc sign_y)) in
  let ad_x := (sign_x * dist_x)%F in
  let ad_y := (sign_y * dist_y)%F in
  let use_x_dist := fgt ad_x ad_y in
  let on_axis_distance := if use_x_dist then dist_x else dist_y in
  let z_normalized_dist := ((pos_z end_ - pos_z start) / on_axis_distance)%F in
  let e_normalized_dist := ((pos_e end_ - pos_e start) / on_axis_distance)%F in
  let inf_normalized_flag := isinf e_normalized_dist in
  let ratio := (dist_y / dist_x)%F in
  let c := (pos_y start - ratio * pos_x start)%F in
  let inf_ratio_flag := isinf ratio in
  mk_locals start end_ istart iend dist_x dist_y neg_x neg_y ineg
            sign_x sign_y iadd use_x_dist z_normalized_dist
            e_normalized_dist inf_normalized_flag ratio c inf_ratio_flag.

(** The bilinear interpolation of the four corner samples of cell [iend]
    at the position of [end_] (source lines 88-94, before the fade
    factor). *)
Definition cell_bilinear (end_ : xyze_pos_t) (iend : xy_int8_t) : float :=
  let xratio := ((pos_x end_ - get_mesh_x env (ix iend))
                 * RECIPROCAL (Fin (MESH_X_DIST env)))%F in
  let yratio := ((pos_y end_ - get_mesh_y env (iy iend))
                 * RECIPROCAL (Fin (MESH_Y_DIST env)))%F in
  let z1 := (z_values env (ix iend) (iy iend)
             + xratio * (z_values env (ix iend + 1) (iy iend)
                         - z_values env (ix iend) (iy iend)))%F in
  let z2 := (z_values env (ix iend) (iy iend + 1)
             + xratio * (z_values env (ix iend + 1) (iy iend + 1)
                         - z_values env (ix iend) (iy iend + 1)))%F in
  (z1 + (z2 - z1) * yratio)%F.

(** [z0] of source line 94. *)
Definition final_z0 (end_ : xyze_pos_t) (iend : xy_int8_t) : float :=
  (cell_bilinear end_ iend * fade_scaling_factor_for_z env (pos_z end_))%F.

(** The [FINAL_MOVE] block (source lines 69-101): the sub-move it hands to
    the planner. *)
Definition FINAL_MOVE (end_ : xyze_pos_t) (iend : xy_int8_t) : xyze_pos_t :=
  let interpolated :=
    let z0 := final_z0 end_ iend in
    if negb (isnan z0) then set_z end_ (pos_z end_ + z0)%F else end_ in
  match UBL_Z_RAISE_WHEN_OFF_MESH env with
  | Some raise =>
      if negb (cell_index_x_valid env (pos_x end_))
         || negb (cell_index_y_valid env (pos_y end_))
      then set_z end_ (pos_z end_ + raise)%F
      else interpolated
  | None => interpolated
  end.

Section Loops.

Variable L : line_locals.

(** The sub-move to a crossing point [(dest_x, dest_y)] with mesh
    correction [z0]: E and Z follow the dominant axis unless the E rate is
    infinite (source lines 175-185, and again in each loop). *)
Definition crossing_move (dest_x dest_y z0 : float) : xyze_pos_t :=
  let '(dest_e, dest_z) :=
    if negb (inf_normalized_flag L) then
      let on_axis_distance :=
        if use_x_dist L then (dest_x - pos_x (start L))%F
        else (dest_y - pos_y (start L))%F in
      ((pos_e (start L) + on_axis_distance * e_normalized_dist L)%F,
       (pos_z (start L) + on_axis_distance * z_normalized_dist L)%F)
    else (pos_e (end_ L), pos_z (end_ L)) in
  mk_pos dest_x dest_y (dest_z + z0)%F dest_e.

(** [z0] with a NaN replaced by [0.0]. *)
Definition nan_to_zero (z0 : float) : float :=
  if isnan z0 then Fin 0 else z0.

(** Vertical lines that stay within one column (source lines 149-191).
    The planner's answer is not looked at here. *)
Fixpoint vertical_loop (fuel : nat) (icell : xy_int8_t)
    (hist : list xyze_pos_t) : option (list xyze_pos_t) :=
  if iy icell =? iy (iend L) + iy (ineg L) then Some hist else
  match fuel with
  | O => None
  | S fuel' =>
      let icell := mk_xy_int8 (ix icell) (int8_t (iy icell + iy (iadd L))) in
      let next_mesh_line_y := get_mesh_y env (iy icell) in
      let dest_x :=
        if inf_ratio_flag L then pos_x (start L)
        else ((next_mesh_line_y - c L) / ratio L)%F in
      let z0 :=
        (z_correction_for_x_on_horizontal_mesh_line env dest_x
           (ix icell) (iy icell)
         * fade_scaling_factor_for_z env (pos_z (end_ L)))%F in
      let z0 := nan_to_zero z0 in
      let dest_y := get_mesh_y env (iy icell) in
      if fneb dest_y (pos_y (start L)) then
        let dest := crossing_move dest_x dest_y z0 in
        vertical_loop fuel' icell (hist ++ [dest])
      else vertical_loop fuel' icell hist
  end.

(** Horizontal lines that stay within one row (source lines 208-242). *)
Fixpoint horizontal_loop (fuel : nat) (icell : xy_int8_t)
    (hist : list xyze_pos_t) : option (list xyze_pos_t) :=
  if ix icell =? ix (iend L) + ix (ineg L) then Some hist else
  match fuel with
  | O => None
  | S fuel' =>
      let icell := mk_xy_int8 (int8_t (ix icell + ix (iadd L))) (iy icell) in
      let dest_x := get_mesh_x env (ix icell) in
      let dest_y := (ratio L * dest_x + c L)%F in
      let z0 :=
        (z_correction_for_y_on_vertical_mesh_line env dest_y
           (ix icell) (iy icell)
         * fade_scaling_factor_for_z env (pos_z (end_ L)))%F in
      let z0 := nan_to_zero z0 in
      if fneb dest_x (pos_x (start L)) then
        let dest := crossing_move dest_x dest_y z0 in
        if negb (buffer_segment env hist dest) then Some (hist ++ [dest])
        else horizontal_loop fuel' icell (hist ++ [dest])
      else horizontal_loop fuel' icell hist
  end.

(** The general case, a line crossing both X and Y mesh lines (source
    lines 259-326). *)
Fixpoint general_loop (fuel : nat) (icell cnt : xy_int8_t)
    (hist : list xyze_pos_t) : option (list xyze_pos_t) :=
  if (ix cnt =? 0) && (iy cnt =? 0) then Some hist else
  match fuel with
  | O => None
  | S fuel' =>
      let next_mesh_line_x := get_mesh_x env (ix icell + ix (iadd L)) in
      let next_mesh_line_y := get_mesh_y env (iy icell + iy (iadd L)) in
      let dest_y := (ratio L * next_mesh_line_x + c L)%F in
      let dest_x := ((next_mesh_line_y - c L) / ratio L)%F in
      if Bool.eqb (neg_x L) (fgt dest_x next_mesh_line_x) then
        let z0 :=
          (z_correction_for_x_on_horizontal_mesh_line env dest_x
             (ix icell - ix (ineg L)) (iy icell + iy (iadd L))
           * fade_scaling_factor_for_z env (pos_z (end_ L)))%F in
        let z0 := nan_to_zero z0 in
        let dest_y := next_mesh_line_y in
        let dest := crossing_move dest_x dest_y z0 in
        if negb (buffer_segment env hist dest) then Some (hist ++ [dest])
        else
          let icell := mk_xy_int8 (ix icell) (int8_t (iy icell + iy (iadd L))) in
          let cnt := mk_xy_int8 (ix cnt) (int8_t (iy cnt - 1)) in
          if (ix cnt <? 0) || (iy cnt <? 0) then Some (hist ++ [dest])
          else general_loop fuel' icell cnt (hist ++ [dest])
      else
        let z0 :=
          (z_correction_for_y_on_vertical_mesh_line env dest_y
             (ix icell + ix (iadd L)) (iy icell - iy (ineg L))
           * fade_scaling_factor_for_z env (pos_z (end_ L)))%F in
        let z0 := nan_to_zero z0 in
        let dest_x := next_mesh_line_x in
        let dest := crossing_move dest_x dest_y z0 in
        if negb (buffer_segment env hist dest) then Some (hist ++ [dest])
        else
          let icell := mk_xy_int8 (int8_t (ix icell + ix (iadd L))) (iy icell) in
          let cnt := mk_xy_int8 (int8_t (ix cnt - 1)) (iy cnt) in
          if (ix cnt <? 0) || (iy cnt <? 0) then Some (hist ++ [dest])
          else general_loop fuel' icell cnt (hist ++ [dest])
  end.

(** The sub-moves emitted at mesh-line crossings, by the loop that the
    classification of the move selects. *)
Definition crossing_moves : option (list xyze_pos_t) :=
  if ix (iadd L) =? 0 then
    vertical_loop 256
      (mk_xy_int8 (ix (istart L)) (int8_t (iy (istart L) + iy (ineg L)))) []
  else if iy (iadd L) =? 0 then
    horizontal_loop 256
      (mk_xy_int8 (int8_t (ix (istart L) + ix (ineg L))) (iy (istart L))) []
  else
    let cnt :=
      mk_xy_int8 (int8_t (Z.abs (int8_t (ix (istart L) - ix (iend L)))))
                 (int8_t (Z.abs (int8_t (iy (istart L) - iy (iend L))))) in
    let icell :=
      mk_xy_int8 (int8_t (ix (istart L) + ix (ineg L)))
                 (int8_t (iy (istart L) + iy (ineg L))) in
    general_loop (Z.to_nat (Z.abs (ix cnt) + Z.abs (iy cnt)) + 1) icell cnt [].

End Loops.

(** The shapes a crossing sub-move can have: on a horizontal mesh line,
    with X from the line equation (or the start X for an infinite slope),
    or on a vertical mesh line, with Y from the line equation.  The mesh
    correction is whatever the edge interpolation gave, a NaN replaced
    by 0. *)
Definition on_y_line (L : line_locals) (p : xyze_pos_t) : Prop :=
  exists (j : Z) (corr : float),
    p = crossing_move L
          (if inf_ratio_flag L then pos_x (start L)
           else ((get_mesh_y env j - c L) / ratio L)%F)
          (get_mesh_y env j) (nan_to_zero corr).

Definition on_y_line_general (L : line_locals) (p : xyze_pos_t) : Prop :=
  exists (j : Z) (corr : float),
    p = crossing_move L ((get_mesh_y env j - c L) / ratio L)%F
          (get_mesh_y env j) (nan_to_zero corr).

Definition on_x_line (L : line_locals) (p : xyze_pos_t) : Prop :=
  exists (i : Z) (corr : float),
    p = crossing_move L (get_mesh_x env i)
          (ratio L * get_mesh_x env i + c L)%F (nan_to_zero corr).

(** Every sub-move of [h] but the last was accepted by the planner, which
    had seen [hist] and the sub-moves of [h] before it. *)
Definition accepted_but_last (hist h : list xyze_pos_t) : Prop :=
  forall (h1 h2 : list xyze_pos_t) (p : xyze_pos_t),
    h = h1 ++ p :: h2 -> h2 <> [] -> buffer_segment env (hist ++ h1) p = true.

(** [line_to_destination_cartesian]: the sub-moves handed to the planner,
    in order, and the value [current_position] has on return.  [None]
    stands for a loop that does not end. *)
Definition line_to_destination_cartesian
    (current_position destination : xyze_pos_t)
  : option (list xyze_pos_t * xyze_pos_t) :=
  let L := compute_locals current_position destination in
  if xy_int8_eqb (istart L) (iend L) then
    Some ([FINAL_MOVE (end_ L) (iend L)], destination)
  else
    match crossing_moves L with
    | None => None
    | Some hist =>
        if xy_neb current_position (end_ L)
        then Some (hist ++ [FINAL_MOVE (end_ L) (iend L)], destination)
        else Some (hist, destination)
    end.

End Splitter.

(** ** The fixed-length segmenter ([UBL_SEGMENTED]) *)

(** A call of [planner.buffer_line]: the target pose and the length of
    the segment announced with it.  The feed rate is the same in every
    call of a move and is left out. *)
Record segment : Type := mk_segment {
  seg_target : xyze_pos_t;
  seg_mm : float
}.

Definition NOMORE (v lim : Z) : Z := if lim <? v then lim else v.
Definition NOLESS (v lim : Z) : Z := if v <? lim then lim else v.

Section Segmenter.

Variable env : ubl_env.

(** The segment count (source lines 363-375). *)
Definition segment_count (total : xyze_pos_t) (scaled_fr_mm_s : float) : Z :=
  let cart_xy_mm_2 := HYPOT2 (pos_x total) (pos_y total) in
  let cart_xy_mm := SQRT env cart_xy_mm_2 in
  let segments :=
    match segments_per_second env with
    | Some sps =>
        let seconds := (cart_xy_mm / scaled_fr_mm_s)%F in
        let segments := uint16_t (LROUND (sps * seconds)%F) in
        let seglimit :=
          uint16_t (LROUND (cart_xy_mm
                            * RECIPROCAL (DELTA_SEGMENT_MIN_LENGTH env))%F) in
        NOMORE segments seglimit
    | None =>
        uint16_t (LROUND (cart_xy_mm
                          * RECIPROCAL (DELTA_SEGMENT_MIN_LENGTH env))%F)
    end in
  NOLESS segments 1.

(** The mesh cell invariants, constant for all segments within a cell
    (source lines 422-459). *)
Record cell_coeffs : Type := mk_coeffs {
  cell_x : float;
  cell_y : float;
  z_cxy0 : float;
  z_cxym : float;
  z_sxy0 : float;
  z_sxym : float
}.

(** The cell of a segment: the truncated index, limited to the grid
    (source lines 422-427). *)
Definition segment_icell (raw : xyze_pos_t) : xy_int8_t :=
  let icx :=
    int8_t (ftrunc ((pos_x raw - Fin (MESH_MIN_X env))
                    * RECIPROCAL (Fin (MESH_X_DIST env)))%F) in
  let icy :=
    int8_t (ftrunc ((pos_y raw - Fin (MESH_MIN_Y env))
                    * RECIPROCAL (Fin (MESH_Y_DIST env)))%F) in
  mk_xy_int8 (constrain icx 0 (GRID_MAX_CELLS_X env))
             (constrain icy 0 (GRID_MAX_CELLS_Y env)).

(** The four corner samples of a cell, an undefined one read as 0
    (source lines 429-437). *)
Definition zero_if_nan (z : float) : float := if isnan z then Fin 0 else z.

Definition cell_setup (icell : xy_int8_t) (raw diff : xyze_pos_t)
  : cell_coeffs :=
  let z_x0y0 := zero_if_nan (z_values env (ix icell) (iy icell)) in
  let z_x1y0 := zero_if_nan (z_values env (ix icell + 1) (iy icell)) in
  let z_x0y1 := zero_if_nan (z_values env (ix icell) (iy icell + 1)) in
  let z_x1y1 := zero_if_nan (z_values env (ix icell + 1) (iy icell + 1)) in
  let pos_x0 := get_mesh_x env (ix icell) in
  let pos_y0 := get_mesh_y env (iy icell) in
  let cell_x := (pos_x raw - pos_x0)%F in
  let cell_y := (pos_y raw - pos_y0)%F in
  let z_xmy0 := ((z_x1y0 - z_x0y0) * RECIPROCAL (Fin (MESH_X_DIST env)))%F in
  let z_xmy1 := ((z_x1y1 - z_x0y1) * RECIPROCAL (Fin (MESH_X_DIST env)))%F in
  let z_cxy0 := (z_x0y0 + z_xmy0 * cell_x)%F in
  let z_cxy1 := (z_x0y1 + z_xmy1 * cell_x)%F in
  let z_cxyd := (z_cxy1 - z_cxy0)%F in
  let z_cxym := (z_cxyd * RECIPROCAL (Fin (MESH_Y_DIST env)))%F in
  let z_sxy0 := (z_xmy0 * pos_x diff)%F in
  let z_sxym := ((z_xmy1 - z_xmy0) * RECIPROCAL (Fin (MESH_Y_DIST env))
                 * pos_x diff)%F in
  mk_coeffs cell_x cell_y z_cxy0 z_cxym z_sxy0 z_sxym.

(** The interpolated mesh height of a segment (source lines 465-466). *)
Definition z_cxcy_of (fade_scaling_factor : float) (k : cell_coeffs) : float :=
  let z := (z_cxy0 k + z_cxym k * cell_y k)%F in
  if ENABLE_LEVELING_FADE_HEIGHT env then (z * fade_scaling_factor)%F else z.

(** The per-segment adjustment of slope and intercept, with the position
    within the cell advanced (source lines 476 and 484-485). *)
Definition advance_coeffs (k : cell_coeffs) (diff : xyze_pos_t) : cell_coeffs :=
  mk_coeffs (cell_x k + pos_x diff)%F (cell_y k + pos_y diff)%F
            (z_cxy0 k + z_sxy0 k)%F (z_cxym k + z_sxym k)%F
            (z_sxy0 k) (z_sxym k).

Definition left_cell (k : cell_coeffs) : bool :=
  negb (WITHIN (cell_x k) (Fin 0) (Fin (MESH_X_DIST env)))
  || negb (WITHIN (cell_y k) (Fin 0) (Fin (MESH_Y_DIST env))).

Section SegmentLoops.

Variables (destination diff : xyze_pos_t).
Variables (segment_xyz_mm fade_scaling_factor : float).

(** Plain segmentation, leveling inactive (source lines 392-400). *)
Fixpoint plain_loop (fuel : nat) (segments : Z) (raw : xyze_pos_t)
    (hist : list segment) : option (list segment) :=
  let segments := uint16_t (segments - 1) in
  if segments =? 0 then Some hist else
  match fuel with
  | O => None
  | S fuel' =>
      let raw := pos_add raw diff in
      plain_loop fuel' segments raw (hist ++ [mk_segment raw segment_xyz_mm])
  end.

(** How the loop over the segments of one cell ends: by the [return] after
    the last segment, or by the [break] to the next cell. *)
Inductive cell_exit : Type :=
| Returned (hist : list segment)
| NextCell (segments : Z) (raw : xyze_pos_t) (hist : list segment).

(** For all segments within this mesh cell (source lines 461-487).  The
    adjusted slope and intercept of [k'] are used only if the next segment
    stays within the cell; otherwise the next cell sets them up afresh. *)
Fixpoint segment_loop (fuel : nat) (segments : Z) (raw : xyze_pos_t)
    (k : cell_coeffs) (hist : list segment) : option cell_exit :=
  match fuel with
  | O => None
  | S fuel' =>
      let segments := uint16_t (segments - 1) in
      let raw := if segments =? 0 then destination else raw in
      let z_cxcy := z_cxcy_of fade_scaling_factor k in
      let oldz := pos_z raw in
      let raw := set_z raw (pos_z raw + z_cxcy)%F in
      let hist := hist ++ [mk_segment raw segment_xyz_mm] in
      let raw := set_z raw oldz in
      if segments =? 0 then Some (Returned hist) else
      let raw := pos_add raw diff in
      let k' := advance_coeffs k diff in
      if left_cell k' then Some (NextCell segments raw hist)
      else segment_loop fuel' segments raw k' hist
  end.

(** For each mesh cell encountered during the move (source lines
    413-488). *)
Fixpoint cell_loop (fuel : nat) (segments : Z) (raw : xyze_pos_t)
    (hist : list segment) : option (list segment) :=
  match fuel with
  | O => None
  | S fuel' =>
      let icell := segment_icell raw in
      let k := cell_setup icell raw diff in
      match segment_loop fuel segments raw k hist with
      | None => None
      | Some (Returned hist) => Some hist
      | Some (NextCell segments raw hist) => cell_loop fuel' segments raw hist
      end
  end.

End SegmentLoops.

(** [line_to_destination_segmented]: the returned flag and the calls of
    [planner.buffer_line], in order.  [None] stands for a loop that does
    not end. *)
Definition line_to_destination_segmented
    (current_position destination : xyze_pos_t) (scaled_fr_mm_s : float)
  : option (bool * list segment) :=
  if negb (position_is_reachable env destination) then Some (true, []) else
  let total := pos_sub destination current_position in
  let cart_xy_mm_2 := HYPOT2 (pos_x total) (pos_y total) in
  let segments := segment_count total scaled_fr_mm_s in
  let inv_segments := (Fin 1 / float_of_Z segments)%F in
  let segment_xyz_mm :=
    (SQRT env (cart_xy_mm_2 + sq (pos_z total)) * inv_segments)%F in
  let diff := pos_scale total inv_segments in
  let raw := current_position in
  if negb (leveling_active env)
     || negb (leveling_active_at_z env (pos_z destination)) then
    match plain_loop diff segment_xyz_mm (Z.to_nat segments) segments raw [] with
    | None => None
    | Some hist =>
        Some (false, hist ++ [mk_segment destination segment_xyz_mm])
    end
  else
    let fade_scaling_factor :=
      fade_scaling_factor_for_z env (pos_z destination) in
    let raw := pos_add raw diff in
    match cell_loop destination diff segment_xyz_mm fade_scaling_factor
                    (Z.to_nat segments) segments raw [] with
    | None => None
    | Some hist => Some (false, hist)
    end.

(** The path of the move without any correction: the position [j]
    segment increments after [raw]. *)
Fixpoint raw_after (diff : xyze_pos_t) (j : nat) (raw : xyze_pos_t)
  : xyze_pos_t :=
  match j with
  | O => raw
  | S j' => pos_add (raw_after diff j' raw) diff
  end.

(** The interpolation coefficients in use for the segment after [j]
    increments, as a function of that uncorrected path alone: set up afresh
    whenever the advanced position has left the cell. *)
Fixpoint coeffs_at (diff : xyze_pos_t) (j : nat) (raw : xyze_pos_t)
  : cell_coeffs :=
  match j with
  | O => cell_setup (segment_icell raw) raw diff
  | S j' =>
      let k' := advance_coeffs (coeffs_at diff j' raw) diff in
      if left_cell k' then
        let w := raw_after diff j raw in
        cell_setup (segment_icell w) w diff
      else k'
  end.


End Segmenter.

(** Names for the values [line_to_destination_segmented] computes before
    its loops (source lines 361-383). *)
Definition segmented_segments (env : ubl_env)
    (current_position destination : xyze_pos_t) (scaled_fr_mm_s : float) : Z :=
  segment_count env (pos_sub destination current_position) scaled_fr_mm_s.

Definition segmented_diff (env : ubl_env)
    (current_position destination : xyze_pos_t) (scaled_fr_mm_s : float)
  : xyze_pos_t :=
  pos_scale (pos_sub destination current_position)
    (Fin 1 / float_of_Z (segmented_segments env current_position destination
                           scaled_fr_mm_s))%F.

Definition segmented_mm (env : ubl_env)
    (current_position destination : xyze_pos_t) (scaled_fr_mm_s : float)
  : float :=
  let total := pos_sub destination current_position in
  (SQRT env (HYPOT2 (pos_x total) (pos_y total) + sq (pos_z total))
   * (Fin 1 / float_of_Z (segmented_segments env current_position destination
                            scaled_fr_mm_s)))%F.

(** The same machine with leveling switched off, or with another mesh
    table. *)
Definition with_leveling_off (env : ubl_env) : ubl_env :=
  mk_env (MESH_MIN_X env) (MESH_MIN_Y env) (MESH_X_DIST env) (MESH_Y_DIST env)
    (GRID_MAX_CELLS_X env) (GRID_MAX_CELLS_Y env)
    (UBL_Z_RAISE_WHEN_OFF_MESH env) (DELTA_SEGMENT_MIN_LENGTH env)
    (segments_per_second env) (ENABLE_LEVELING_FADE_HEIGHT env)
    (z_values env) (fade_scaling_factor_for_z env)
    false (leveling_active_at_z env)
    (apply_modifiers env) (buffer_segment env) (position_is_reachable env)
    (z_correction_for_x_on_horizontal_mesh_line env)
    (z_correction_for_y_on_vertical_mesh_line env) (SQRT env).

Definition with_z_values (env : ubl_env) (zv : Z -> Z -> float) : ubl_env :=
  mk_env (MESH_MIN_X env) (MESH_MIN_Y env) (MESH_X_DIST env) (MESH_Y_DIST env)
    (GRID_MAX_CELLS_X env) (GRID_MAX_CELLS_Y env)
    (UBL_Z_RAISE_WHEN_OFF_MESH env) (DELTA_SEGMENT_MIN_LENGTH env)
    (segments_per_second env) (ENABLE_LEVELING_FADE_HEIGHT env)
    zv (fade_scaling_factor_for_z env)
    (leveling_active env) (leveling_active_at_z env)
    (apply_modifiers env) (buffer_segment env) (position_is_reachable env)
    (z_correction_for_x_on_horizontal_mesh_line env)
    (z_correction_for_y_on_vertical_mesh_line env) (SQRT env).

(** The mesh table with 0 in place of every undefined sample. *)
Definition zeroed (zv : Z -> Z -> float) (i j : Z) : float :=
  zero_if_nan (zv i j).

(** ** A concrete machine

    A 3 x 3 cell mesh of spacing 50 with origin (0, 0), no position
    modifier, fade factor 1, and a Cartesian minimum segment length of 1.
    The mesh table, the planner's answers and the reachability test are
    left open. *)

Module Example.

(** Edge-linear interpolation along a horizontal (vertical) mesh line;
    NaN off the mesh. *)
Definition edge_x (zv : Z -> Z -> float) (rx0 : float) (x1_i yi : Z) : float :=
  if negb (WITHIN_Z x1_i 0 3) || negb (WITHIN_Z yi 0 3) then NaN else
  let xratio := ((rx0 - (Fin 0 + float_of_Z x1_i * Fin 50))
                 * RECIPROCAL (Fin 50))%F in
  let z1 := zv x1_i yi in
  (z1 + xratio * (zv (Z.min x1_i 2 + 1)%Z yi - z1))%F.

Definition edge_y (zv : Z -> Z -> float) (ry0 : float) (xi y1_i : Z) : float :=
  if negb (WITHIN_Z xi 0 3) || negb (WITHIN_Z y1_i 0 3) then NaN else
  let yratio := ((ry0 - (Fin 0 + float_of_Z y1_i * Fin 50))
                 * RECIPROCAL (Fin 50))%F in
  let z1 := zv xi y1_i in
  (z1 + yratio * (zv xi (Z.min y1_i 2 + 1)%Z - z1))%F.

(** A square root that is exact on the squares of rationals. *)
Definition sqrt_floor (a : float) : float :=
  match a with
  | Fin q => Fin (Qred (Z.sqrt (Qnum q * Zpos (Qden q)) # Qden q))
  | Inf false => Inf false
  | _ => NaN
  end.

Definition machine (zv : Z -> Z -> float)
    (sink : list xyze_pos_t -> xyze_pos_t -> bool)
    (reachable : xyze_pos_t -> bool) : ubl_env :=
  {| MESH_MIN_X := 0; MESH_MIN_Y := 0;
     MESH_X_DIST := 50; MESH_Y_DIST := 50;
     GRID_MAX_CELLS_X := 3; GRID_MAX_CELLS_Y := 3;
     UBL_Z_RAISE_WHEN_OFF_MESH := None;
     DELTA_SEGMENT_MIN_LENGTH := Fin 1;
     segments_per_second := None;
     ENABLE_LEVELING_FADE_HEIGHT := true;
     z_values := zv;
     fade_scaling_factor_for_z := fun _ => Fin 1;
     leveling_active := true;
     leveling_active_at_z := fun _ => true;
     apply_modifiers := fun p => p;
     buffer_segment := sink;
     position_is_reachable := reachable;
     z_correction_for_x_on_horizontal_mesh_line := edge_x zv;
     z_correction_for_y_on_vertical_mesh_line := edge_y zv;
     SQRT := sqrt_floor |}.

(** All samples 0 except the mesh point (1, 1), which is 2. *)
Definition bump (i j : Z) : float :=
  if (i =? 1) && (j =? 1) then Fin 2 else Fin 0.

(** All samples 1 except the mesh point (1, 0), which is undefined. *)
Definition holed (i j : Z) : float :=
  if (i =? 1) && (j =? 0) then NaN else Fin 1.

Definition accept_all (_ : list xyze_pos_t) (_ : xyze_pos_t) : bool := true.
Definition reject_all (_ : list xyze_pos_t) (_ : xyze_pos_t) : bool := false.
Definition anywhere (_ : xyze_pos_t) : bool := true.
Definition nowhere (_ : xyze_pos_t) : bool := false.

Definition at_xyz (x y z : Q) : xyze_pos_t := mk_pos (Fin x) (Fin y) (Fin z) (Fin 0).

End Example.

(** ** Vocabulary of the properties *)

(** The segment expected at index [i] (from 0) of a leveled move of [n]
    segments whose first segment ends at [raw1]: the uncorrected path
    point, or the destination itself for the last one, with the mesh
    height of that segment added to its Z. *)
Definition leveled_segment (env : ubl_env) (destination diff : xyze_pos_t)
    (segment_xyz_mm fade_scaling_factor : float) (n : nat)
    (raw1 : xyze_pos_t) (i : nat) : segment :=
  let b := if (S i =? n)%nat then destination else raw_after diff i raw1 in
  mk_segment
    (set_z b (pos_z b + z_cxcy_of env fade_scaling_factor
                                  (coeffs_at env diff i raw1))%F)
    segment_xyz_mm.

(** The mesh is small enough for cell indices to be [int8_t] values. *)
Definition grid_fits (env : ubl_env) : Prop :=
  1 <= GRID_MAX_CELLS_X env <= 127 /\ 1 <= GRID_MAX_CELLS_Y env <= 127.

(** What the loops need to know of the per-move values. *)
Record locals_ok (L : line_locals) : Prop := {
  ok_istart : 0 <= ix (istart L) <= 126 /\ 0 <= iy (istart L) <= 126;
  ok_iend : 0 <= ix (iend L) <= 126 /\ 0 <= iy (iend L) <= 126;
  ok_ineg : (ix (ineg L) = 0 \/ ix (ineg L) = 1) /\
            (iy (ineg L) = 0 \/ iy (ineg L) = 1);
  ok_iadd_x : (ix (iadd L) = 0 /\ ix (iend L) = ix (istart L)) \/
              ((ix (iadd L) = 1 \/ ix (iadd L) = -1) /\
               ix (iend L) <> ix (istart L));
  ok_iadd_y : (iy (iadd L) = 0 /\ iy (iend L) = iy (istart L)) \/
              ((iy (iadd L) = 1 \/ iy (iadd L) = -1) /\
               iy (iend L) <> iy (istart L));
  ok_differ : istart L <> iend L
}.

(** The crossing sub-moves by kind of move. *)
Definition crossing_shape (env : ubl_env) (L : line_locals)
    (h : list xyze_pos_t) : Prop :=
  (ix (iadd L) = 0 /\ Forall (on_y_line env L) h) \/
  (ix (iadd L) <> 0 /\ iy (iadd L) = 0 /\
   Forall (on_x_line env L) h /\ accepted_but_last env [] h) \/
  (ix (iadd L) <> 0 /\ iy (iadd L) <> 0 /\
   Forall (fun p => on_y_line_general env L p \/ on_x_line env L p) h /\
   accepted_but_last env [] h /\
   Z.of_nat (length h)
   <= Z.abs (ix (istart L) - ix (iend L)) + Z.abs (iy (istart L) - iy (iend L))).

Definition coeffs_finite (k : cell_coeffs) : Prop :=
  exists cx cy a b c d,
    k = mk_coeffs (Fin cx) (Fin cy) (Fin a) (Fin b) (Fin c) (Fin d).

(** The mesh geometry and table are usable: non-zero spacing, and no
    infinite sample. *)
Definition mesh_sane (env : ubl_env) : Prop :=
  ~ (MESH_X_DIST env == 0)%Q /\ ~ (MESH_Y_DIST env == 0)%Q /\
  forall i j, isinf (z_values env i j) = false.

Definition xy_finite (p : xyze_pos_t) : Prop :=
  isfinite (pos_x p) = true /\ isfinite (pos_y p) = true.

Record locals_finite (L : line_locals) : Prop := {
  lf_start : pos_finite (start L);
  lf_end : pos_finite (end_ L);
  lf_flag : inf_normalized_flag L = false;
  lf_e : isfinite (e_normalized_dist L) = true;
  lf_z : isfinite (z_normalized_dist L) = true;
  lf_column : ix (iend L) = ix (istart L) ->
              inf_ratio_flag L = true \/
              exists r cc, ratio L = Fin r /\ ~ (r == 0)%Q /\ c L = Fin cc;
  lf_columns : ix (iend L) <> ix (istart L) ->
               exists r cc, ratio L = Fin r /\ c L = Fin cc /\
                            (iy (iend L) <> iy (istart L) -> ~ (r == 0)%Q)
}.

Definition no_nan (p : xyze_pos_t) : Prop :=
  isnan (pos_x p) = false /\ isnan (pos_y p) = false /\
  isnan (pos_z p) = false /\ isnan (pos_e p) = false.

(** What a crossing sub-move [p] with mesh correction [z0] is, written
    out: E and Z follow the dominant axis, or are the destination's when
    the E rate is infinite. *)
Definition interpolated_on_dominant_axis (L : line_locals) (p : xyze_pos_t)
    (z0 : float) : Prop :=
  let on_axis_distance :=
    if use_x_dist L then (pos_x p - pos_x (start L))%F
    else (pos_y p - pos_y (start L))%F in
  if inf_normalized_flag L then
    pos_e p = pos_e (end_ L) /\ pos_z p = (pos_z (end_ L) + z0)%F
  else
    pos_e p = (pos_e (start L) + on_axis_distance * e_normalized_dist L)%F /\
    pos_z p = (pos_z (start L) + on_axis_distance * z_normalized_dist L
               + z0)%F.

Definition crossing_ok (L : line_locals) (p : xyze_pos_t) : Prop :=
  no_nan p /\
  exists z0, isnan z0 = false /\ interpolated_on_dominant_axis L p z0.

(** X of the point at height [Y] on the line through start and end, as
    the splitter computes it from slope and intercept. *)
Definition line_x (sx sy ex ey Y : Q) : Q :=
  ((Y - (sy - ((ey - sy) / (ex - sx)) * sx)) / ((ey - sy) / (ex - sx)))%Q.

(** Coordinate of mesh line [i] on a grid of origin [m] and spacing [d]. *)
Definition mesh_line (m d : Q) (i : Z) : Q := (m + inject_Z i * d)%Q.

(** Whether the general loop takes the Y mesh line [j] before the X mesh
    line [i] (source line 270). *)
Definition y_line_first (env : ubl_env) (L : line_locals) (i j : Z) : bool :=
  Bool.eqb (neg_x L)
           (fgt ((get_mesh_y env j - c L) / ratio L)%F (get_mesh_x env i)).

(** Absolute value. *)
Definition fabs (a : float) : float :=
  match a with
  | Fin q => Fin (Qabs q)
  | Inf _ => Inf false
  | NaN => NaN
  end.

(** The sub-move [p] of a move from [s] to [e], carrying the mesh
    correction [corr], has E and Z interpolated linearly along the dominant
    axis: the axis of X and Y with the larger absolute travel, Y on a tie.
    E is the start E plus the distance made on that axis times the E rate
    (E travel per unit of travel on the axis), Z likewise plus the
    correction.  When the E rate is infinite, E and Z are those of [e].
    A NaN correction counts as zero. *)
Definition follows_dominant_axis (s e p : xyze_pos_t) (corr : float) : Prop :=
  let travel_x := (pos_x e - pos_x s)%F in
  let travel_y := (pos_y e - pos_y s)%F in
  let along_x := fgt (fabs travel_x) (fabs travel_y) in
  let travel := if along_x then travel_x else travel_y in
  let e_rate := ((pos_e e - pos_e s) / travel)%F in
  let z_rate := ((pos_z e - pos_z s) / travel)%F in
  let made :=
    if along_x then (pos_x p - pos_x s)%F else (pos_y p - pos_y s)%F in
  let z0 := if isnan corr then Fin 0 else corr in
  if isinf e_rate
  then pos_e p = pos_e e /\ pos_z p = (pos_z e + z0)%F
  else pos_e p = (pos_e s + made * e_rate)%F /\
       pos_z p = (pos_z s + made * z_rate + z0)%F.

(** A sub-move at a mesh-line crossing: it lies on a horizontal mesh line
    and carries the edge correction for its X there, or on a vertical mesh
    line with the edge correction for its Y, in both cases scaled by the
    fade factor at the destination Z. *)
Definition crossing_as_claimed (env : ubl_env) (s e p : xyze_pos_t) : Prop :=
  let fade := fade_scaling_factor_for_z env (pos_z e) in
  (exists i j,
     pos_y p = get_mesh_y env j /\
     follows_dominant_axis s e p
       (z_correction_for_x_on_horizontal_mesh_line env (pos_x p) i j * fade)%F)
  \/
  (exists i j,
     pos_x p = get_mesh_x env i /\
     follows_dominant_axis s e p
       (z_correction_for_y_on_vertical_mesh_line env (pos_y p) i j * fade)%F).

(** The Z of the final move to [e]: the constant raise off the mesh when
    one is configured; otherwise the destination Z plus the fade factor
    times the bilinear interpolation of the corner samples of the
    destination's cell at the destination, and the destination Z unchanged
    when that product is NaN. *)
Definition corrected_destination_z (env : ubl_env) (e : xyze_pos_t) : float :=
  let z0 := (cell_bilinear env e (cell_indexes env e)
             * fade_scaling_factor_for_z env (pos_z e))%F in
  let interpolated := if isnan z0 then pos_z e else (pos_z e + z0)%F in
  match UBL_Z_RAISE_WHEN_OFF_MESH env with
  | Some raise =>
      if cell_index_x_valid env (pos_x e) && cell_index_y_valid env (pos_y e)
      then interpolated else (pos_z e + raise)%F
  | None => interpolated
  end.

(** The final move to [e]. *)
Definition final_as_claimed (env : ubl_env) (e p : xyze_pos_t) : Prop :=
  pos_x p = pos_x e /\ pos_y p = pos_y e /\ pos_e p = pos_e e /\
  pos_z p = corrected_destination_z env e.

(** The shapes in which the loops emit a crossing sub-move, with the edge
    correction they look up. *)
Definition emitted_at_crossing (env : ubl_env) (L : line_locals)
    (p : xyze_pos_t) : Prop :=
  let fade := fade_scaling_factor_for_z env (pos_z (end_ L)) in
  (exists i j x,
     p = crossing_move L x (get_mesh_y env j)
           (nan_to_zero
              (z_correction_for_x_on_horizontal_mesh_line env x i j * fade)%F))
  \/
  (exists i j y,
     p = crossing_move L (get_mesh_x env i) y
           (nan_to_zero
              (z_correction_for_y_on_vertical_mesh_line env y i j * fade)%F)).

(** Two values that are the same number, the same infinity, or both NaN. *)
Definition same_value (a b : float) : Prop :=
  match a, b with
  | Fin p, Fin q => (p == q)%Q
  | Inf s, Inf t => s = t
  | NaN, NaN => True
  | _, _ => False
  end.







(** The same machine with another planner behind [buffer_segment]. *)
Definition with_buffer_segment (env : ubl_env)
    (sink : list xyze_pos_t -> xyze_pos_t -> bool) : ubl_env :=
  mk_env (MESH_MIN_X env) (MESH_MIN_Y env) (MESH_X_DIST env) (MESH_Y_DIST env)
    (GRID_MAX_CELLS_X env) (GRID_MAX_CELLS_Y env)
    (UBL_Z_RAISE_WHEN_OFF_MESH env) (DELTA_SEGMENT_MIN_LENGTH env)
    (segments_per_second env) (ENABLE_LEVELING_FADE_HEIGHT env)
    (z_values env) (fade_scaling_factor_for_z env)
    (leveling_active env) (leveling_active_at_z env)
    (apply_modifiers env) sink (position_is_reachable env)
    (z_correction_for_x_on_horizontal_mesh_line env)
    (z_correction_for_y_on_vertical_mesh_line env) (SQRT env).

(** The same machine with other mesh heights: mesh table, edge
    corrections, fade factor and off-mesh raise. *)
Definition with_mesh_heights (env : ubl_env) (zv : Z -> Z -> float)
    (on_x on_y : float -> Z -> Z -> float) (fade : float -> float)
    (raise : option float) : ubl_env :=
  mk_env (MESH_MIN_X env) (MESH_MIN_Y env) (MESH_X_DIST env) (MESH_Y_DIST env)
    (GRID_MAX_CELLS_X env) (GRID_MAX_CELLS_Y env)
    raise (DELTA_SEGMENT_MIN_LENGTH env)
    (segments_per_second env) (ENABLE_LEVELING_FADE_HEIGHT env)
    zv fade
    (leveling_active env) (leveling_active_at_z env)
    (apply_modifiers env) (buffer_segment env) (position_is_reachable env)
    on_x on_y (SQRT env).

(** A pose without its Z. *)
Definition xye (p : xyze_pos_t) : float * float * float :=
  (pos_x p, pos_y p, pos_e p).

(** The planner's answer does not depend on the Z of the sub-moves. *)
Definition sink_ignores_z (sink : list xyze_pos_t -> xyze_pos_t -> bool)
  : Prop :=
  forall (h h' : list xyze_pos_t) (p p' : xyze_pos_t),
    map xye h = map xye h' -> xye p = xye p' -> sink h p = sink h' p'.

(** What a run of the splitter shows without the Z of its sub-moves. *)
Definition without_z (r : option (list xyze_pos_t * xyze_pos_t))
  : option (list (float * float * float) * xyze_pos_t) :=
  match r with
  | Some (moves, position) => Some (map xye moves, position)
  | None => None
  end.

(** * Properties *)

(** ** Arithmetic of the model *)

Lemma Qzero_bool_true (q : Q) : Qzero_bool q = true <-> (q == 0)%Q.
Proof.
  unfold Qzero_bool. rewrite Qeq_alt.
  destruct (q ?= 0)%Q; split; congruence.
Qed.

Lemma Qzero_bool_false (q : Q) : Qzero_bool q = false <-> ~ (q == 0)%Q.
Proof.
  rewrite <- Qzero_bool_true. destruct (Qzero_bool q); split; congruence.
Qed.

Lemma isfinite_Fin (a : float) : isfinite a = true -> exists q, a = Fin q.
Proof. destruct a; simpl; try discriminate. eauto. Qed.

Lemma isnan_false_add (a b : float) :
  isfinite a = true -> isnan b = false -> isnan (a + b)%F = false.
Proof. destruct a, b; simpl; congruence. Qed.

Lemma nan_absorbs_add_l (b : float) : (NaN + b)%F = NaN.
Proof. reflexivity. Qed.

Lemma nan_absorbs_add_r (a : float) : (a + NaN)%F = NaN.
Proof. destruct a; reflexivity. Qed.

Lemma nan_absorbs_sub_l (b : float) : (NaN - b)%F = NaN.
Proof. reflexivity. Qed.

Lemma nan_absorbs_sub_r (a : float) : (a - NaN)%F = NaN.
Proof. destruct a; reflexivity. Qed.

Lemma nan_absorbs_mul_l (b : float) : (NaN * b)%F = NaN.
Proof. reflexivity. Qed.

Lemma nan_absorbs_mul_r (a : float) : (a * NaN)%F = NaN.
Proof. destruct a; reflexivity. Qed.

Lemma zero_if_nan_idem (z : float) : zero_if_nan (zero_if_nan z) = zero_if_nan z.
Proof. destruct z; reflexivity. Qed.

Lemma nan_to_zero_not_nan (z : float) : isnan (nan_to_zero z) = false.
Proof. destruct z; reflexivity. Qed.

Lemma xy_int8_eqb_eq (a b : xy_int8_t) : xy_int8_eqb a b = true <-> a = b.
Proof.
  destruct a as [ax ay], b as [bx b_y]; unfold xy_int8_eqb; simpl.
  rewrite andb_true_iff, !Z.eqb_eq. split.
  - intros [-> ->]; reflexivity.
  - intros H; injection H; auto.
Qed.

(** ** The example machine *)



(** ** The same-cell fast path *)

(** The pose [FINAL_MOVE] emits keeps X, Y and E of its argument. *)
Lemma FINAL_MOVE_xye (env : ubl_env) (e : xyze_pos_t) (i : xy_int8_t) :
  pos_x (FINAL_MOVE env e i) = pos_x e /\
  pos_y (FINAL_MOVE env e i) = pos_y e /\
  pos_e (FINAL_MOVE env e i) = pos_e e.
Proof.
  unfold FINAL_MOVE.
  destruct (UBL_Z_RAISE_WHEN_OFF_MESH env);
    repeat match goal with |- context [if ?b then _ else _] => destruct b end;
    simpl; auto.
Qed.

(** Its Z when the constant off-mesh raise does not apply. *)
Lemma FINAL_MOVE_z_on_mesh (env : ubl_env) (e : xyze_pos_t) (i : xy_int8_t) :
  UBL_Z_RAISE_WHEN_OFF_MESH env = None \/
  (cell_index_x_valid env (pos_x e) && cell_index_y_valid env (pos_y e)) = true ->
  pos_z (FINAL_MOVE env e i) =
    if isnan (final_z0 env e i) then pos_z e
    else (pos_z e + final_z0 env e i)%F.
Proof.
  intros H. unfold FINAL_MOVE.
  assert (Hi : pos_z (if negb (isnan (final_z0 env e i))
                      then set_z e (pos_z e + final_z0 env e i)%F else e)
               = if isnan (final_z0 env e i) then pos_z e
                 else (pos_z e + final_z0 env e i)%F)
    by (destruct (isnan (final_z0 env e i)); reflexivity).
  destruct (UBL_Z_RAISE_WHEN_OFF_MESH env) as [r|]; [|exact Hi].
  destruct H as [H|H]; [discriminate|].
  apply andb_true_iff in H. destruct H as [-> ->]. exact Hi.
Qed.

(** C1, as amended.  For start and destination in the same mesh cell the
    splitter emits exactly one sub-move and sets the current position to
    the destination.  The sub-move has X, Y and E of the destination (as
    [planner.apply_modifiers] returns it); unless the constant off-mesh
    raise applies, its Z is the destination Z plus the fade factor times
    the bilinear interpolation of the four corner samples when that product
    is a number, and the destination Z unchanged when it is NaN. *)
Theorem same_cell_single_corrected_move
    (env : ubl_env) (current_position destination : xyze_pos_t) :
  let L := compute_locals env current_position destination in
  istart L = iend L ->
  exists p,
    line_to_destination_cartesian env current_position destination
      = Some ([p], destination) /\
    pos_x p = pos_x (end_ L) /\ pos_y p = pos_y (end_ L) /\
    pos_e p = pos_e (end_ L) /\
    (UBL_Z_RAISE_WHEN_OFF_MESH env = None \/
     (cell_index_x_valid env (pos_x (end_ L))
      && cell_index_y_valid env (pos_y (end_ L))) = true ->
     pos_z p =
       if isnan (final_z0 env (end_ L) (iend L)) then pos_z (end_ L)
       else (pos_z (end_ L) + final_z0 env (end_ L) (iend L))%F).
Proof.
  intros L Hcell.
  exists (FINAL_MOVE env (end_ L) (iend L)).
  split.
  - unfold line_to_destination_cartesian. fold L.
    apply xy_int8_eqb_eq in Hcell. rewrite Hcell. reflexivity.
  - destruct (FINAL_MOVE_xye env (end_ L) (iend L)) as (Hx & Hy & He).
    repeat split; auto. apply FINAL_MOVE_z_on_mesh.
Qed.

Lemma same_cell_single_corrected_move_witness :
  let m := Example.machine Example.bump Example.accept_all Example.anywhere in
  exists p,
    line_to_destination_cartesian m (Example.at_xyz 40 40 0)
        (Example.at_xyz 45 45 0)
      = Some ([p], Example.at_xyz 45 45 0) /\
    pos_x p = Fin 45 /\ pos_y p = Fin 45 /\ pos_e p = Fin 0.
Proof.
  intros m.
  destruct (same_cell_single_corrected_move m (Example.at_xyz 40 40 0)
              (Example.at_xyz 45 45 0)) as (p & Hrun & Hx & Hy & He & _).
  - reflexivity.
  - exists p. repeat split; assumption.
Defined.

(** C1 as stated fails when a corner sample of the cell is undefined: the
    product of fade factor and bilinear interpolation is NaN, and the
    sub-move carries the destination Z unchanged (0 here), which is neither
    the destination Z plus that product nor the destination Z plus the
    product computed with 0 in place of the undefined sample (19/25). *)
Lemma same_cell_undefined_corner_counterexample :
  let m := Example.machine Example.holed Example.accept_all Example.anywhere in
  let m0 := Example.machine (zeroed Example.holed)
              Example.accept_all Example.anywhere in
  let cur := Example.at_xyz 10 10 0 in
  let dest := Example.at_xyz 20 20 0 in
  cell_indexes m cur = cell_indexes m dest /\
  line_to_destination_cartesian m cur dest
  = Some ([Example.at_xyz 20 20 0], dest) /\
  (pos_z dest + cell_bilinear m dest (cell_indexes m dest)
                * fade_scaling_factor_for_z m (pos_z dest))%F = NaN /\
  (pos_z dest + cell_bilinear m0 dest (cell_indexes m dest)
                * fade_scaling_factor_for_z m (pos_z dest))%F = Fin (19 # 25).
Proof.
  intros m m0 cur dest. repeat split; vm_compute; reflexivity.
Qed.

(** ** The fixed-length segmenter: count and termination *)

Lemma uint16_t_range (z : Z) : 0 <= uint16_t z < 65536.
Proof. unfold uint16_t. apply Z.mod_pos_bound. lia. Qed.

Lemma uint16_t_pred (s : Z) : 1 <= s < 65536 -> uint16_t (s - 1) = s - 1.
Proof. intros H. unfold uint16_t. apply Z.mod_small. lia. Qed.

Lemma NOMORE_range (a b : Z) :
  0 <= a < 65536 -> 0 <= b < 65536 -> 0 <= NOMORE a b < 65536.
Proof. unfold NOMORE. destruct (b <? a); lia. Qed.

Lemma NOLESS_one_range (a : Z) : 0 <= a < 65536 -> 1 <= NOLESS a 1 < 65536.
Proof. unfold NOLESS. destruct (a <? 1) eqn:E; [lia|]. apply Z.ltb_ge in E. lia. Qed.

Lemma segment_count_range (env : ubl_env) (total : xyze_pos_t) (fr : float) :
  1 <= segment_count env total fr < 65536.
Proof.
  unfold segment_count. apply NOLESS_one_range.
  destruct (segments_per_second env) as [sps|].
  - apply NOMORE_range; apply uint16_t_range.
  - apply uint16_t_range.
Qed.

Section SegmenterFacts.

Variable env : ubl_env.
Variables (destination diff : xyze_pos_t).
Variables (segment_xyz_mm fade_scaling_factor : float).

(** The plain loop emits one segment per increment and stops one short of
    the count. *)
Lemma plain_loop_spec (fuel : nat) :
  forall (s : Z) (j : nat) (raw0 : xyze_pos_t) (hist : list segment),
    1 <= s < 65536 -> (Z.to_nat s <= S fuel)%nat ->
    plain_loop diff segment_xyz_mm fuel s (raw_after diff j raw0) hist
    = Some (hist ++ map (fun i => mk_segment (raw_after diff (S i) raw0)
                                             segment_xyz_mm)
                        (seq j (Z.to_nat (s - 1)))).
Proof.
  induction fuel as [|fuel IH]; intros s j raw0 hist Hs Hfuel.
  - assert (s = 1) by lia. subst s. simpl.
    rewrite app_nil_r. reflexivity.
  - cbn [plain_loop]. rewrite uint16_t_pred by exact Hs.
    destruct (s - 1 =? 0) eqn:E.
    + apply Z.eqb_eq in E. rewrite E. simpl. rewrite app_nil_r. reflexivity.
    + apply Z.eqb_neq in E.
      change (pos_add (raw_after diff j raw0) diff)
        with (raw_after diff (S j) raw0).
      rewrite (IH (s - 1) (S j) raw0) by lia.
      rewrite <- app_assoc. f_equal.
      replace (Z.to_nat (s - 1)) with (S (Z.to_nat (s - 1 - 1))) by lia.
      reflexivity.
Qed.

End SegmenterFacts.

(** ** The fixed-length segmenter: what each segment is *)

Lemma set_z_restore (p : xyze_pos_t) (v : float) :
  set_z (set_z p v) (pos_z p) = p.
Proof. destruct p; reflexivity. Qed.

Section LeveledSegments.

Variable env : ubl_env.
Variables (destination diff : xyze_pos_t).
Variables (segment_xyz_mm fade_scaling_factor : float).

(** Total number of segments of the move, and the position of the first. *)
Variable n : nat.
Variable raw1 : xyze_pos_t.

Let lseg : nat -> segment :=
  leveled_segment env destination diff segment_xyz_mm fade_scaling_factor
                  n raw1.

Lemma segment_loop_spec (fuel : nat) :
  forall (s : Z) (j : nat) (hist : list segment),
    1 <= s < 65536 -> (Z.to_nat s <= fuel)%nat -> (j + Z.to_nat s = n)%nat ->
    match segment_loop env destination diff segment_xyz_mm fade_scaling_factor
            fuel s (raw_after diff j raw1) (coeffs_at env diff j raw1) hist with
    | Some (Returned h) =>
        h = hist ++ map lseg (seq j (Z.to_nat s))
    | Some (NextCell s' raw' h) =>
        1 <= s' < s /\
        raw' = raw_after diff (n - Z.to_nat s') raw1 /\
        h = hist ++ map lseg (seq j (n - Z.to_nat s' - j)) /\
        coeffs_at env diff (n - Z.to_nat s') raw1
        = cell_setup env (segment_icell env raw') raw' diff
    | None => False
    end.
Proof.
  induction fuel as [|fuel IH]; intros s j hist Hs Hfuel Hn; [lia|].
  cbn [segment_loop]. rewrite uint16_t_pred by exact Hs.
  destruct (s - 1 =? 0) eqn:E.
  - apply Z.eqb_eq in E. assert (s = 1) by lia. subst s.
    change (Z.to_nat 1) with 1%nat. cbn [seq map].
    unfold lseg, leveled_segment.
    replace (S j =? n)%nat with true by (symmetry; apply Nat.eqb_eq; lia).
    reflexivity.
  - apply Z.eqb_neq in E.
    rewrite set_z_restore.
    change (pos_add (raw_after diff j raw1) diff)
      with (raw_after diff (S j) raw1).
    assert (Hseg : mk_segment
              (set_z (raw_after diff j raw1)
                 (pos_z (raw_after diff j raw1)
                  + z_cxcy_of env fade_scaling_factor
                      (coeffs_at env diff j raw1))%F) segment_xyz_mm
            = lseg j).
    { unfold lseg, leveled_segment.
      replace (S j =? n)%nat with false
        by (symmetry; apply Nat.eqb_neq; lia).
      reflexivity. }
    rewrite Hseg.
    destruct (left_cell env (advance_coeffs (coeffs_at env diff j raw1) diff))
      eqn:Hleft.
    + replace (n - Z.to_nat (s - 1))%nat with (S j) by lia.
      repeat split; try lia.
      * replace (S j - j)%nat with 1%nat by lia. reflexivity.
      * cbn [coeffs_at]. rewrite Hleft. reflexivity.
    + assert (Hk : advance_coeffs (coeffs_at env diff j raw1) diff
                   = coeffs_at env diff (S j) raw1)
        by (cbn [coeffs_at]; rewrite Hleft; reflexivity).
      rewrite Hk.
      specialize (IH (s - 1) (S j) (hist ++ [lseg j])).
      destruct (segment_loop env destination diff segment_xyz_mm
                  fade_scaling_factor fuel (s - 1) (raw_after diff (S j) raw1)
                  (coeffs_at env diff (S j) raw1)
                  (hist ++ [lseg j])) as [[h|s' raw' h]|];
        specialize (IH ltac:(lia) ltac:(lia) ltac:(lia)).
      * rewrite IH, <- app_assoc. f_equal.
        replace (Z.to_nat s) with (S (Z.to_nat (s - 1))) by lia.
        reflexivity.
      * destruct IH as (Hs' & Hraw & Hh & Hc).
        repeat split; try lia; try assumption.
        rewrite Hh, <- app_assoc. f_equal.
        replace (n - Z.to_nat s' - j)%nat
          with (S (n - Z.to_nat s' - S j)) by lia.
        reflexivity.
      * exact IH.
Qed.

Lemma cell_loop_spec (fuel : nat) :
  forall (s : Z) (j : nat) (hist : list segment),
    1 <= s < 65536 -> (Z.to_nat s <= fuel)%nat -> (j + Z.to_nat s = n)%nat ->
    coeffs_at env diff j raw1
    = cell_setup env (segment_icell env (raw_after diff j raw1))
                 (raw_after diff j raw1) diff ->
    cell_loop env destination diff segment_xyz_mm fade_scaling_factor
              fuel s (raw_after diff j raw1) hist
    = Some (hist ++ map lseg (seq j (Z.to_nat s))).
Proof.
  induction fuel as [|fuel IH]; intros s j hist Hs Hfuel Hn Hc; [lia|].
  cbn [cell_loop]. rewrite <- Hc.
  pose proof (segment_loop_spec (S fuel) s j hist Hs Hfuel Hn) as Hin.
  destruct (segment_loop env destination diff segment_xyz_mm
              fade_scaling_factor (S fuel) s (raw_after diff j raw1)
              (coeffs_at env diff j raw1) hist) as [[h|s' raw' h]|].
  - rewrite Hin. reflexivity.
  - destruct Hin as (Hs' & Hraw & Hh & Hc').
    subst raw' h.
    rewrite (IH s' (n - Z.to_nat s')%nat) by (try lia; exact Hc').
    rewrite <- app_assoc, <- map_app. do 2 f_equal.
    replace (Z.to_nat s) with ((n - Z.to_nat s' - j) + Z.to_nat s')%nat by lia.
    rewrite seq_app. do 2 f_equal. f_equal. lia.
  - contradiction.
Qed.

End LeveledSegments.

(** ** The splitter's loops *)

Lemma int8_t_small (z : Z) : -128 <= z <= 127 -> int8_t z = z.
Proof. intros H. unfold int8_t. rewrite Z.mod_small; lia. Qed.

Lemma int8_t_range (z : Z) : -128 <= int8_t z <= 127.
Proof. unfold int8_t. pose proof (Z.mod_pos_bound (z + 128) 256). lia. Qed.

(** Stepping an [int8_t] by one towards a representable target gets one
    step closer, wrap-around included. *)
Lemma wrap_step (t y s : Z) :
  -128 <= t <= 127 -> -128 <= y <= 127 -> s = 1 \/ s = -1 -> y <> t ->
  ((t - int8_t (y + s)) * s) mod 256 = ((t - y) * s) mod 256 - 1.
Proof.
  intros Ht Hy Hs Hne. unfold int8_t.
  destruct Hs; subst s; Z.to_euclidean_division_equations; lia.
Qed.

Lemma accepted_but_last_nil (env : ubl_env) (hist : list xyze_pos_t) :
  accepted_but_last env hist [].
Proof. intros h1 h2 p H. destruct h1; discriminate. Qed.

Lemma accepted_but_last_single (env : ubl_env) (hist : list xyze_pos_t)
    (p : xyze_pos_t) :
  accepted_but_last env hist [p].
Proof.
  intros h1 h2 q H Hne. destruct h1 as [|a h1]; simpl in H.
  - injection H as _ H. congruence.
  - injection H as _ H. destruct h1; discriminate.
Qed.

Lemma accepted_but_last_cons (env : ubl_env) (hist h : list xyze_pos_t)
    (p : xyze_pos_t) :
  buffer_segment env hist p = true ->
  accepted_but_last env (hist ++ [p]) h ->
  accepted_but_last env hist (p :: h).
Proof.
  intros Hp Hh h1 h2 q H Hne. destruct h1 as [|a h1]; simpl in H.
  - injection H as -> _. rewrite app_nil_r. exact Hp.
  - injection H as -> H.
    specialize (Hh h1 h2 q H Hne). rewrite <- app_assoc in Hh. exact Hh.
Qed.

Section SplitterLoops.

Variable env : ubl_env.
Variable L : line_locals.

Lemma vertical_loop_spec (fuel : nat) :
  forall (icell : xy_int8_t) (hist : list xyze_pos_t),
    -128 <= iy (iend L) + iy (ineg L) <= 127 ->
    -128 <= iy icell <= 127 ->
    iy (iadd L) = 1 \/ iy (iadd L) = -1 ->
    ((iy (iend L) + iy (ineg L) - iy icell) * iy (iadd L)) mod 256
      < Z.of_nat fuel ->
    exists h, vertical_loop env L fuel icell hist = Some (hist ++ h) /\
              Forall (on_y_line env L) h.
Proof.
  induction fuel as [|fuel IH]; intros icell hist Ht Hy Hs Hm.
  - pose proof (Z.mod_pos_bound
      ((iy (iend L) + iy (ineg L) - iy icell) * iy (iadd L)) 256). lia.
  - cbn [vertical_loop].
    destruct (iy icell =? iy (iend L) + iy (ineg L)) eqn:E.
    + exists []. rewrite app_nil_r. split; [reflexivity|constructor].
    + apply Z.eqb_neq in E. cbn [ix iy].
      pose proof (wrap_step _ _ _ Ht Hy Hs E) as Hstep.
      set (icell' := mk_xy_int8 (ix icell) (int8_t (iy icell + iy (iadd L)))).
      assert (Hy' : -128 <= iy icell' <= 127) by apply int8_t_range.
      assert (Hm' : ((iy (iend L) + iy (ineg L) - iy icell') * iy (iadd L))
                      mod 256 < Z.of_nat fuel) by (cbn [icell' iy]; lia).
      match goal with
      | |- context [if fneb ?a ?b then _ else _] => destruct (fneb a b)
      end.
      * match goal with
        | |- context [vertical_loop env L fuel icell' (hist ++ [?d])] =>
            destruct (IH icell' (hist ++ [d]) Ht Hy' Hs Hm') as (h & Hrun & Hall);
            exists (d :: h)
        end.
        split.
        -- rewrite Hrun, <- app_assoc. reflexivity.
        -- constructor; [|exact Hall].
           eexists (int8_t (iy icell + iy (iadd L))), _. reflexivity.
      * exact (IH icell' hist Ht Hy' Hs Hm').
Qed.

Lemma horizontal_loop_spec (fuel : nat) :
  forall (icell : xy_int8_t) (hist : list xyze_pos_t),
    -128 <= ix (iend L) + ix (ineg L) <= 127 ->
    -128 <= ix icell <= 127 ->
    ix (iadd L) = 1 \/ ix (iadd L) = -1 ->
    ((ix (iend L) + ix (ineg L) - ix icell) * ix (iadd L)) mod 256
      < Z.of_nat fuel ->
    exists h, horizontal_loop env L fuel icell hist = Some (hist ++ h) /\
              Forall (on_x_line env L) h /\
              accepted_but_last env hist h.
Proof.
  induction fuel as [|fuel IH]; intros icell hist Ht Hx Hs Hm.
  - pose proof (Z.mod_pos_bound
      ((ix (iend L) + ix (ineg L) - ix icell) * ix (iadd L)) 256). lia.
  - cbn [horizontal_loop].
    destruct (ix icell =? ix (iend L) + ix (ineg L)) eqn:E.
    + exists []. rewrite app_nil_r.
      split; [reflexivity|]. split; [constructor|apply accepted_but_last_nil].
    + apply Z.eqb_neq in E. cbn [ix iy].
      pose proof (wrap_step _ _ _ Ht Hx Hs E) as Hstep.
      set (icell' := mk_xy_int8 (int8_t (ix icell + ix (iadd L))) (iy icell)).
      assert (Hx' : -128 <= ix icell' <= 127) by apply int8_t_range.
      assert (Hm' : ((ix (iend L) + ix (ineg L) - ix icell') * ix (iadd L))
                      mod 256 < Z.of_nat fuel) by (cbn [icell' ix]; lia).
      match goal with
      | |- context [if fneb ?a ?b then _ else _] => destruct (fneb a b)
      end.
      * match goal with
        | |- context [buffer_segment env hist ?d] =>
            set (dest := d);
            assert (Hshape : on_x_line env L dest)
              by (eexists (int8_t (ix icell + ix (iadd L))), _; reflexivity);
            destruct (buffer_segment env hist dest) eqn:Hacc
        end; cbn [negb].
        -- destruct (IH icell' (hist ++ [dest]) Ht Hx' Hs Hm')
             as (h & Hrun & Hall & Hacc').
           exists (dest :: h). split; [|split].
           ++ rewrite Hrun, <- app_assoc. reflexivity.
           ++ constructor; assumption.
           ++ apply accepted_but_last_cons; assumption.
        -- exists [dest]. split; [reflexivity|]. split.
           ++ constructor; [assumption|constructor].
           ++ apply accepted_but_last_single.
      * exact (IH icell' hist Ht Hx' Hs Hm').
Qed.

Lemma general_loop_spec (fuel : nat) :
  forall (icell cnt : xy_int8_t) (hist : list xyze_pos_t),
    0 <= ix cnt <= 127 -> 0 <= iy cnt <= 127 ->
    ix cnt + iy cnt < Z.of_nat fuel ->
    exists h, general_loop env L fuel icell cnt hist = Some (hist ++ h) /\
              Forall (fun p => on_y_line_general env L p \/ on_x_line env L p) h /\
              accepted_but_last env hist h /\
              (Z.of_nat (length h) <= ix cnt + iy cnt).
Proof.
  induction fuel as [|fuel IH]; intros icell cnt hist Hcx Hcy Hm; [lia|].
  cbn [general_loop].
  destruct ((ix cnt =? 0) && (iy cnt =? 0)) eqn:E.
  - exists []. rewrite app_nil_r. split; [reflexivity|].
    split; [constructor|]. split; [apply accepted_but_last_nil|simpl; lia].
  - apply andb_false_iff in E. rewrite !Z.eqb_neq in E. cbn [ix iy].
    match goal with
    | |- context [if Bool.eqb ?a ?b then _ else _] => destruct (Bool.eqb a b)
    end.
    + match goal with
      | |- context [buffer_segment env hist ?d] =>
          set (dest := d);
          assert (Hshape : on_y_line_general env L dest \/ on_x_line env L dest)
            by (left; eexists (iy icell + iy (iadd L)), _; reflexivity);
          destruct (buffer_segment env hist dest) eqn:Hacc
      end; cbn [negb].
      * rewrite (int8_t_small (iy cnt - 1)) by lia.
        destruct ((ix cnt <? 0) || (iy cnt - 1 <? 0)) eqn:Hneg.
        -- exists [dest]. split; [reflexivity|]. split.
           ++ constructor; [assumption|constructor].
           ++ split; [apply accepted_but_last_single|simpl; lia].
        -- apply orb_false_iff in Hneg. rewrite !Z.ltb_ge in Hneg.
           match goal with
           | |- context [general_loop env L fuel ?ic ?cn (hist ++ [dest])] =>
               destruct (IH ic cn (hist ++ [dest]))
                 as (h & Hrun & Hall & Hacc' & Hlen);
               cbn [ix iy]; try lia
           end.
           exists (dest :: h). split; [|split; [|split]].
           ++ rewrite Hrun, <- app_assoc. reflexivity.
           ++ constructor; assumption.
           ++ apply accepted_but_last_cons; assumption.
           ++ cbn [ix iy length] in *. lia.
      * exists [dest]. split; [reflexivity|]. split.
        -- constructor; [assumption|constructor].
        -- split; [apply accepted_but_last_single|simpl; lia].
    + match goal with
      | |- context [buffer_segment env hist ?d] =>
          set (dest := d);
          assert (Hshape : on_y_line_general env L dest \/ on_x_line env L dest)
            by (right; eexists (ix icell + ix (iadd L)), _; reflexivity);
          destruct (buffer_segment env hist dest) eqn:Hacc
      end; cbn [negb].
      * rewrite (int8_t_small (ix cnt - 1)) by lia.
        destruct ((ix cnt - 1 <? 0) || (iy cnt <? 0)) eqn:Hneg.
        -- exists [dest]. split; [reflexivity|]. split.
           ++ constructor; [assumption|constructor].
           ++ split; [apply accepted_but_last_single|simpl; lia].
        -- apply orb_false_iff in Hneg. rewrite !Z.ltb_ge in Hneg.
           match goal with
           | |- context [general_loop env L fuel ?ic ?cn (hist ++ [dest])] =>
               destruct (IH ic cn (hist ++ [dest]))
                 as (h & Hrun & Hall & Hacc' & Hlen);
               cbn [ix iy]; try lia
           end.
           exists (dest :: h). split; [|split; [|split]].
           ++ rewrite Hrun, <- app_assoc. reflexivity.
           ++ constructor; assumption.
           ++ apply accepted_but_last_cons; assumption.
           ++ cbn [ix iy length] in *. lia.
      * exists [dest]. split; [reflexivity|]. split.
        -- constructor; [assumption|constructor].
        -- split; [apply accepted_but_last_single|simpl; lia].
Qed.

End SplitterLoops.

(** ** The splitter as a whole *)

Lemma constrain_range (v hi : Z) : 0 <= hi -> 0 <= constrain v 0 hi <= hi.
Proof.
  intros H. unfold constrain.
  destruct (v <? 0) eqn:E1; [lia|]. apply Z.ltb_ge in E1.
  destruct (hi <? v) eqn:E2; [lia|]. apply Z.ltb_ge in E2. lia.
Qed.

Lemma cell_indexes_range (env : ubl_env) (p : xyze_pos_t) :
  grid_fits env ->
  0 <= ix (cell_indexes env p) <= 126 /\ 0 <= iy (cell_indexes env p) <= 126.
Proof.
  intros [Hx Hy]. unfold cell_indexes, cell_index_x, cell_index_y. cbn [ix iy].
  pose proof (constrain_range (cell_index_x_raw env (pos_x p))
                (GRID_MAX_CELLS_X env - 1)).
  pose proof (constrain_range (cell_index_y_raw env (pos_y p))
                (GRID_MAX_CELLS_Y env - 1)).
  lia.
Qed.

Lemma feqb_true_sub (a b m : float) :
  feqb a b = true -> (a - m)%F = (b - m)%F.
Proof.
  unfold feqb. destruct a as [p|s|], b as [q|t|]; cbn [fcompare];
    try discriminate.
  - destruct (p ?= q)%Q eqn:E; try discriminate. intros _.
    apply Qeq_alt in E. destruct m; cbn [fsub]; try reflexivity.
    f_equal. apply Qred_complete. rewrite E. reflexivity.
  - destruct t; discriminate.
  - destruct s; discriminate.
  - destruct (Bool.eqb s t) eqn:E.
    + apply eqb_prop in E. subst t. reflexivity.
    + destruct s; discriminate.
Qed.

(** Poses with numerically equal X and Y lie in the same cell. *)
Lemma xy_neb_false_same_cell (env : ubl_env) (p q : xyze_pos_t) :
  xy_neb p q = false -> cell_indexes env p = cell_indexes env q.
Proof.
  unfold xy_neb, fneb. intros H. apply orb_false_iff in H.
  destruct H as [Hx Hy]. apply negb_false_iff in Hx, Hy.
  unfold cell_indexes, cell_index_x, cell_index_y,
    cell_index_x_raw, cell_index_y_raw.
  rewrite (feqb_true_sub _ _ (Fin (MESH_MIN_X env)) Hx).
  rewrite (feqb_true_sub _ _ (Fin (MESH_MIN_Y env)) Hy).
  reflexivity.
Qed.

Lemma compute_locals_ok (env : ubl_env) (cur dest : xyze_pos_t) :
  grid_fits env ->
  istart (compute_locals env cur dest) <> iend (compute_locals env cur dest) ->
  locals_ok (compute_locals env cur dest).
Proof.
  intros Hfit Hne. constructor; cbn [compute_locals istart iend ineg iadd ix iy].
  - apply cell_indexes_range, Hfit.
  - apply cell_indexes_range, Hfit.
  - split; match goal with |- context [Z_of_bool ?b] => destruct b end;
      simpl; auto.
  - destruct (ix (cell_indexes env (apply_modifiers env dest))
              =? ix (cell_indexes env (apply_modifiers env cur))) eqn:E.
    + left. apply Z.eqb_eq in E. auto.
    + right. apply Z.eqb_neq in E. split; [|exact E].
      match goal with |- context [if ?b then _ else _] => destruct b end;
        vm_compute; auto.
  - destruct (iy (cell_indexes env (apply_modifiers env dest))
              =? iy (cell_indexes env (apply_modifiers env cur))) eqn:E.
    + left. apply Z.eqb_eq in E. auto.
    + right. apply Z.eqb_neq in E. split; [|exact E].
      match goal with |- context [if ?b then _ else _] => destruct b end;
        vm_compute; auto.
  - exact Hne.
Qed.

Section SplitterRun.

Variable env : ubl_env.

Lemma crossing_moves_spec (L : line_locals) :
  locals_ok L ->
  exists h, crossing_moves env L = Some h /\ crossing_shape env L h.
Proof.
  intros [Hs He Hn Hax Hay Hd]. unfold crossing_moves, crossing_shape.
  destruct (ix (iadd L) =? 0) eqn:Ex.
  - apply Z.eqb_eq in Ex.
    assert (Hyadd : iy (iadd L) = 1 \/ iy (iadd L) = -1).
    { destruct Hay as [[_ Hy]|[Hy _]]; [|exact Hy].
      destruct Hax as [[_ Hx]|[Hx _]]; [|lia].
      exfalso. apply Hd. destruct (istart L), (iend L); cbn [ix iy] in *.
      congruence. }
    destruct (vertical_loop_spec env L 256
                (mk_xy_int8 (ix (istart L))
                            (int8_t (iy (istart L) + iy (ineg L)))) [])
      as (h & Hrun & Hall);
      [ cbn [ix iy];
        first [ lia | apply int8_t_range | exact Hyadd
              | change (Z.of_nat 256) with 256; apply Z.mod_pos_bound; lia ] ..
      | ].
    exists h. split; [exact Hrun|]. left. auto.
  - apply Z.eqb_neq in Ex.
    assert (Hxadd : ix (iadd L) = 1 \/ ix (iadd L) = -1)
      by (destruct Hax as [[Hx _]|[Hx _]]; [lia|exact Hx]).
    destruct (iy (iadd L) =? 0) eqn:Ey.
    + apply Z.eqb_eq in Ey.
      destruct (horizontal_loop_spec env L 256
                  (mk_xy_int8 (int8_t (ix (istart L) + ix (ineg L)))
                              (iy (istart L))) [])
        as (h & Hrun & Hall & Hacc);
        [ cbn [ix iy];
          first [ lia | apply int8_t_range | exact Hxadd
                | change (Z.of_nat 256) with 256; apply Z.mod_pos_bound; lia ] ..
        | ].
      exists h. split; [exact Hrun|]. right; left. auto.
    + apply Z.eqb_neq in Ey. cbn [ix iy].
      rewrite (int8_t_small (ix (istart L) - ix (iend L))) by lia.
      rewrite (int8_t_small (iy (istart L) - iy (iend L))) by lia.
      rewrite (int8_t_small (Z.abs (ix (istart L) - ix (iend L)))) by lia.
      rewrite (int8_t_small (Z.abs (iy (istart L) - iy (iend L)))) by lia.
      match goal with
      | |- context [general_loop env L ?f ?ic ?cn []] =>
          destruct (general_loop_spec env L f ic cn [])
            as (h & Hrun & Hall & Hacc & Hlen); [ cbn [ix iy]; lia .. | ]
      end.
      exists h. split; [exact Hrun|]. right; right.
      cbn [ix iy] in Hlen. auto.
Qed.

(** The splitter always returns when the mesh fits [int8_t] indices: it
    emits the crossing sub-moves of its loop, then, unless the current
    position already has the X and Y of the destination, the final move;
    and it sets the current position to the destination. *)
Lemma line_to_destination_cartesian_spec (cur dest : xyze_pos_t) :
  grid_fits env ->
  let L := compute_locals env cur dest in
  (istart L = iend L /\
   line_to_destination_cartesian env cur dest
   = Some ([FINAL_MOVE env (end_ L) (iend L)], dest)) \/
  (istart L <> iend L /\
   exists h, crossing_shape env L h /\
     line_to_destination_cartesian env cur dest
     = Some (if xy_neb cur (end_ L)
             then h ++ [FINAL_MOVE env (end_ L) (iend L)] else h, dest)).
Proof.
  intros Hfit L. unfold line_to_destination_cartesian. fold L.
  destruct (xy_int8_eqb (istart L) (iend L)) eqn:E.
  - left. apply xy_int8_eqb_eq in E. auto.
  - right.
    assert (Hne : istart L <> iend L).
    { intros H. apply xy_int8_eqb_eq in H. congruence. }
    split; [exact Hne|].
    destruct (crossing_moves_spec L (compute_locals_ok env cur dest Hfit Hne))
      as (h & Hrun & Hshape).
    exists h. split; [exact Hshape|]. rewrite Hrun.
    destruct (xy_neb cur (end_ L)); reflexivity.
Qed.

End SplitterRun.

(** ** The segmenter as a whole *)

Lemma raw_after_shift (diff : xyze_pos_t) (i : nat) (cur : xyze_pos_t) :
  raw_after diff i (pos_add cur diff) = raw_after diff (S i) cur.
Proof.
  induction i as [|i IH]; [reflexivity|].
  cbn [raw_after] in *. rewrite IH. reflexivity.
Qed.

(** The segments of a reachable move: without leveling, the points of the
    uncorrected path and then the destination; with leveling, those same
    points, each with the mesh height of its segment added to Z. *)
Lemma line_to_destination_segmented_spec
    (env : ubl_env) (cur dest : xyze_pos_t) (fr : float) :
  position_is_reachable env dest = true ->
  let n := Z.to_nat (segmented_segments env cur dest fr) in
  let diff := segmented_diff env cur dest fr in
  let mm := segmented_mm env cur dest fr in
  line_to_destination_segmented env cur dest fr
  = Some (false,
          if negb (leveling_active env)
             || negb (leveling_active_at_z env (pos_z dest))
          then map (fun i => mk_segment (raw_after diff (S i) cur) mm)
                   (seq 0 (n - 1)) ++ [mk_segment dest mm]
          else map (leveled_segment env dest diff mm
                      (fade_scaling_factor_for_z env (pos_z dest))
                      n (pos_add cur diff))
                   (seq 0 n)).
Proof.
  intros Hreach n diff mm.
  pose proof (segment_count_range env (pos_sub dest cur) fr) as Hrange.
  unfold line_to_destination_segmented. rewrite Hreach. cbn [negb].
  fold (segmented_segments env cur dest fr).
  fold (segmented_diff env cur dest fr). fold diff.
  fold (segmented_mm env cur dest fr). fold mm.
  fold (segmented_segments env cur dest fr) in Hrange. fold n.
  destruct (negb (leveling_active env)
            || negb (leveling_active_at_z env (pos_z dest))).
  - pose proof (plain_loop_spec diff mm n (segmented_segments env cur dest fr)
                  0 cur [] Hrange ltac:(unfold n; lia)) as Hrun.
    cbn [raw_after app] in Hrun. rewrite Hrun.
    do 4 f_equal. f_equal. unfold n. lia.
  - pose proof (cell_loop_spec env dest diff mm
                  (fade_scaling_factor_for_z env (pos_z dest))
                  n (pos_add cur diff) n
                  (segmented_segments env cur dest fr) 0 [] Hrange
                  ltac:(unfold n; lia) ltac:(unfold n; lia) eq_refl) as Hrun.
    cbn [raw_after app] in Hrun. rewrite Hrun. reflexivity.
Qed.

Lemma nth_error_map_seq {A : Type} (f : nat -> A) (n : nat) :
  forall (a i : nat), (i < n)%nat ->
    nth_error (map f (seq a n)) i = Some (f (a + i)%nat).
Proof.
  induction n as [|n IH]; intros a i Hi; [lia|].
  destruct i as [|i]; cbn [seq map nth_error].
  - rewrite Nat.add_0_r. reflexivity.
  - rewrite IH by lia. f_equal. f_equal. lia.
Qed.


(** ** Unreachable destinations *)

(** C3, as amended.  For a destination that fails the reachability test
    the segmenter hands nothing to the planner and returns [true]: the
    flag says that the move was not made.  For a reachable destination it
    returns [false], after at least one segment. *)
Theorem unreachable_destination_returns_true
    (env : ubl_env) (cur dest : xyze_pos_t) (fr : float) :
  (position_is_reachable env dest = false ->
   line_to_destination_segmented env cur dest fr = Some (true, [])) /\
  (position_is_reachable env dest = true ->
   exists h, line_to_destination_segmented env cur dest fr = Some (false, h)
             /\ h <> []).
Proof.
  split; intros Hreach.
  - unfold line_to_destination_segmented. rewrite Hreach. reflexivity.
  - rewrite (line_to_destination_segmented_spec env cur dest fr Hreach).
    eexists. split; [reflexivity|].
    pose proof (segment_count_range env (pos_sub dest cur) fr) as Hrange.
    fold (segmented_segments env cur dest fr) in Hrange.
    destruct (negb (leveling_active env)
              || negb (leveling_active_at_z env (pos_z dest))).
    + intros H. apply app_eq_nil in H. destruct H as [_ H]. discriminate.
    + intros H. apply (f_equal (@length _)) in H.
      rewrite length_map, length_seq in H. simpl in H. lia.
Qed.

Lemma unreachable_destination_returns_true_witness :
  line_to_destination_segmented
    (Example.machine Example.bump Example.accept_all Example.nowhere)
    (Example.at_xyz 48 48 0) (Example.at_xyz 51 52 0) (Fin 10)
  = Some (true, []) /\
  exists h,
    line_to_destination_segmented
      (Example.machine Example.bump Example.accept_all Example.anywhere)
      (Example.at_xyz 48 48 0) (Example.at_xyz 51 52 0) (Fin 10)
    = Some (false, h) /\ h <> [].
Proof.
  split.
  - apply (unreachable_destination_returns_true
             (Example.machine Example.bump Example.accept_all Example.nowhere)).
    reflexivity.
  - apply (unreachable_destination_returns_true
             (Example.machine Example.bump Example.accept_all Example.anywhere)).
    reflexivity.
Defined.

(** C3 as stated fails: for an unreachable destination the returned flag
    is [true], not [false]. *)
Lemma unreachable_flag_counterexample :
  let m := Example.machine Example.bump Example.accept_all Example.nowhere in
  let dest := Example.at_xyz 51 52 0 in
  position_is_reachable m dest = false /\
  exists flag h,
    line_to_destination_segmented m (Example.at_xyz 48 48 0) dest (Fin 10)
    = Some (flag, h) /\ h = [] /\ flag <> false.
Proof.
  intros m dest. split; [reflexivity|].
  exists true, []. split; [reflexivity|]. split; [reflexivity|discriminate].
Qed.

(** ** Segment count *)

(** C5, as amended.  For every reachable move the segmenter emits exactly
    the computed number of segments, which is at least one, and announces
    each of them with the same length, the length of the move divided by
    that number; every segment but the last ends, in X and Y, a whole
    number of equal increments after the start.  (The number of segments is
    the rounded quotient of the XY length by DELTA_SEGMENT_MIN_LENGTH, so
    the threshold is not an upper bound of the segment length.) *)
Theorem segmenter_emits_counted_segments
    (env : ubl_env) (cur dest : xyze_pos_t) (fr : float) :
  position_is_reachable env dest = true ->
  let n := Z.to_nat (segmented_segments env cur dest fr) in
  exists h,
    line_to_destination_segmented env cur dest fr = Some (false, h) /\
    length h = n /\ (1 <= length h)%nat /\
    Forall (fun s => seg_mm s = segmented_mm env cur dest fr) h /\
    forall i, (S i < n)%nat ->
      exists s, nth_error h i = Some s /\
        pos_x (seg_target s)
        = pos_x (raw_after (segmented_diff env cur dest fr) (S i) cur) /\
        pos_y (seg_target s)
        = pos_y (raw_after (segmented_diff env cur dest fr) (S i) cur).
Proof.
  intros Hreach n.
  rewrite (line_to_destination_segmented_spec env cur dest fr Hreach).
  eexists. split; [reflexivity|].
  pose proof (segment_count_range env (pos_sub dest cur) fr) as Hrange.
  fold (segmented_segments env cur dest fr) in Hrange. fold n.
  assert (Hn : (1 <= n)%nat) by (unfold n; lia).
  destruct (negb (leveling_active env)
            || negb (leveling_active_at_z env (pos_z dest))).
  - rewrite length_app, length_map, length_seq. cbn [length].
    split; [lia|]. split; [lia|]. split.
    + apply Forall_app. split.
      * apply Forall_forall. intros s Hs. apply in_map_iff in Hs.
        destruct Hs as (i & <- & _). reflexivity.
      * constructor; [reflexivity|constructor].
    + intros i Hi. eexists. split.
      * rewrite nth_error_app1 by (rewrite length_map, length_seq; lia).
        apply nth_error_map_seq. lia.
      * split; reflexivity.
  - rewrite length_map, length_seq.
    split; [lia|]. split; [lia|]. split.
    + apply Forall_forall. intros s Hs. apply in_map_iff in Hs.
      destruct Hs as (i & <- & _). reflexivity.
    + intros i Hi. eexists. split.
      * apply nth_error_map_seq. lia.
      * unfold leveled_segment. cbn [Nat.add seg_target].
        replace (S i =? n)%nat with false
          by (symmetry; apply Nat.eqb_neq; lia).
        rewrite raw_after_shift. split; reflexivity.
Qed.

Lemma segmenter_emits_counted_segments_witness :
  exists h,
    line_to_destination_segmented
      (Example.machine Example.bump Example.accept_all Example.anywhere)
      (Example.at_xyz 48 48 0) (Example.at_xyz 51 52 0) (Fin 10)
    = Some (false, h) /\
    length h = 5%nat.
Proof.
  destruct (segmenter_emits_counted_segments
              (Example.machine Example.bump Example.accept_all Example.anywhere)
              (Example.at_xyz 48 48 0) (Example.at_xyz 51 52 0) (Fin 10))
    as (h & Hrun & Hlen & _).
  - reflexivity.
  - exists h. split; [exact Hrun|]. rewrite Hlen. reflexivity.
Defined.

(** C5 as stated fails: a move of XY length 12/5 with a minimum segment
    length of 1 is cut into two segments of length 6/5 each, so the first
    segment, which is not the final one, is longer than the threshold. *)
Lemma segment_longer_than_threshold_counterexample :
  let m := Example.machine Example.bump Example.accept_all Example.anywhere in
  DELTA_SEGMENT_MIN_LENGTH m = Fin 1 /\
  exists s1 s2,
    line_to_destination_segmented m (Example.at_xyz 0 0 0)
        (Example.at_xyz (12 # 5) 0 0) (Fin 10)
    = Some (false, [s1; s2]) /\
    pos_x (seg_target s1) = Fin (6 # 5) /\ pos_y (seg_target s1) = Fin 0 /\
    seg_mm s1 = Fin (6 # 5) /\
    fgt (seg_mm s1) (DELTA_SEGMENT_MIN_LENGTH m) = true.
Proof.
  intros m. split; [reflexivity|].
  exists (mk_segment (Example.at_xyz (6 # 5) 0 0) (Fin (6 # 5))),
         (mk_segment (Example.at_xyz (12 # 5) 0 0) (Fin (6 # 5))).
  split; [vm_compute; reflexivity|].
  repeat split; reflexivity.
Qed.

(** ** Corrections do not accumulate *)

Lemma segmented_locals_leveling_off
    (env : ubl_env) (cur dest : xyze_pos_t) (fr : float) :
  segmented_segments (with_leveling_off env) cur dest fr
  = segmented_segments env cur dest fr /\
  segmented_diff (with_leveling_off env) cur dest fr
  = segmented_diff env cur dest fr /\
  segmented_mm (with_leveling_off env) cur dest fr
  = segmented_mm env cur dest fr.
Proof. repeat split; reflexivity. Qed.

(** C10.  On a leveled move the segmenter emits, segment by segment, the
    pose that the same move emits with leveling off (the uncorrected path:
    the start advanced by whole increments, and the destination itself for
    the last segment) with the mesh height of that one segment added to its
    Z.  The height is computed from coefficients that depend on the
    uncorrected XY path only, so no correction enters the tracked position
    or a later segment. *)
Theorem mesh_correction_never_accumulates
    (env : ubl_env) (cur dest : xyze_pos_t) (fr : float) :
  position_is_reachable env dest = true ->
  leveling_active env = true ->
  leveling_active_at_z env (pos_z dest) = true ->
  let n := Z.to_nat (segmented_segments env cur dest fr) in
  let diff := segmented_diff env cur dest fr in
  let mm := segmented_mm env cur dest fr in
  let fade := fade_scaling_factor_for_z env (pos_z dest) in
  exists plain leveled,
    line_to_destination_segmented (with_leveling_off env) cur dest fr
    = Some (false, plain) /\
    line_to_destination_segmented env cur dest fr = Some (false, leveled) /\
    length plain = n /\ length leveled = n /\
    forall i, (i < n)%nat ->
      let b := if (S i =? n)%nat then dest else raw_after diff (S i) cur in
      nth_error plain i = Some (mk_segment b mm) /\
      nth_error leveled i
      = Some (mk_segment
                (set_z b (pos_z b
                          + z_cxcy_of env fade
                              (coeffs_at env diff i (pos_add cur diff)))%F)
                mm).
Proof.
  intros Hreach Hact Hactz n diff mm fade.
  pose proof (segment_count_range env (pos_sub dest cur) fr) as Hrange.
  fold (segmented_segments env cur dest fr) in Hrange.
  rewrite (line_to_destination_segmented_spec env cur dest fr Hreach).
  rewrite (line_to_destination_segmented_spec (with_leveling_off env)
             cur dest fr Hreach).
  destruct (segmented_locals_leveling_off env cur dest fr) as (-> & -> & ->).
  fold n diff mm. rewrite Hact, Hactz. cbn [negb orb leveling_active
    with_leveling_off position_is_reachable].
  eexists _, _. split; [reflexivity|]. split; [reflexivity|].
  split; [|split].
  - rewrite length_app, length_map, length_seq. cbn [length]. unfold n. lia.
  - rewrite length_map, length_seq. reflexivity.
  - intros i Hi. split.
    + destruct (S i =? n)%nat eqn:E.
      * apply Nat.eqb_eq in E.
        rewrite nth_error_app2 by (rewrite length_map, length_seq; lia).
        rewrite length_map, length_seq.
        replace (i - (n - 1))%nat with 0%nat by lia. reflexivity.
      * apply Nat.eqb_neq in E.
        rewrite nth_error_app1 by (rewrite length_map, length_seq; lia).
        rewrite nth_error_map_seq by lia. reflexivity.
    + rewrite nth_error_map_seq by exact Hi. cbn [Nat.add].
      unfold leveled_segment. fold fade.
      rewrite raw_after_shift. reflexivity.
Qed.

Lemma mesh_correction_never_accumulates_witness :
  let m := Example.machine Example.bump Example.accept_all Example.anywhere in
  let cur := Example.at_xyz 48 48 0 in
  let dest := Example.at_xyz 51 52 0 in
  exists plain leveled,
    line_to_destination_segmented (with_leveling_off m) cur dest (Fin 10)
    = Some (false, plain) /\
    line_to_destination_segmented m cur dest (Fin 10) = Some (false, leveled) /\
    length plain = 5%nat /\ length leveled = 5%nat.
Proof.
  intros m cur dest.
  destruct (mesh_correction_never_accumulates m cur dest (Fin 10)
              eq_refl eq_refl eq_refl)
    as (plain & leveled & Hp & Hl & Hlp & Hll & _).
  exists plain, leveled. repeat split; assumption.
Defined.

(** ** Whether the final move is made *)


(** ** A sub-move the planner refuses *)

(** C7, as amended.  On a move that changes column (horizontal within a
    row, or general) the splitter emits no further mesh-line crossing once
    the planner has refused one: every crossing sub-move but the last was
    accepted.  It then still makes the final move to the destination if the
    current position differs from it in X or Y, and in every case sets the
    current position to the destination. *)
Theorem refusal_ends_crossings
    (env : ubl_env) (cur dest : xyze_pos_t) :
  grid_fits env ->
  let L := compute_locals env cur dest in
  ix (istart L) <> ix (iend L) ->
  exists h,
    accepted_but_last env [] h /\
    line_to_destination_cartesian env cur dest
    = Some (if xy_neb cur (end_ L)
            then h ++ [FINAL_MOVE env (end_ L) (iend L)] else h, dest).
Proof.
  intros Hfit L Hcol.
  destruct (line_to_destination_cartesian_spec env cur dest Hfit)
    as [[Heq _]|[Hne (h & Hshape & Hrun)]].
  - fold L in Heq. exfalso. apply Hcol. rewrite Heq. reflexivity.
  - fold L in Hne, Hshape, Hrun. exists h. split; [|exact Hrun].
    pose proof (compute_locals_ok env cur dest Hfit Hne) as Hok.
    fold L in Hok. destruct Hok as [_ _ _ Hax _ _].
    destruct Hshape as [[Hx _]|[(_ & _ & _ & Hacc)|(_ & _ & _ & Hacc & _)]];
      try exact Hacc.
    exfalso. destruct Hax as [[_ Hx']|[Hx' _]]; [apply Hcol; auto|lia].
Qed.

Lemma refusal_ends_crossings_witness :
  let m := Example.machine Example.bump Example.reject_all Example.anywhere in
  exists h,
    accepted_but_last m [] h /\
    line_to_destination_cartesian m (Example.at_xyz 40 40 0)
      (Example.at_xyz 140 45 0)
    = Some (h ++ [FINAL_MOVE m (Example.at_xyz 140 45 0) (mk_xy_int8 2 0)],
            Example.at_xyz 140 45 0).
Proof.
  intros m.
  destruct (refusal_ends_crossings m (Example.at_xyz 40 40 0)
              (Example.at_xyz 140 45 0)) as (h & Hacc & Hrun).
  - unfold grid_fits. cbn. lia.
  - cbn. lia.
  - exists h. split; [exact Hacc|exact Hrun].
Defined.

(** C7 as stated fails: the planner refuses the first sub-move of a
    horizontal move, and the splitter still hands over a second one and
    sets the current position to the destination. *)
Lemma refused_sub_move_counterexample :
  let m := Example.machine Example.bump Example.reject_all Example.anywhere in
  let dest := Example.at_xyz 140 45 0 in
  exists p1 p2,
    line_to_destination_cartesian m (Example.at_xyz 40 40 0) dest
    = Some ([p1; p2], dest) /\
    buffer_segment m [] p1 = false /\
    pos_x p1 = Fin 50 /\ pos_x p2 = Fin 140.
Proof.
  intros m dest.
  exists (Example.at_xyz 50 (81 # 2) (81 # 50)), (Example.at_xyz 140 45 0).
  split; [vm_compute; reflexivity|]. repeat split; reflexivity.
Qed.

(** On the vertical path the planner's answer is not looked at: with
    every sub-move refused, both crossings of the move from (40, 40) to
    (45, 140) and the final move are still handed over. *)
Example vertical_path_ignores_refusal :
  line_to_destination_cartesian
    (Example.machine Example.bump Example.reject_all Example.anywhere)
    (Example.at_xyz 40 40 0) (Example.at_xyz 45 140 0)
  = Some ([Example.at_xyz (81 # 2) 50 (81 # 50); Example.at_xyz 43 100 0;
           Example.at_xyz 45 140 0],
          Example.at_xyz 45 140 0).
Proof. vm_compute. reflexivity. Qed.

(** The scenario of the specification: spacing 50, all samples 0 except 2
    at the mesh point (1, 1), a move from (40, 40, 0) to (60, 60, 0).  It
    gives three sub-moves, two crossings (both at the corner the line
    passes through) and the final move. *)
Example specification_scenario :
  line_to_destination_cartesian
    (Example.machine Example.bump Example.accept_all Example.anywhere)
    (Example.at_xyz 40 40 0) (Example.at_xyz 60 60 0)
  = Some ([Example.at_xyz 50 50 2; Example.at_xyz 50 50 2;
           Example.at_xyz 60 60 (32 # 25)],
          Example.at_xyz 60 60 0).
Proof. vm_compute. reflexivity. Qed.

(** ** Incremental interpolation coefficients *)


Lemma RECIPROCAL_Fin (d : Q) :
  ~ (d == 0)%Q -> RECIPROCAL (Fin d) = Fin (Qred (1 / d)).
Proof.
  intros H. unfold RECIPROCAL. cbn [fdiv].
  apply Qzero_bool_false in H. rewrite H. reflexivity.
Qed.

Lemma zero_if_nan_Fin (z : float) :
  isinf z = false -> exists q, zero_if_nan z = Fin q.
Proof.
  destruct z as [q|s|]; cbn; intros H; try discriminate;
    eexists; reflexivity.
Qed.

(** Unfolds a cell setup on finite data down to rational arithmetic. *)
Ltac open_cell_setup Hsane Hraw Hdiff icell :=
  let Hdx := fresh "Hdx" in
  let Hdy := fresh "Hdy" in
  let Htab := fresh "Htab" in
  destruct Hsane as (Hdx & Hdy & Htab);
  unfold cell_setup, get_mesh_x, get_mesh_y, float_of_Z;
  rewrite (RECIPROCAL_Fin _ Hdx), (RECIPROCAL_Fin _ Hdy);
  let z00 := fresh "z00" in
  let z10 := fresh "z10" in
  let z01 := fresh "z01" in
  let z11 := fresh "z11" in
  destruct (zero_if_nan_Fin _ (Htab (ix icell) (iy icell))) as [z00 ->];
  destruct (zero_if_nan_Fin _ (Htab (ix icell + 1) (iy icell))) as [z10 ->];
  destruct (zero_if_nan_Fin _ (Htab (ix icell) (iy icell + 1))) as [z01 ->];
  destruct (zero_if_nan_Fin _ (Htab (ix icell + 1) (iy icell + 1)))
    as [z11 ->];
  let rx := fresh "rx" in
  let ry := fresh "ry" in
  let fx := fresh "fx" in
  let fy := fresh "fy" in
  destruct Hraw as [Hraw_x Hraw_y]; destruct Hdiff as [Hdiff_x Hdiff_y];
  destruct (isfinite_Fin _ Hraw_x) as [rx Erx];
  destruct (isfinite_Fin _ Hraw_y) as [ry Ery];
  destruct (isfinite_Fin _ Hdiff_x) as [fx Efx];
  destruct (isfinite_Fin _ Hdiff_y) as [fy Efy].

Lemma cell_setup_finite (env : ubl_env) (icell : xy_int8_t)
    (raw diff : xyze_pos_t) :
  mesh_sane env -> xy_finite raw -> xy_finite diff ->
  coeffs_finite (cell_setup env icell raw diff).
Proof.
  intros Hsane Hraw Hdiff.
  open_cell_setup Hsane Hraw Hdiff icell.
  rewrite Erx, Ery, Efx.
  cbn [fadd fsub fmul]. unfold coeffs_finite. do 6 eexists. reflexivity.
Qed.



Lemma raw_after_xy_finite (diff raw : xyze_pos_t) (j : nat) :
  xy_finite raw -> xy_finite diff -> xy_finite (raw_after diff j raw).
Proof.
  intros Hraw [Hdx Hdy]. induction j as [|j [IHx IHy]]; [exact Hraw|].
  cbn [raw_after]. unfold xy_finite, pos_add. cbn [pos_x pos_y].
  destruct (isfinite_Fin _ IHx) as [a ->].
  destruct (isfinite_Fin _ IHy) as [b ->].
  destruct (isfinite_Fin _ Hdx) as [c ->].
  destruct (isfinite_Fin _ Hdy) as [d ->].
  split; reflexivity.
Qed.




(** ** Undefined samples *)

(** An undefined corner makes the splitter's bilinear value NaN. *)
Lemma cell_bilinear_undefined_corner (env : ubl_env) (e : xyze_pos_t)
    (i : xy_int8_t) :
  isnan (z_values env (ix i) (iy i)) = true \/
  isnan (z_values env (ix i + 1) (iy i)) = true \/
  isnan (z_values env (ix i) (iy i + 1)) = true \/
  isnan (z_values env (ix i + 1) (iy i + 1)) = true ->
  final_z0 env e i = NaN.
Proof.
  unfold final_z0, cell_bilinear.
  generalize ((pos_x e - get_mesh_x env (ix i))
              * RECIPROCAL (Fin (MESH_X_DIST env)))%F.
  generalize ((pos_y e - get_mesh_y env (iy i))
              * RECIPROCAL (Fin (MESH_Y_DIST env)))%F.
  generalize (fade_scaling_factor_for_z env (pos_z e)).
  intros f yr xr.
  destruct (z_values env (ix i) (iy i)) as [a| |];
    destruct (z_values env (ix i + 1) (iy i)) as [b| |];
    destruct (z_values env (ix i) (iy i + 1)) as [c0| |];
    destruct (z_values env (ix i + 1) (iy i + 1)) as [d| |];
    cbn [isnan]; intros H; decompose [or] H; try discriminate;
    repeat first [ rewrite nan_absorbs_sub_l | rewrite nan_absorbs_sub_r
                 | rewrite nan_absorbs_mul_l | rewrite nan_absorbs_mul_r
                 | rewrite nan_absorbs_add_l | rewrite nan_absorbs_add_r ];
    reflexivity.
Qed.

Lemma cell_setup_zeroed (env : ubl_env) (icell : xy_int8_t)
    (raw diff : xyze_pos_t) :
  cell_setup (with_z_values env (zeroed (z_values env))) icell raw diff
  = cell_setup env icell raw diff.
Proof.
  unfold cell_setup. cbn [z_values with_z_values]. unfold zeroed.
  rewrite !zero_if_nan_idem. reflexivity.
Qed.

Lemma cell_loop_zeroed (env : ubl_env) (dest diff : xyze_pos_t)
    (mm fade : float) (fuel : nat) :
  forall (s : Z) (raw : xyze_pos_t) (hist : list segment),
    cell_loop (with_z_values env (zeroed (z_values env))) dest diff mm fade
              fuel s raw hist
    = cell_loop env dest diff mm fade fuel s raw hist.
Proof.
  induction fuel as [|fuel IH]; intros s raw hist; [reflexivity|].
  cbn [cell_loop]. rewrite cell_setup_zeroed.
  change (segment_icell (with_z_values env (zeroed (z_values env))) raw)
    with (segment_icell env raw).
  change (segment_loop (with_z_values env (zeroed (z_values env))))
    with (segment_loop env).
  destruct (segment_loop env dest diff mm fade (S fuel) s raw
              (cell_setup env (segment_icell env raw) raw diff) hist)
    as [[h|s' raw' h]|]; try reflexivity.
  apply IH.
Qed.

(** Reading every undefined sample as 0 does not change what the
    segmenter does. *)
Lemma segmented_zeroed (env : ubl_env) (cur dest : xyze_pos_t) (fr : float) :
  line_to_destination_segmented (with_z_values env (zeroed (z_values env)))
    cur dest fr
  = line_to_destination_segmented env cur dest fr.
Proof.
  unfold line_to_destination_segmented.
  cbn [position_is_reachable leveling_active leveling_active_at_z
       fade_scaling_factor_for_z SQRT with_z_values].
  change (segment_count (with_z_values env (zeroed (z_values env))))
    with (segment_count env).
  rewrite cell_loop_zeroed. reflexivity.
Qed.

Lemma advance_finite (k : cell_coeffs) (diff : xyze_pos_t) :
  coeffs_finite k -> xy_finite diff -> coeffs_finite (advance_coeffs k diff).
Proof.
  intros (cx & cy & a & b & c0 & d & ->) [Hx Hy].
  destruct (isfinite_Fin _ Hx) as [fx Efx].
  destruct (isfinite_Fin _ Hy) as [fy Efy].
  unfold advance_coeffs. cbn [cell_x cell_y z_cxy0 z_cxym z_sxy0 z_sxym].
  rewrite Efx, Efy. cbn [fadd]. unfold coeffs_finite.
  do 6 eexists. reflexivity.
Qed.

Lemma coeffs_at_finite (env : ubl_env) (diff raw : xyze_pos_t) (j : nat) :
  mesh_sane env -> xy_finite raw -> xy_finite diff ->
  coeffs_finite (coeffs_at env diff j raw).
Proof.
  intros Hsane Hraw Hdiff. induction j as [|j IH].
  - apply cell_setup_finite; assumption.
  - cbn [coeffs_at].
    destruct (left_cell env (advance_coeffs (coeffs_at env diff j raw) diff)).
    + apply cell_setup_finite; try assumption.
      apply (raw_after_xy_finite diff raw (S j)); assumption.
    + apply advance_finite; assumption.
Qed.

Lemma z_cxcy_finite (env : ubl_env) (fade : float) (k : cell_coeffs) :
  coeffs_finite k -> isfinite fade = true ->
  isfinite (z_cxcy_of env fade k) = true.
Proof.
  intros (cx & cy & a & b & c0 & d & ->) Hf.
  destruct (isfinite_Fin _ Hf) as [f ->].
  unfold z_cxcy_of. cbn [cell_x cell_y z_cxy0 z_cxym z_sxy0 z_sxym].
  destruct (ENABLE_LEVELING_FADE_HEIGHT env); reflexivity.
Qed.

Lemma segmented_diff_xy_finite
    (env : ubl_env) (cur dest : xyze_pos_t) (fr : float) :
  xy_finite cur -> xy_finite dest ->
  xy_finite (segmented_diff env cur dest fr).
Proof.
  intros [Hcx Hcy] [Hdx Hdy].
  pose proof (segment_count_range env (pos_sub dest cur) fr) as Hrange.
  fold (segmented_segments env cur dest fr) in Hrange.
  unfold segmented_diff, pos_scale, pos_sub, xy_finite, float_of_Z.
  cbn [pos_x pos_y].
  destruct (isfinite_Fin _ Hcx) as [a ->].
  destruct (isfinite_Fin _ Hcy) as [b ->].
  destruct (isfinite_Fin _ Hdx) as [c0 ->].
  destruct (isfinite_Fin _ Hdy) as [d ->].
  assert (Hnz : Qzero_bool
                  (inject_Z (segmented_segments env cur dest fr)) = false).
  { apply Qzero_bool_false. intros H.
    unfold Qeq, inject_Z in H. cbn in H. lia. }
  cbn [fsub fdiv]. rewrite Hnz. split; reflexivity.
Qed.

(** C2, as amended.  In the splitter's bilinear path one undefined corner
    sample makes the whole correction NaN, and the sub-move then carries no
    correction at all: its pose is the destination unchanged, which in
    general is not the interpolation with 0 in place of the undefined
    sample.  In the fixed-length segmenter every undefined corner sample is
    read as 0 before the coefficients are set up: the segmenter emits
    exactly what it emits on the mesh table with 0 in place of every
    undefined sample; the correction it adds to segment [i] of a leveled
    move is [z_cxcy_of] of the coefficients in use there, and on finite
    data that correction is a finite number, never NaN. *)
Theorem undefined_samples_are_neutral
    (env : ubl_env) (cur dest : xyze_pos_t) (fr : float) :
  (forall (e : xyze_pos_t) (i : xy_int8_t),
     isnan (z_values env (ix i) (iy i)) = true \/
     isnan (z_values env (ix i + 1) (iy i)) = true \/
     isnan (z_values env (ix i) (iy i + 1)) = true \/
     isnan (z_values env (ix i + 1) (iy i + 1)) = true ->
     UBL_Z_RAISE_WHEN_OFF_MESH env = None ->
     FINAL_MOVE env e i = e) /\
  line_to_destination_segmented (with_z_values env (zeroed (z_values env)))
    cur dest fr
  = line_to_destination_segmented env cur dest fr /\
  (position_is_reachable env dest = true ->
   leveling_active env = true ->
   leveling_active_at_z env (pos_z dest) = true ->
   line_to_destination_segmented env cur dest fr
   = Some (false,
           map (leveled_segment env dest (segmented_diff env cur dest fr)
                  (segmented_mm env cur dest fr)
                  (fade_scaling_factor_for_z env (pos_z dest))
                  (Z.to_nat (segmented_segments env cur dest fr))
                  (pos_add cur (segmented_diff env cur dest fr)))
               (seq 0 (Z.to_nat (segmented_segments env cur dest fr))))) /\
  (mesh_sane env -> xy_finite cur -> xy_finite dest ->
   isfinite (fade_scaling_factor_for_z env (pos_z dest)) = true ->
   forall i : nat,
     isfinite
       (z_cxcy_of env (fade_scaling_factor_for_z env (pos_z dest))
          (coeffs_at env (segmented_diff env cur dest fr) i
             (pos_add cur (segmented_diff env cur dest fr)))) = true).
Proof.
  split; [|split; [|split]].
  - intros e i Hnan Hraise. unfold FINAL_MOVE. rewrite Hraise.
    rewrite (cell_bilinear_undefined_corner env e i Hnan). reflexivity.
  - apply segmented_zeroed.
  - intros Hreach Hact Hactz.
    rewrite (line_to_destination_segmented_spec env cur dest fr Hreach).
    rewrite Hact, Hactz. reflexivity.
  - intros Hsane Hcur Hdest Hfade i.
    pose proof (segmented_diff_xy_finite env cur dest fr Hcur Hdest) as Hdiff.
    apply z_cxcy_finite; [|exact Hfade].
    apply coeffs_at_finite; try assumption.
    apply (raw_after_xy_finite _ cur 1); assumption.
Qed.

Lemma undefined_samples_are_neutral_witness :
  let m := Example.machine Example.holed Example.accept_all Example.anywhere in
  FINAL_MOVE m (Example.at_xyz 20 20 0) (mk_xy_int8 0 0)
  = Example.at_xyz 20 20 0.
Proof.
  intros m.
  destruct (undefined_samples_are_neutral m (Example.at_xyz 10 10 0)
              (Example.at_xyz 20 20 0) (Fin 10)) as [Hsplit _].
  apply Hsplit.
  - right; left. reflexivity.
  - reflexivity.
Defined.

(** C2 as stated fails for the splitter.  With the sample at (1, 0)
    undefined and all others 1, the same-cell move to (20, 20, 0) is
    emitted with no correction (Z = 0); with 0 substituted for the
    undefined sample the same interpolation gives Z = 19/25. *)
Lemma undefined_corner_not_zero_substituted_counterexample :
  let m := Example.machine Example.holed Example.accept_all Example.anywhere in
  let m0 := Example.machine (zeroed Example.holed)
              Example.accept_all Example.anywhere in
  let cur := Example.at_xyz 10 10 0 in
  let dest := Example.at_xyz 20 20 0 in
  isnan (Example.holed 1 0) = true /\
  line_to_destination_cartesian m cur dest
  = Some ([Example.at_xyz 20 20 0], dest) /\
  line_to_destination_cartesian m0 cur dest
  = Some ([Example.at_xyz 20 20 (19 # 25)], dest) /\
  fneb (Fin 0) (Fin (19 # 25)) = true.
Proof.
  intros m m0 cur dest.
  split; [reflexivity|]. split; [vm_compute; reflexivity|].
  split; [vm_compute; reflexivity|reflexivity].
Qed.

(** ** Interpolation of E and Z along the dominant axis *)

Lemma flt_Fin (a b : Q) : flt (Fin a) (Fin b) = true <-> (a < b)%Q.
Proof.
  unfold flt. cbn [fcompare]. rewrite Qlt_alt.
  destruct (a ?= b)%Q; split; congruence.
Qed.

Lemma flt_Fin_false (a b : Q) : flt (Fin a) (Fin b) = false <-> (b <= a)%Q.
Proof.
  destruct (Qlt_le_dec a b) as [H|H].
  - split; intros H'.
    + apply flt_Fin in H. congruence.
    + exfalso. exact (Qlt_not_le _ _ H H').
  - split; intros H'; [exact H|].
    destruct (flt (Fin a) (Fin b)) eqn:E; [|reflexivity].
    apply flt_Fin in E. exfalso. exact (Qlt_not_le _ _ E H).
Qed.

Lemma feqb_Fin (a b : Q) : feqb (Fin a) (Fin b) = true <-> (a == b)%Q.
Proof.
  unfold feqb. cbn [fcompare]. rewrite Qeq_alt.
  destruct (a ?= b)%Q; split; congruence.
Qed.

(** The distance along the dominant axis is zero only for a move that
    changes neither X nor Y. *)
Lemma on_axis_distance_nonzero (ax ay : Q) :
  ~ ((ax == 0)%Q /\ (ay == 0)%Q) ->
  let sign_x := if flt (Fin ax) (Fin 0) then Fin (-1) else Fin 1 in
  let sign_y := if flt (Fin ay) (Fin 0) then Fin (-1) else Fin 1 in
  let use_x_dist := fgt (sign_x * Fin ax)%F (sign_y * Fin ay)%F in
  ~ ((if use_x_dist then ax else ay) == 0)%Q.
Proof.
  intros Hnz sign_x sign_y use_x_dist.
  unfold use_x_dist, sign_x, sign_y, fgt.
  destruct (flt (Fin ax) (Fin 0)) eqn:Ex;
    destruct (flt (Fin ay) (Fin 0)) eqn:Ey; cbn [fmul];
    [ apply flt_Fin in Ex; apply flt_Fin in Ey
    | apply flt_Fin in Ex; apply flt_Fin_false in Ey
    | apply flt_Fin_false in Ex; apply flt_Fin in Ey
    | apply flt_Fin_false in Ex; apply flt_Fin_false in Ey ];
    match goal with
    | |- context [flt ?a ?b] => destruct (flt a b) eqn:E
    end;
    [ apply flt_Fin in E | apply flt_Fin_false in E
    | apply flt_Fin in E | apply flt_Fin_false in E
    | apply flt_Fin in E | apply flt_Fin_false in E
    | apply flt_Fin in E | apply flt_Fin_false in E ];
    rewrite !Qred_correct in E; intros H; try lra;
    apply Hnz; split; lra.
Qed.

Lemma cell_index_x_differ (env : ubl_env) (a b : Q) :
  cell_index_x env (Fin a) <> cell_index_x env (Fin b) ->
  ~ (Qred (b - a) == 0)%Q.
Proof.
  intros Hne H. apply Hne. rewrite Qred_correct in H.
  assert (Heq : feqb (Fin a) (Fin b) = true) by (apply feqb_Fin; lra).
  unfold cell_index_x, cell_index_x_raw.
  rewrite (feqb_true_sub _ _ (Fin (MESH_MIN_X env)) Heq). reflexivity.
Qed.

Lemma cell_index_y_differ (env : ubl_env) (a b : Q) :
  cell_index_y env (Fin a) <> cell_index_y env (Fin b) ->
  ~ (Qred (b - a) == 0)%Q.
Proof.
  intros Hne H. apply Hne. rewrite Qred_correct in H.
  assert (Heq : feqb (Fin a) (Fin b) = true) by (apply feqb_Fin; lra).
  unfold cell_index_y, cell_index_y_raw.
  rewrite (feqb_true_sub _ _ (Fin (MESH_MIN_Y env)) Heq). reflexivity.
Qed.

Lemma pos_finite_inv (p : xyze_pos_t) :
  pos_finite p -> exists x y z e, p = mk_pos (Fin x) (Fin y) (Fin z) (Fin e).
Proof.
  destruct p as [x y z e]. intros (Hx & Hy & Hz & He). cbn in *.
  destruct (isfinite_Fin _ Hx) as [? ->].
  destruct (isfinite_Fin _ Hy) as [? ->].
  destruct (isfinite_Fin _ Hz) as [? ->].
  destruct (isfinite_Fin _ He) as [? ->].
  do 4 eexists. reflexivity.
Qed.

Lemma fdiv_Fin (a d : Q) :
  ~ (d == 0)%Q -> (Fin a / Fin d)%F = Fin (Qred (a / d)).
Proof.
  intros H. cbn [fdiv]. apply Qzero_bool_false in H. rewrite H. reflexivity.
Qed.

Lemma Qdiv_nonzero (a d : Q) :
  ~ (a == 0)%Q -> ~ (d == 0)%Q -> ~ (Qred (a / d) == 0)%Q.
Proof.
  intros Ha Hd H. rewrite Qred_correct in H. apply Ha.
  assert (E : (a == (a / d) * d)%Q) by (field; exact Hd).
  rewrite E, H. ring.
Qed.

Lemma compute_locals_finite (env : ubl_env) (cur dest : xyze_pos_t) :
  pos_finite (start (compute_locals env cur dest)) ->
  pos_finite (end_ (compute_locals env cur dest)) ->
  istart (compute_locals env cur dest) <> iend (compute_locals env cur dest) ->
  locals_finite (compute_locals env cur dest).
Proof.
  unfold compute_locals. cbn [start end_ istart iend].
  generalize (apply_modifiers env cur) (apply_modifiers env dest).
  intros s e Hs He Hne.
  destruct (pos_finite_inv _ Hs) as (sx & sy & sz & se & ->).
  destruct (pos_finite_inv _ He) as (ex & ey & ez & ee & ->).
  cbn [pos_x pos_y pos_z pos_e fsub] in *.
  unfold cell_indexes in Hne. cbn [pos_x pos_y] in Hne.
  set (ax := Qred (ex - sx)) in *. set (ay := Qred (ey - sy)) in *.
  assert (Hax : cell_index_x env (Fin ex) <> cell_index_x env (Fin sx) ->
                ~ (ax == 0)%Q).
  { intros H. apply (cell_index_x_differ env sx ex). congruence. }
  assert (Hay : cell_index_y env (Fin ey) <> cell_index_y env (Fin sy) ->
                ~ (ay == 0)%Q).
  { intros H. apply (cell_index_y_differ env sy ey). congruence. }
  assert (Hnz : ~ ((ax == 0)%Q /\ (ay == 0)%Q)).
  { intros [Hx Hy].
    destruct (Z.eq_dec (cell_index_x env (Fin ex)) (cell_index_x env (Fin sx)))
      as [Ex|Ex]; [|exact (Hax Ex Hx)].
    destruct (Z.eq_dec (cell_index_y env (Fin ey)) (cell_index_y env (Fin sy)))
      as [Ey|Ey]; [|exact (Hay Ey Hy)].
    apply Hne. rewrite Ex, Ey. reflexivity. }
  pose proof (on_axis_distance_nonzero ax ay Hnz) as Hd. cbv zeta in Hd.
  set (use_x := fgt _ _) in *.
  assert (Hon : (if use_x then Fin ax else Fin ay)
                = Fin (if use_x then ax else ay)) by (destruct use_x; reflexivity).
  constructor; cbn [start end_ istart iend inf_normalized_flag
                    e_normalized_dist z_normalized_dist inf_ratio_flag
                    ratio c ix iy cell_indexes pos_x pos_y pos_z pos_e].
  - exact Hs.
  - exact He.
  - rewrite Hon, (fdiv_Fin _ _ Hd). reflexivity.
  - rewrite Hon, (fdiv_Fin _ _ Hd). reflexivity.
  - rewrite Hon, (fdiv_Fin _ _ Hd). reflexivity.
  - intros Hcol.
    assert (Hrow : cell_index_y env (Fin ey) <> cell_index_y env (Fin sy)).
    { intros Hrow. apply Hne. rewrite Hcol, Hrow. reflexivity. }
    specialize (Hay Hrow).
    destruct (Qzero_bool ax) eqn:Ez.
    + left. cbn [fdiv]. rewrite Ez.
      apply Qzero_bool_false in Hay. rewrite Hay. reflexivity.
    + right. apply Qzero_bool_false in Ez.
      rewrite (fdiv_Fin _ _ Ez). cbn [fmul fsub].
      do 2 eexists. split; [reflexivity|]. split; [|reflexivity].
      apply Qdiv_nonzero; assumption.
  - intros Hcol. specialize (Hax Hcol).
    rewrite (fdiv_Fin _ _ Hax). cbn [fmul fsub].
    do 2 eexists. split; [reflexivity|]. split; [reflexivity|].
    intros Hrow. apply Qdiv_nonzero; auto.
Qed.

Lemma get_mesh_x_Fin (env : ubl_env) (i : Z) : exists q, get_mesh_x env i = Fin q.
Proof. eexists. reflexivity. Qed.

Lemma get_mesh_y_Fin (env : ubl_env) (j : Z) : exists q, get_mesh_y env j = Fin q.
Proof. eexists. reflexivity. Qed.

Lemma crossing_move_interpolated (L : line_locals) (dx dy z0 : float) :
  interpolated_on_dominant_axis L (crossing_move L dx dy z0) z0.
Proof.
  unfold interpolated_on_dominant_axis, crossing_move.
  destruct (inf_normalized_flag L); cbn [negb];
    destruct (use_x_dist L); cbn [pos_x pos_y pos_z pos_e]; split; reflexivity.
Qed.

Lemma crossing_move_no_nan (L : line_locals) (dx dy z0 : float) :
  locals_finite L -> isfinite dx = true -> isfinite dy = true ->
  isnan z0 = false -> no_nan (crossing_move L dx dy z0).
Proof.
  intros [Hs He Hflag Hen Hzn _ _] Hdx Hdy Hz0.
  unfold crossing_move. rewrite Hflag. cbn [negb].
  destruct (pos_finite_inv _ Hs) as (sx & sy & sz & se & ->).
  destruct (isfinite_Fin _ Hen) as [en ->].
  destruct (isfinite_Fin _ Hzn) as [zn ->].
  destruct (isfinite_Fin _ Hdx) as [x ->].
  destruct (isfinite_Fin _ Hdy) as [y ->].
  cbn [pos_x pos_y pos_z pos_e].
  unfold no_nan. cbn [pos_x pos_y pos_z pos_e].
  destruct (use_x_dist L); destruct z0; try discriminate;
    repeat split; reflexivity.
Qed.

Lemma FINAL_MOVE_no_nan (env : ubl_env) (e : xyze_pos_t) (i : xy_int8_t) :
  pos_finite e ->
  (forall r, UBL_Z_RAISE_WHEN_OFF_MESH env = Some r -> isnan r = false) ->
  no_nan (FINAL_MOVE env e i).
Proof.
  intros He Hraise.
  destruct (pos_finite_inv _ He) as (x & y & z & ee & ->).
  assert (Hint : no_nan (if negb (isnan (final_z0 env (mk_pos (Fin x) (Fin y) (Fin z) (Fin ee)) i))
                         then set_z (mk_pos (Fin x) (Fin y) (Fin z) (Fin ee))
                                (Fin z + final_z0 env (mk_pos (Fin x) (Fin y) (Fin z) (Fin ee)) i)%F
                         else mk_pos (Fin x) (Fin y) (Fin z) (Fin ee))).
  { destruct (isnan (final_z0 env _ i)) eqn:E; cbn [negb].
    - repeat split.
    - unfold no_nan, set_z. cbn [pos_x pos_y pos_z pos_e isnan].
      repeat split. apply isnan_false_add; auto. }
  unfold FINAL_MOVE. cbn [pos_x pos_y pos_z pos_e].
  cbn [pos_x pos_y pos_z pos_e] in Hint.
  destruct (UBL_Z_RAISE_WHEN_OFF_MESH env) as [r|]; [|exact Hint].
  destruct (negb _ || negb _); [|exact Hint].
  unfold no_nan, set_z. cbn [pos_x pos_y pos_z pos_e isnan].
  repeat split. apply isnan_false_add; auto.
Qed.

Section CrossingShapes.

Variable env : ubl_env.
Variable L : line_locals.
Hypothesis HL : locals_finite L.

Lemma on_y_line_ok (p : xyze_pos_t) :
  ix (iend L) = ix (istart L) -> on_y_line env L p -> crossing_ok L p.
Proof.
  intros Hcol (j & corr & ->). split.
  - apply crossing_move_no_nan;
      [exact HL | | reflexivity | apply nan_to_zero_not_nan].
    destruct (lf_start L HL) as [Hx _].
    destruct (inf_ratio_flag L) eqn:Hflag; [exact Hx|].
    destruct (lf_column L HL Hcol) as [Hinf|(r & cc & Hr & Hnz & Hc)];
      [congruence|].
    rewrite Hr, Hc. destruct (get_mesh_y_Fin env j) as [q ->].
    cbn [fsub]. rewrite (fdiv_Fin _ _ Hnz). reflexivity.
  - eexists. split; [apply nan_to_zero_not_nan|].
    apply crossing_move_interpolated.
Qed.

Lemma on_x_line_ok (p : xyze_pos_t) :
  ix (iend L) <> ix (istart L) -> on_x_line env L p -> crossing_ok L p.
Proof.
  intros Hcol (i & corr & ->). split.
  - apply crossing_move_no_nan;
      [exact HL | reflexivity | | apply nan_to_zero_not_nan].
    destruct (lf_columns L HL Hcol) as (r & cc & Hr & Hc & _).
    rewrite Hr, Hc. destruct (get_mesh_x_Fin env i) as [q ->]. reflexivity.
  - eexists. split; [apply nan_to_zero_not_nan|].
    apply crossing_move_interpolated.
Qed.

Lemma on_y_line_general_ok (p : xyze_pos_t) :
  ix (iend L) <> ix (istart L) -> iy (iend L) <> iy (istart L) ->
  on_y_line_general env L p -> crossing_ok L p.
Proof.
  intros Hcol Hrow (j & corr & ->). split.
  - apply crossing_move_no_nan;
      [exact HL | | reflexivity | apply nan_to_zero_not_nan].
    destruct (lf_columns L HL Hcol) as (r & cc & Hr & Hc & Hnz).
    rewrite Hr, Hc. destruct (get_mesh_y_Fin env j) as [q ->].
    cbn [fsub]. rewrite (fdiv_Fin _ _ (Hnz Hrow)). reflexivity.
  - eexists. split; [apply nan_to_zero_not_nan|].
    apply crossing_move_interpolated.
Qed.

Lemma crossing_shape_ok (h : list xyze_pos_t) :
  locals_ok L -> crossing_shape env L h -> Forall (crossing_ok L) h.
Proof.
  intros [_ _ _ Hax Hay _] Hshape.
  assert (Hx0 : ix (iadd L) = 0 -> ix (iend L) = ix (istart L))
    by (destruct Hax as [[_ H]|[H _]]; [auto|lia]).
  assert (Hx1 : ix (iadd L) <> 0 -> ix (iend L) <> ix (istart L))
    by (destruct Hax as [[H _]|[_ H]]; [lia|auto]).
  assert (Hy1 : iy (iadd L) <> 0 -> iy (iend L) <> iy (istart L))
    by (destruct Hay as [[H _]|[_ H]]; [lia|auto]).
  destruct Hshape as [[Hx Hall]|[(Hx & _ & Hall & _)|(Hx & Hy & Hall & _)]].
  - eapply Forall_impl; [|exact Hall]. intros p. apply on_y_line_ok; auto.
  - eapply Forall_impl; [|exact Hall]. intros p. apply on_x_line_ok; auto.
  - eapply Forall_impl; [|exact Hall]. intros p [Hp|Hp].
    + apply on_y_line_general_ok; auto.
    + apply on_x_line_ok; auto.
Qed.

End CrossingShapes.

Lemma fcompare_same_value (a a' b b' : float) :
  same_value a a' -> same_value b b' -> fcompare a b = fcompare a' b'.
Proof.
  destruct a as [p|s|], a' as [p'|s'|]; cbn [same_value]; try contradiction;
    destruct b as [q|t|], b' as [q'|t'|]; cbn [same_value]; try contradiction;
    intros Ha Hb; cbn [fcompare]; subst; try reflexivity.
  rewrite Ha, Hb. reflexivity.
Qed.

Lemma fgt_same_value (a a' b b' : float) :
  same_value a a' -> same_value b b' -> fgt a b = fgt a' b'.
Proof.
  intros Ha Hb. unfold fgt, flt.
  rewrite (fcompare_same_value _ _ _ _ Hb Ha). reflexivity.
Qed.

(** The source's [sign * dist] is the absolute value of [dist]. *)
Lemma signed_is_fabs (a : float) :
  same_value ((if flt a (Fin 0) then Fin (-1) else Fin 1) * a)%F (fabs a).
Proof.
  destruct a as [q|s|].
  - destruct (flt (Fin q) (Fin 0)) eqn:E; cbn [fmul fabs same_value];
      rewrite Qred_correct.
    + apply flt_Fin in E. rewrite Qabs_neg by lra. ring.
    + apply flt_Fin_false in E. rewrite Qabs_pos by lra. ring.
  - destruct s; reflexivity.
  - exact I.
Qed.

Lemma locals_dominant (env : ubl_env) (cur dest : xyze_pos_t) :
  let L := compute_locals env cur dest in
  use_x_dist L
  = fgt (fabs (pos_x (end_ L) - pos_x (start L)))
        (fabs (pos_y (end_ L) - pos_y (start L))).
Proof.
  intros L. unfold L, compute_locals. cbn [use_x_dist start end_].
  apply fgt_same_value; apply signed_is_fabs.
Qed.

(** What [crossing_move] builds is a sub-move as the claim has it. *)
Lemma crossing_move_follows (env : ubl_env) (cur dest : xyze_pos_t)
    (x y corr : float) :
  let L := compute_locals env cur dest in
  follows_dominant_axis (start L) (end_ L)
    (crossing_move L x y (nan_to_zero corr)) corr.
Proof.
  intros L. unfold follows_dominant_axis.
  pose proof (locals_dominant env cur dest) as Hd. cbv zeta in Hd.
  fold L in Hd. rewrite <- Hd. clear Hd.
  change ((pos_e (end_ L) - pos_e (start L))
          / (if use_x_dist L
             then pos_x (end_ L) - pos_x (start L)
             else pos_y (end_ L) - pos_y (start L)))%F
    with (e_normalized_dist L).
  change ((pos_z (end_ L) - pos_z (start L))
          / (if use_x_dist L
             then pos_x (end_ L) - pos_x (start L)
             else pos_y (end_ L) - pos_y (start L)))%F
    with (z_normalized_dist L).
  change (isinf (e_normalized_dist L)) with (inf_normalized_flag L).
  unfold crossing_move, nan_to_zero.
  destruct (inf_normalized_flag L); cbn [negb];
    destruct (use_x_dist L); cbn [pos_x pos_y pos_z pos_e];
    split; reflexivity.
Qed.

Lemma emitted_is_as_claimed (env : ubl_env) (cur dest : xyze_pos_t)
    (p : xyze_pos_t) :
  let L := compute_locals env cur dest in
  emitted_at_crossing env L p ->
  crossing_as_claimed env (apply_modifiers env cur)
    (apply_modifiers env dest) p.
Proof.
  intros L [(i & j & x & ->)|(i & j & y & ->)].
  - left. exists i, j. split.
    + unfold crossing_move. destruct (negb (inf_normalized_flag L)); reflexivity.
    + replace (pos_x (crossing_move L x (get_mesh_y env j) _)) with x
        by (unfold crossing_move;
            destruct (negb (inf_normalized_flag L)); reflexivity).
      apply (crossing_move_follows env cur dest).
  - right. exists i, j. split.
    + unfold crossing_move. destruct (negb (inf_normalized_flag L)); reflexivity.
    + replace (pos_y (crossing_move L (get_mesh_x env i) y _)) with y
        by (unfold crossing_move;
            destruct (negb (inf_normalized_flag L)); reflexivity).
      apply (crossing_move_follows env cur dest).
Qed.

Section EmittedCrossings.

Variable env : ubl_env.
Variable L : line_locals.

Lemma vertical_loop_emits (fuel : nat) :
  forall (icell : xy_int8_t) (hist : list xyze_pos_t),
    -128 <= iy (iend L) + iy (ineg L) <= 127 ->
    -128 <= iy icell <= 127 ->
    iy (iadd L) = 1 \/ iy (iadd L) = -1 ->
    ((iy (iend L) + iy (ineg L) - iy icell) * iy (iadd L)) mod 256
      < Z.of_nat fuel ->
    exists h, vertical_loop env L fuel icell hist = Some (hist ++ h) /\
              Forall (emitted_at_crossing env L) h.
Proof.
  induction fuel as [|fuel IH]; intros icell hist Ht Hy Hs Hm.
  - pose proof (Z.mod_pos_bound
      ((iy (iend L) + iy (ineg L) - iy icell) * iy (iadd L)) 256). lia.
  - cbn [vertical_loop].
    destruct (iy icell =? iy (iend L) + iy (ineg L)) eqn:E.
    + exists []. rewrite app_nil_r. split; [reflexivity|constructor].
    + apply Z.eqb_neq in E. cbn [ix iy].
      pose proof (wrap_step _ _ _ Ht Hy Hs E) as Hstep.
      set (icell' := mk_xy_int8 (ix icell) (int8_t (iy icell + iy (iadd L)))).
      assert (Hy' : -128 <= iy icell' <= 127) by apply int8_t_range.
      assert (Hm' : ((iy (iend L) + iy (ineg L) - iy icell') * iy (iadd L))
                      mod 256 < Z.of_nat fuel) by (cbn [icell' iy]; lia).
      match goal with
      | |- context [if fneb ?a ?b then _ else _] => destruct (fneb a b)
      end.
      * match goal with
        | |- context [vertical_loop env L fuel icell' (hist ++ [?d])] =>
            destruct (IH icell' (hist ++ [d]) Ht Hy' Hs Hm') as (h & Hrun & Hall);
            exists (d :: h)
        end.
        split.
        -- rewrite Hrun, <- app_assoc. reflexivity.
        -- constructor; [|exact Hall].
           left. eexists _, _, _. reflexivity.
      * exact (IH icell' hist Ht Hy' Hs Hm').
Qed.

Lemma horizontal_loop_emits (fuel : nat) :
  forall (icell : xy_int8_t) (hist : list xyze_pos_t),
    -128 <= ix (iend L) + ix (ineg L) <= 127 ->
    -128 <= ix icell <= 127 ->
    ix (iadd L) = 1 \/ ix (iadd L) = -1 ->
    ((ix (iend L) + ix (ineg L) - ix icell) * ix (iadd L)) mod 256
      < Z.of_nat fuel ->
    exists h, horizontal_loop env L fuel icell hist = Some (hist ++ h) /\
              Forall (emitted_at_crossing env L) h.
Proof.
  induction fuel as [|fuel IH]; intros icell hist Ht Hx Hs Hm.
  - pose proof (Z.mod_pos_bound
      ((ix (iend L) + ix (ineg L) - ix icell) * ix (iadd L)) 256). lia.
  - cbn [horizontal_loop].
    destruct (ix icell =? ix (iend L) + ix (ineg L)) eqn:E.
    + exists []. rewrite app_nil_r. split; [reflexivity|constructor].
    + apply Z.eqb_neq in E. cbn [ix iy].
      pose proof (wrap_step _ _ _ Ht Hx Hs E) as Hstep.
      set (icell' := mk_xy_int8 (int8_t (ix icell + ix (iadd L))) (iy icell)).
      assert (Hx' : -128 <= ix icell' <= 127) by apply int8_t_range.
      assert (Hm' : ((ix (iend L) + ix (ineg L) - ix icell') * ix (iadd L))
                      mod 256 < Z.of_nat fuel) by (cbn [icell' ix]; lia).
      match goal with
      | |- context [if fneb ?a ?b then _ else _] => destruct (fneb a b)
      end.
      * match goal with
        | |- context [buffer_segment env hist ?d] =>
            set (dest := d);
            assert (Hshape : emitted_at_crossing env L dest)
              by (right; eexists _, _, _; reflexivity);
            destruct (buffer_segment env hist dest)
        end; cbn [negb].
        -- destruct (IH icell' (hist ++ [dest]) Ht Hx' Hs Hm')
             as (h & Hrun & Hall).
           exists (dest :: h). split.
           ++ rewrite Hrun, <- app_assoc. reflexivity.
           ++ constructor; assumption.
        -- exists [dest]. split; [reflexivity|].
           constructor; [assumption|constructor].
      * exact (IH icell' hist Ht Hx' Hs Hm').
Qed.

Lemma general_loop_emits (fuel : nat) :
  forall (icell cnt : xy_int8_t) (hist : list xyze_pos_t),
    0 <= ix cnt <= 127 -> 0 <= iy cnt <= 127 ->
    ix cnt + iy cnt < Z.of_nat fuel ->
    exists h, general_loop env L fuel icell cnt hist = Some (hist ++ h) /\
              Forall (emitted_at_crossing env L) h.
Proof.
  induction fuel as [|fuel IH]; intros icell cnt hist Hcx Hcy Hm; [lia|].
  cbn [general_loop].
  destruct ((ix cnt =? 0) && (iy cnt =? 0)) eqn:E.
  - exists []. rewrite app_nil_r. split; [reflexivity|constructor].
  - apply andb_false_iff in E. rewrite !Z.eqb_neq in E. cbn [ix iy].
    match goal with
    | |- context [if Bool.eqb ?a ?b then _ else _] => destruct (Bool.eqb a b)
    end.
    + match goal with
      | |- context [buffer_segment env hist ?d] =>
          set (dest := d);
          assert (Hshape : emitted_at_crossing env L dest)
            by (left; eexists _, _, _; reflexivity);
          destruct (buffer_segment env hist dest)
      end; cbn [negb].
      * rewrite (int8_t_small (iy cnt - 1)) by lia.
        destruct ((ix cnt <? 0) || (iy cnt - 1 <? 0)) eqn:Hneg.
        -- exists [dest]. split; [reflexivity|].
           constructor; [assumption|constructor].
        -- apply orb_false_iff in Hneg. rewrite !Z.ltb_ge in Hneg.
           match goal with
           | |- context [general_loop env L fuel ?ic ?cn (hist ++ [dest])] =>
               destruct (IH ic cn (hist ++ [dest])) as (h & Hrun & Hall);
               cbn [ix iy]; try lia
           end.
           exists (dest :: h). split.
           ++ rewrite Hrun, <- app_assoc. reflexivity.
           ++ constructor; assumption.
      * exists [dest]. split; [reflexivity|].
        constructor; [assumption|constructor].
    + match goal with
      | |- context [buffer_segment env hist ?d] =>
          set (dest := d);
          assert (Hshape : emitted_at_crossing env L dest)
            by (right; eexists _, _, _; reflexivity);
          destruct (buffer_segment env hist dest)
      end; cbn [negb].
      * rewrite (int8_t_small (ix cnt - 1)) by lia.
        destruct ((ix cnt - 1 <? 0) || (iy cnt <? 0)) eqn:Hneg.
        -- exists [dest]. split; [reflexivity|].
           constructor; [assumption|constructor].
        -- apply orb_false_iff in Hneg. rewrite !Z.ltb_ge in Hneg.
           match goal with
           | |- context [general_loop env L fuel ?ic ?cn (hist ++ [dest])] =>
               destruct (IH ic cn (hist ++ [dest])) as (h & Hrun & Hall);
               cbn [ix iy]; try lia
           end.
           exists (dest :: h). split.
           ++ rewrite Hrun, <- app_assoc. reflexivity.
           ++ constructor; assumption.
      * exists [dest]. split; [reflexivity|].
        constructor; [assumption|constructor].
Qed.

Lemma crossing_moves_emitted :
  locals_ok L ->
  exists h, crossing_moves env L = Some h /\
            Forall (emitted_at_crossing env L) h.
Proof.
  intros [Hs He Hn Hax Hay Hd]. unfold crossing_moves.
  destruct (ix (iadd L) =? 0) eqn:Ex.
  - apply Z.eqb_eq in Ex.
    assert (Hyadd : iy (iadd L) = 1 \/ iy (iadd L) = -1).
    { destruct Hay as [[_ Hy]|[Hy _]]; [|exact Hy].
      destruct Hax as [[_ Hx]|[Hx _]]; [|lia].
      exfalso. apply Hd.
      destruct (istart L) as [sx sy], (iend L) as [ex ey]; cbn [ix iy] in *.
      congruence. }
    destruct (vertical_loop_emits 256
                (mk_xy_int8 (ix (istart L))
                            (int8_t (iy (istart L) + iy (ineg L)))) [])
      as (h & Hrun & Hall);
      [ cbn [ix iy];
        first [ lia | apply int8_t_range | exact Hyadd
              | change (Z.of_nat 256) with 256; apply Z.mod_pos_bound; lia ] ..
      | ].
    exists h. split; [exact Hrun|exact Hall].
  - apply Z.eqb_neq in Ex.
    assert (Hxadd : ix (iadd L) = 1 \/ ix (iadd L) = -1)
      by (destruct Hax as [[Hx _]|[Hx _]]; [lia|exact Hx]).
    destruct (iy (iadd L) =? 0) eqn:Ey.
    + destruct (horizontal_loop_emits 256
                  (mk_xy_int8 (int8_t (ix (istart L) + ix (ineg L)))
                              (iy (istart L))) [])
        as (h & Hrun & Hall);
        [ cbn [ix iy];
          first [ lia | apply int8_t_range | exact Hxadd
                | change (Z.of_nat 256) with 256; apply Z.mod_pos_bound; lia ] ..
        | ].
      exists h. split; [exact Hrun|exact Hall].
    + cbn [ix iy].
      rewrite (int8_t_small (ix (istart L) - ix (iend L))) by lia.
      rewrite (int8_t_small (iy (istart L) - iy (iend L))) by lia.
      rewrite (int8_t_small (Z.abs (ix (istart L) - ix (iend L)))) by lia.
      rewrite (int8_t_small (Z.abs (iy (istart L) - iy (iend L)))) by lia.
      match goal with
      | |- context [general_loop env L ?f ?ic ?cn []] =>
          destruct (general_loop_emits f ic cn [])
            as (h & Hrun & Hall); [ cbn [ix iy]; lia .. | ]
      end.
      exists h. split; [exact Hrun|exact Hall].
Qed.

End EmittedCrossings.

Lemma FINAL_MOVE_as_claimed (env : ubl_env) (e : xyze_pos_t) :
  final_as_claimed env e (FINAL_MOVE env e (cell_indexes env e)).
Proof.
  destruct (FINAL_MOVE_xye env e (cell_indexes env e)) as (Hx & Hy & He).
  repeat split; try assumption.
  unfold FINAL_MOVE, corrected_destination_z, final_z0.
  set (z0 := (cell_bilinear env e (cell_indexes env e)
              * fade_scaling_factor_for_z env (pos_z e))%F).
  assert (Hi : pos_z (if negb (isnan z0)
                      then set_z e (pos_z e + z0)%F else e)
               = if isnan z0 then pos_z e else (pos_z e + z0)%F)
    by (destruct (isnan z0); reflexivity).
  destruct (UBL_Z_RAISE_WHEN_OFF_MESH env) as [r|]; [|exact Hi].
  destruct (cell_index_x_valid env (pos_x e));
    destruct (cell_index_y_valid env (pos_y e)); cbn [negb orb andb];
    first [exact Hi | reflexivity].
Qed.

(** With an infinite E rate a sub-move has the destination's E and Z. *)
Lemma follows_when_rate_infinite (s e p : xyze_pos_t) (corr : float) :
  isinf ((pos_e e - pos_e s)
         / (if fgt (fabs (pos_x e - pos_x s)) (fabs (pos_y e - pos_y s))
            then pos_x e - pos_x s else pos_y e - pos_y s))%F = true ->
  follows_dominant_axis s e p corr ->
  pos_e p = pos_e e /\
  pos_z p = (pos_z e + (if isnan corr then Fin 0 else corr))%F.
Proof.
  intros Hinf H. unfold follows_dominant_axis in H. cbv zeta in H.
  rewrite Hinf in H. exact H.
Qed.

(** C8.  Every sub-move the splitter emits at a mesh-line crossing lies on
    a mesh line and has E and Z interpolated linearly along the dominant
    axis, the one of X and Y with the larger absolute travel: E is the
    start E plus the distance made on that axis times the E rate, Z
    likewise plus the mesh correction; when the E rate is infinite the
    destination's E and Z are used instead.  The mesh correction is the
    edge correction looked up for the crossing point times the fade factor,
    with a NaN replaced by zero.  The final move, when made, carries the
    destination's X, Y and E and the corrected destination Z; a move with
    no travel in X and Y consists of that move alone.  On finite poses no
    coordinate of any emitted pose is NaN. *)
Theorem sub_moves_follow_dominant_axis
    (env : ubl_env) (cur dest : xyze_pos_t) :
  grid_fits env ->
  let s := apply_modifiers env cur in
  let e := apply_modifiers env dest in
  exists crossings final,
    line_to_destination_cartesian env cur dest
    = Some (crossings ++ final, dest) /\
    Forall (crossing_as_claimed env s e) crossings /\
    Forall (final_as_claimed env e) final /\
    (length final <= 1)%nat /\
    (xy_neb s e = false -> crossings = [] /\ length final = 1%nat) /\
    (pos_finite s -> pos_finite e ->
     (forall r, UBL_Z_RAISE_WHEN_OFF_MESH env = Some r -> isnan r = false) ->
     Forall no_nan (crossings ++ final)).
Proof.
  intros Hfit s e.
  set (L := compute_locals env cur dest).
  assert (Hfinal : final_as_claimed env e (FINAL_MOVE env (end_ L) (iend L)))
    by apply FINAL_MOVE_as_claimed.
  assert (Hnan : pos_finite s -> pos_finite e ->
                 (forall r, UBL_Z_RAISE_WHEN_OFF_MESH env = Some r ->
                            isnan r = false) ->
                 no_nan (FINAL_MOVE env (end_ L) (iend L)))
    by (intros _ He Hraise; apply FINAL_MOVE_no_nan; assumption).
  unfold line_to_destination_cartesian. fold L.
  destruct (xy_int8_eqb (istart L) (iend L)) eqn:E.
  - exists [], [FINAL_MOVE env (end_ L) (iend L)].
    split; [reflexivity|]. split; [constructor|].
    split; [constructor; [exact Hfinal|constructor]|].
    split; [cbn; lia|].
    split; [intros _; split; reflexivity|].
    intros Hs He Hraise. constructor; [auto|constructor].
  - assert (Hne : istart L <> iend L).
    { intros H. apply xy_int8_eqb_eq in H. congruence. }
    pose proof (compute_locals_ok env cur dest Hfit Hne) as Hok. fold L in Hok.
    destruct (crossing_moves_spec env L Hok) as (h & Hrun & Hshape).
    destruct (crossing_moves_emitted env L Hok) as (h' & Hrun' & Hall).
    assert (h' = h) by congruence. subst h'. rewrite Hrun.
    exists h, (if xy_neb cur (end_ L)
               then [FINAL_MOVE env (end_ L) (iend L)] else []).
    split; [destruct (xy_neb cur (end_ L)); rewrite ?app_nil_r; reflexivity|].
    split.
    { eapply Forall_impl; [|exact Hall].
      intros p. apply (emitted_is_as_claimed env cur dest). }
    split.
    { destruct (xy_neb cur (end_ L));
        [constructor; [exact Hfinal|constructor]|constructor]. }
    split; [destruct (xy_neb cur (end_ L)); cbn; lia|].
    split.
    { intros Hsame. exfalso. apply Hne.
      exact (xy_neb_false_same_cell env s e Hsame). }
    intros Hs He Hraise.
    pose proof (compute_locals_finite env cur dest Hs He Hne) as Hfin.
    fold L in Hfin.
    pose proof (crossing_shape_ok env L Hfin h Hok Hshape) as Hok'.
    apply Forall_app. split.
    + eapply Forall_impl; [|exact Hok']. intros p [Hp _]. exact Hp.
    + destruct (xy_neb cur (end_ L));
        [constructor; [auto|constructor]|constructor].
Qed.

Lemma sub_moves_follow_dominant_axis_witness :
  let m := Example.machine Example.bump Example.accept_all Example.anywhere in
  let cur := Example.at_xyz 40 40 0 in
  (exists crossings final,
     line_to_destination_cartesian m cur
       (mk_pos (Fin 140) (Fin 45) (Fin 0) (Inf false))
     = Some (crossings ++ final, mk_pos (Fin 140) (Fin 45) (Fin 0) (Inf false)) /\
     Forall (fun p => pos_e p = Inf false) crossings) /\
  (exists crossings final,
     line_to_destination_cartesian m cur (Example.at_xyz 140 45 0)
     = Some (crossings ++ final, Example.at_xyz 140 45 0) /\
     Forall no_nan (crossings ++ final)).
Proof.
  intros m cur. split.
  - destruct (sub_moves_follow_dominant_axis m cur
                (mk_pos (Fin 140) (Fin 45) (Fin 0) (Inf false)))
      as (crossings & final & Hrun & Hall & _).
    + unfold grid_fits. cbn. lia.
    + exists crossings, final. split; [exact Hrun|].
      eapply Forall_impl; [|exact Hall].
      intros p [(i & j & _ & H)|(i & j & _ & H)];
        apply follows_when_rate_infinite in H; try reflexivity;
        exact (proj1 H).
  - destruct (sub_moves_follow_dominant_axis m cur
                (Example.at_xyz 140 45 0))
      as (crossings & final & Hrun & _ & _ & _ & _ & Hnan).
    + unfold grid_fits. cbn. lia.
    + exists crossings, final. split; [exact Hrun|].
      apply Hnan.
      * repeat split.
      * repeat split.
      * intros r H. discriminate H.
Defined.

(** The guarded branch at work: the E travel of this move is infinite, and
    both crossings carry the destination's E and Z (plus the mesh
    correction) instead of interpolated values. *)
Example infinite_rate_scenario :
  line_to_destination_cartesian
    (Example.machine Example.bump Example.accept_all Example.anywhere)
    (Example.at_xyz 40 40 0) (mk_pos (Fin 140) (Fin 45) (Fin 0) (Inf false))
  = Some ([mk_pos (Fin 50) (Fin (81 # 2)) (Fin (81 # 50)) (Inf false);
           mk_pos (Fin 100) (Fin 43) (Fin 0) (Inf false);
           mk_pos (Fin 140) (Fin 45) (Fin 0) (Inf false)],
          mk_pos (Fin 140) (Fin 45) (Fin 0) (Inf false)).
Proof. vm_compute. reflexivity. Qed.

(** ** The last sub-move *)












(** With a constant raise configured, a destination off the mesh gets
    the raise and no interpolated correction. *)
Example off_mesh_raise_scenario :
  line_to_destination_cartesian
    (with_mesh_heights
       (Example.machine Example.bump Example.accept_all Example.anywhere)
       Example.bump (Example.edge_x Example.bump) (Example.edge_y Example.bump)
       (fun _ => Fin 1) (Some (Fin (5 # 2))))
    (Example.at_xyz 155 20 0) (Example.at_xyz 160 20 0)
  = Some ([Example.at_xyz 160 20 (5 # 2)], Example.at_xyz 160 20 0).
Proof. vm_compute. reflexivity. Qed.


(** ** Crossing count of a diagonal move *)

Section DiagonalGeometry.

Variables sx sy ex ey : Q.
Hypothesis Hax : ~ (ex - sx == 0)%Q.
Hypothesis Hay : ~ (ey - sy == 0)%Q.

Lemma line_x_identity (Y : Q) :
  ((ex - line_x sx sy ex ey Y) * (ey - sy) == (ey - Y) * (ex - sx))%Q.
Proof. unfold line_x. field. split; assumption. Qed.

Lemma line_x_before_end_pos (Y : Q) :
  (0 < ex - sx)%Q ->
  (0 < ey - sy /\ Y < ey)%Q \/ (ey - sy < 0 /\ ey < Y)%Q ->
  (line_x sx sy ex ey Y < ex)%Q.
Proof.
  intros Hx H. pose proof (line_x_identity Y) as Hid.
  destruct H as [[Hy HY]|[Hy HY]]; nra.
Qed.

Lemma line_x_before_end_neg (Y : Q) :
  (ex - sx < 0)%Q ->
  (0 < ey - sy /\ Y < ey)%Q \/ (ey - sy < 0 /\ ey < Y)%Q ->
  (ex < line_x sx sy ex ey Y)%Q.
Proof.
  intros Hx H. pose proof (line_x_identity Y) as Hid.
  destruct H as [[Hy HY]|[Hy HY]]; nra.
Qed.

Lemma line_x_beyond_end_pos (Y : Q) :
  (0 < ex - sx)%Q ->
  (0 < ey - sy /\ ey <= Y)%Q \/ (ey - sy < 0 /\ Y <= ey)%Q ->
  (ex <= line_x sx sy ex ey Y)%Q.
Proof.
  intros Hx H. pose proof (line_x_identity Y) as Hid.
  destruct H as [[Hy HY]|[Hy HY]]; nra.
Qed.

Lemma line_x_beyond_end_neg (Y : Q) :
  (ex - sx < 0)%Q ->
  (0 < ey - sy /\ ey <= Y)%Q \/ (ey - sy < 0 /\ Y <= ey)%Q ->
  (line_x sx sy ex ey Y <= ex)%Q.
Proof.
  intros Hx H. pose proof (line_x_identity Y) as Hid.
  destruct H as [[Hy HY]|[Hy HY]]; nra.
Qed.

End DiagonalGeometry.

Lemma mesh_line_le (m d : Q) (i j : Z) :
  (0 < d)%Q -> (i <= j)%Z -> (mesh_line m d i <= mesh_line m d j)%Q.
Proof.
  intros Hd Hij. unfold mesh_line.
  assert (H : (inject_Z i <= inject_Z j)%Q) by (rewrite <- Zle_Qle; exact Hij).
  nra.
Qed.

Lemma mesh_line_succ (m d : Q) (i : Z) :
  (mesh_line m d (i + 1) == mesh_line m d i + d)%Q.
Proof. unfold mesh_line. rewrite inject_Z_plus. ring. Qed.

Lemma get_mesh_x_line (env : ubl_env) (i : Z) :
  exists q, get_mesh_x env i = Fin q /\
            (q == mesh_line (MESH_MIN_X env) (MESH_X_DIST env) i)%Q.
Proof.
  eexists. split; [reflexivity|]. unfold mesh_line.
  rewrite !Qred_correct. reflexivity.
Qed.

(** A coordinate whose raw cell index [i] is valid lies between mesh line
    [i] and mesh line [i + 1]. *)
Lemma cell_index_floor (m d x : Q) :
  (0 < d)%Q ->
  let i := FLOOR ((Fin x - Fin m) * RECIPROCAL (Fin d))%F in
  (mesh_line m d i <= x)%Q /\ (x < mesh_line m d (i + 1))%Q.
Proof.
  intros Hd i. unfold i, RECIPROCAL, FLOOR.
  rewrite fdiv_Fin by lra. cbn [fsub fmul].
  set (t := Qred (Qred (x - m) * Qred (1 / d))).
  assert (Ht : (t * d == x - m)%Q).
  { unfold t. rewrite !Qred_correct. field. lra. }
  pose proof (Qfloor_le t) as Hlo. pose proof (Qlt_floor t) as Hhi.
  unfold mesh_line. rewrite inject_Z_plus in *. change (inject_Z 1) with 1%Q in *.
  split; nra.
Qed.

Section GeneralLoopCount.

Variable env : ubl_env.
Variable L : line_locals.

Hypothesis Haccept : forall hist p, buffer_segment env hist p = true.
Hypothesis Hiadd_x : ix (iadd L) = 1 \/ ix (iadd L) = -1.
Hypothesis Hiadd_y : iy (iadd L) = 1 \/ iy (iadd L) = -1.
Hypothesis Hend_x : 0 <= ix (iend L) + ix (ineg L) <= 127.
Hypothesis Hend_y : 0 <= iy (iend L) + iy (ineg L) <= 127.
Hypothesis Hy_first : forall ny, 2 <= ny ->
  y_line_first env L (ix (iend L) + ix (ineg L) + ix (iadd L))
    (iy (iend L) + iy (ineg L) - iy (iadd L) * (ny - 1)) = true.
Hypothesis Hx_first : forall nx, 2 <= nx ->
  y_line_first env L (ix (iend L) + ix (ineg L) - ix (iadd L) * (nx - 1))
    (iy (iend L) + iy (ineg L) + iy (iadd L)) = false.

Lemma general_loop_count (fuel : nat) :
  forall (icell cnt : xy_int8_t) (hist : list xyze_pos_t),
    0 <= ix cnt <= 127 -> 0 <= iy cnt <= 127 ->
    ix icell = ix (iend L) + ix (ineg L) - ix (iadd L) * ix cnt ->
    iy icell = iy (iend L) + iy (ineg L) - iy (iadd L) * iy cnt ->
    -128 <= ix icell <= 127 -> -128 <= iy icell <= 127 ->
    ix cnt + iy cnt < Z.of_nat fuel ->
    exists h, general_loop env L fuel icell cnt hist = Some (hist ++ h) /\
              Z.of_nat (length h) = ix cnt + iy cnt /\
              Forall (fun p => on_y_line_general env L p \/ on_x_line env L p) h.
Proof.
  induction fuel as [|fuel IH];
    intros icell cnt hist Hnx Hny Hix Hiy Hrx Hry Hfuel; [lia|].
  cbn [general_loop].
  destruct ((ix cnt =? 0) && (iy cnt =? 0)) eqn:E0.
  - apply andb_true_iff in E0. rewrite !Z.eqb_eq in E0.
    exists []. rewrite app_nil_r. split; [reflexivity|].
    split; [simpl; lia|constructor].
  - apply andb_false_iff in E0. rewrite !Z.eqb_neq in E0.
    cbn [ix iy].
    match goal with
    | |- context [if Bool.eqb ?a ?b then _ else _] =>
        change (Bool.eqb a b)
          with (y_line_first env L (ix icell + ix (iadd L))
                                   (iy icell + iy (iadd L)))
    end.
    destruct (y_line_first env L (ix icell + ix (iadd L))
                                 (iy icell + iy (iadd L))) eqn:E.
    + (* crossing a Y mesh line *)
      rewrite Haccept. cbn [negb].
      assert (Hcase : iy cnt = 0 /\ ix cnt = 1 \/ 1 <= iy cnt).
      { destruct (Z.eq_dec (iy cnt) 0) as [Hz|Hz]; [left|right; lia].
        split; [exact Hz|].
        destruct (Z_lt_le_dec (ix cnt) 2) as [Hlt|Hge]; [lia|].
        exfalso. specialize (Hx_first (ix cnt) Hge).
        replace (ix icell + ix (iadd L))
          with (ix (iend L) + ix (ineg L) - ix (iadd L) * (ix cnt - 1)) in E
          by (rewrite Hix; lia).
        replace (iy icell + iy (iadd L))
          with (iy (iend L) + iy (ineg L) + iy (iadd L)) in E
          by (rewrite Hiy, Hz; lia).
        congruence. }
      match goal with
      | |- context [hist ++ [?d]] =>
          set (dest := d);
          assert (Hshape : on_y_line_general env L dest \/ on_x_line env L dest)
            by (left; eexists (iy icell + iy (iadd L)), _; reflexivity)
      end.
      destruct Hcase as [[Hz Hone]|Hpos].
      * rewrite Hz. change (int8_t (0 - 1)) with (-1).
        replace ((ix cnt <? 0) || (-1 <? 0)) with true
          by (symmetry; apply orb_true_iff; right; reflexivity).
        exists [dest]. split; [reflexivity|].
        split; [simpl; lia|]. constructor; [exact Hshape|constructor].
      * rewrite (int8_t_small (iy cnt - 1)) by lia.
        replace ((ix cnt <? 0) || (iy cnt - 1 <? 0)) with false
          by (symmetry; apply orb_false_iff; rewrite !Z.ltb_ge; lia).
        assert (Hrange : -128 <= iy icell + iy (iadd L) <= 127).
        { destruct Hiadd_y as [Hs|Hs]; rewrite Hs in *; lia. }
        rewrite (int8_t_small _ Hrange).
        destruct (IH (mk_xy_int8 (ix icell) (iy icell + iy (iadd L)))
                     (mk_xy_int8 (ix cnt) (iy cnt - 1)) (hist ++ [dest]))
          as (h & Hrun & Hlen & Hall); [cbn [ix iy]; lia .. | ].
        exists (dest :: h). split; [|split].
        -- rewrite Hrun, <- app_assoc. reflexivity.
        -- cbn [length ix iy] in *. lia.
        -- constructor; assumption.
    + (* crossing an X mesh line *)
      rewrite Haccept. cbn [negb].
      assert (Hcase : ix cnt = 0 /\ iy cnt = 1 \/ 1 <= ix cnt).
      { destruct (Z.eq_dec (ix cnt) 0) as [Hz|Hz]; [left|right; lia].
        split; [exact Hz|].
        destruct (Z_lt_le_dec (iy cnt) 2) as [Hlt|Hge]; [lia|].
        exfalso. specialize (Hy_first (iy cnt) Hge).
        replace (ix icell + ix (iadd L))
          with (ix (iend L) + ix (ineg L) + ix (iadd L)) in E
          by (rewrite Hix, Hz; lia).
        replace (iy icell + iy (iadd L))
          with (iy (iend L) + iy (ineg L) - iy (iadd L) * (iy cnt - 1)) in E
          by (rewrite Hiy; lia).
        congruence. }
      match goal with
      | |- context [hist ++ [?d]] =>
          set (dest := d);
          assert (Hshape : on_y_line_general env L dest \/ on_x_line env L dest)
            by (right; eexists (ix icell + ix (iadd L)), _; reflexivity)
      end.
      destruct Hcase as [[Hz Hone]|Hpos].
      * rewrite Hz. change (int8_t (0 - 1)) with (-1).
        replace ((-1 <? 0) || (iy cnt <? 0)) with true by reflexivity.
        exists [dest]. split; [reflexivity|].
        split; [simpl; lia|]. constructor; [exact Hshape|constructor].
      * rewrite (int8_t_small (ix cnt - 1)) by lia.
        replace ((ix cnt - 1 <? 0) || (iy cnt <? 0)) with false
          by (symmetry; apply orb_false_iff; rewrite !Z.ltb_ge; lia).
        assert (Hrange : -128 <= ix icell + ix (iadd L) <= 127).
        { destruct Hiadd_x as [Hs|Hs]; rewrite Hs in *; lia. }
        rewrite (int8_t_small _ Hrange).
        destruct (IH (mk_xy_int8 (ix icell + ix (iadd L)) (iy icell))
                     (mk_xy_int8 (ix cnt - 1) (iy cnt)) (hist ++ [dest]))
          as (h & Hrun & Hlen & Hall); [cbn [ix iy]; lia .. | ].
        exists (dest :: h). split; [|split].
        -- rewrite Hrun, <- app_assoc. reflexivity.
        -- cbn [length ix iy] in *. lia.
        -- constructor; assumption.
Qed.

End GeneralLoopCount.

Lemma constrain_valid (v hi : Z) :
  WITHIN_Z v 0 hi = true -> constrain v 0 hi = v.
Proof.
  unfold WITHIN_Z, constrain. intros H. apply andb_true_iff in H.
  destruct H as [H1 H2]. apply Z.leb_le in H1, H2.
  destruct (v <? 0) eqn:E1; [apply Z.ltb_lt in E1; lia|].
  destruct (hi <? v) eqn:E2; [apply Z.ltb_lt in E2; lia|]. reflexivity.
Qed.

Lemma constrain_mono (u v hi : Z) :
  (u <= v)%Z -> (constrain u 0 hi <= constrain v 0 hi)%Z \/ (hi < 0)%Z.
Proof.
  intros H. unfold constrain.
  destruct (u <? 0) eqn:E1; destruct (v <? 0) eqn:E2;
    destruct (hi <? u) eqn:E3; destruct (hi <? v) eqn:E4;
    rewrite ?Z.ltb_lt, ?Z.ltb_ge in *; lia.
Qed.

Lemma cell_index_raw_mono (m d a b : Q) :
  (0 < d)%Q -> (a <= b)%Q ->
  (FLOOR ((Fin a - Fin m) * RECIPROCAL (Fin d))%F
   <= FLOOR ((Fin b - Fin m) * RECIPROCAL (Fin d))%F)%Z.
Proof.
  intros Hd Hab. unfold RECIPROCAL, FLOOR.
  rewrite fdiv_Fin by lra. cbn [fsub fmul].
  apply Qfloor_resp_le. rewrite !Qred_correct.
  assert (Hinv : (0 < 1 / d)%Q) by (apply Qlt_shift_div_l; lra).
  nra.
Qed.

Lemma cell_index_x_mono (env : ubl_env) (a b : Q) :
  grid_fits env -> (0 < MESH_X_DIST env)%Q -> (a <= b)%Q ->
  (cell_index_x env (Fin a) <= cell_index_x env (Fin b))%Z.
Proof.
  intros [Hx _] Hd Hab. unfold cell_index_x, cell_index_x_raw.
  destruct (constrain_mono _ _ (GRID_MAX_CELLS_X env - 1)
              (cell_index_raw_mono (MESH_MIN_X env) _ a b Hd Hab)); lia.
Qed.

Lemma cell_index_y_mono (env : ubl_env) (a b : Q) :
  grid_fits env -> (0 < MESH_Y_DIST env)%Q -> (a <= b)%Q ->
  (cell_index_y env (Fin a) <= cell_index_y env (Fin b))%Z.
Proof.
  intros [_ Hy] Hd Hab. unfold cell_index_y, cell_index_y_raw.
  destruct (constrain_mono _ _ (GRID_MAX_CELLS_Y env - 1)
              (cell_index_raw_mono (MESH_MIN_Y env) _ a b Hd Hab)); lia.
Qed.

Section DiagonalMove.

Variable env : ubl_env.
Variables cur dest : xyze_pos_t.
Variables sx sy ex ey : Q.
Variables sz se ez ee : float.

Let L := compute_locals env cur dest.
Let mx := MESH_MIN_X env.
Let my := MESH_MIN_Y env.
Let dx := MESH_X_DIST env.
Let dy := MESH_Y_DIST env.

Hypothesis Hstart : apply_modifiers env cur = mk_pos (Fin sx) (Fin sy) sz se.
Hypothesis Hend : apply_modifiers env dest = mk_pos (Fin ex) (Fin ey) ez ee.
Hypothesis Hdx : (0 < dx)%Q.
Hypothesis Hdy : (0 < dy)%Q.
Hypothesis Hfit : grid_fits env.
Hypothesis Hcol : ix (istart L) <> ix (iend L).
Hypothesis Hrow : iy (istart L) <> iy (iend L).

Lemma diag_istart :
  istart L = mk_xy_int8 (cell_index_x env (Fin sx)) (cell_index_y env (Fin sy)).
Proof. unfold L, compute_locals. cbn [istart]. rewrite Hstart. reflexivity. Qed.

Lemma diag_iend :
  iend L = mk_xy_int8 (cell_index_x env (Fin ex)) (cell_index_y env (Fin ey)).
Proof. unfold L, compute_locals. cbn [iend]. rewrite Hend. reflexivity. Qed.

Lemma diag_ax : ~ (ex - sx == 0)%Q.
Proof.
  intros H. apply (cell_index_x_differ env sx ex).
  - rewrite diag_istart, diag_iend in Hcol. exact Hcol.
  - rewrite Qred_correct. exact H.
Qed.

Lemma diag_ay : ~ (ey - sy == 0)%Q.
Proof.
  intros H. apply (cell_index_y_differ env sy ey).
  - rewrite diag_istart, diag_iend in Hrow. exact Hrow.
  - rewrite Qred_correct. exact H.
Qed.

Lemma diag_neg_x : neg_x L = true <-> (ex - sx < 0)%Q.
Proof.
  unfold L, compute_locals. cbn [neg_x]. rewrite Hstart, Hend.
  cbn [pos_x fsub]. rewrite flt_Fin, Qred_correct. reflexivity.
Qed.

Lemma diag_neg_y : neg_y L = true <-> (ey - sy < 0)%Q.
Proof.
  unfold L, compute_locals. cbn [neg_y]. rewrite Hstart, Hend.
  cbn [pos_y fsub]. rewrite flt_Fin, Qred_correct. reflexivity.
Qed.

Lemma diag_ineg :
  ix (ineg L) = Z_of_bool (neg_x L) /\ iy (ineg L) = Z_of_bool (neg_y L).
Proof. split; reflexivity. Qed.

Lemma diag_iadd :
  ix (iadd L) = (if neg_x L then -1 else 1)%Z /\
  iy (iadd L) = (if neg_y L then -1 else 1)%Z.
Proof.
  unfold L in *. unfold compute_locals in *.
  cbn [istart iend iadd neg_x neg_y ix iy] in *.
  split.
  - destruct (ix (cell_indexes env (apply_modifiers env dest))
              =? ix (cell_indexes env (apply_modifiers env cur)))%Z eqn:E.
    + apply Z.eqb_eq in E. congruence.
    + match goal with |- context [flt ?a ?b] => destruct (flt a b) end;
        reflexivity.
  - destruct (iy (cell_indexes env (apply_modifiers env dest))
              =? iy (cell_indexes env (apply_modifiers env cur)))%Z eqn:E.
    + apply Z.eqb_eq in E. congruence.
    + match goal with |- context [flt ?a ?b] => destruct (flt a b) end;
        reflexivity.
Qed.

(** The X the loop computes for mesh line [j] is the X of the move's line
    at that height. *)
Lemma diag_dest_x (j : Z) :
  exists q, ((get_mesh_y env j - c L) / ratio L)%F = Fin q /\
            (q == line_x sx sy ex ey (mesh_line my dy j))%Q.
Proof.
  pose proof diag_ax as Hax. pose proof diag_ay as Hay.
  unfold L, compute_locals. cbn [c ratio]. rewrite Hstart, Hend.
  cbn [pos_x pos_y fsub].
  assert (Hax' : ~ (Qred (ex - sx) == 0)%Q) by (rewrite Qred_correct; exact Hax).
  assert (Hay' : ~ (Qred (ey - sy) == 0)%Q) by (rewrite Qred_correct; exact Hay).
  rewrite (fdiv_Fin _ _ Hax').
  pose proof (Qdiv_nonzero _ _ Hay' Hax') as Hr.
  unfold get_mesh_y, float_of_Z. cbn [fmul fadd fsub].
  rewrite (fdiv_Fin _ _ Hr).
  eexists. split; [reflexivity|].
  unfold line_x, mesh_line, my, dy. rewrite !Qred_correct. reflexivity.
Qed.

Lemma diag_y_line_first (i j : Z) :
  y_line_first env L i j = true <->
  if neg_x L
  then (mesh_line mx dx i < line_x sx sy ex ey (mesh_line my dy j))%Q
  else (line_x sx sy ex ey (mesh_line my dy j) <= mesh_line mx dx i)%Q.
Proof.
  unfold y_line_first, fgt.
  destruct (diag_dest_x j) as (q & -> & Hq).
  destruct (get_mesh_x_line env i) as (xq & -> & Hxq).
  fold mx dx in Hxq.
  destruct (neg_x L); cbn [Bool.eqb]; rewrite <- Hq, <- Hxq.
  - destruct (flt (Fin xq) (Fin q)) eqn:E.
    + apply flt_Fin in E. tauto.
    + apply flt_Fin_false in E. split; [discriminate|].
      intros H. exfalso. exact (Qlt_not_le _ _ H E).
  - destruct (flt (Fin xq) (Fin q)) eqn:E.
    + apply flt_Fin in E. split; [discriminate|].
      intros H. exfalso. exact (Qlt_not_le _ _ E H).
    + apply flt_Fin_false in E. tauto.
Qed.

(** Signs of the travel, from the direction flags. *)
Lemma diag_sign_x : if neg_x L then (ex - sx < 0)%Q else (0 < ex - sx)%Q.
Proof.
  pose proof diag_ax as Hax. pose proof diag_neg_x as Hn.
  destruct (neg_x L).
  - apply Hn. reflexivity.
  - destruct (Qlt_le_dec (ex - sx) 0) as [H|H].
    + apply Hn in H. discriminate.
    + destruct (Qle_lt_or_eq _ _ H) as [H'|H']; [exact H'|].
      exfalso. apply Hax. symmetry. exact H'.
Qed.

Lemma diag_sign_y : if neg_y L then (ey - sy < 0)%Q else (0 < ey - sy)%Q.
Proof.
  pose proof diag_ay as Hay. pose proof diag_neg_y as Hn.
  destruct (neg_y L).
  - apply Hn. reflexivity.
  - destruct (Qlt_le_dec (ey - sy) 0) as [H|H].
    + apply Hn in H. discriminate.
    + destruct (Qle_lt_or_eq _ _ H) as [H'|H']; [exact H'|].
      exfalso. apply Hay. symmetry. exact H'.
Qed.

(** The cell index moves the way the coordinate does. *)
Lemma diag_direction_x :
  (ix (istart L) + ix (iadd L) * Z.abs (ix (istart L) - ix (iend L))
   = ix (iend L))%Z.
Proof.
  destruct diag_iadd as [Hax _]. rewrite Hax.
  pose proof diag_sign_x as Hsx. rewrite diag_istart, diag_iend. cbn [ix].
  destruct (neg_x L).
  - pose proof (cell_index_x_mono env ex sx Hfit Hdx ltac:(lra)). lia.
  - pose proof (cell_index_x_mono env sx ex Hfit Hdx ltac:(lra)). lia.
Qed.

Lemma diag_direction_y :
  (iy (istart L) + iy (iadd L) * Z.abs (iy (istart L) - iy (iend L))
   = iy (iend L))%Z.
Proof.
  destruct diag_iadd as [_ Hay]. rewrite Hay.
  pose proof diag_sign_y as Hsy. rewrite diag_istart, diag_iend. cbn [iy].
  destruct (neg_y L).
  - pose proof (cell_index_y_mono env ey sy Hfit Hdy ltac:(lra)). lia.
  - pose proof (cell_index_y_mono env sy ey Hfit Hdy ltac:(lra)). lia.
Qed.

Hypothesis Hvx : cell_index_x_valid env (Fin ex) = true.
Hypothesis Hvy : cell_index_y_valid env (Fin ey) = true.

Lemma diag_end_x :
  (mesh_line mx dx (ix (iend L)) <= ex)%Q /\
  (ex < mesh_line mx dx (ix (iend L) + 1))%Q.
Proof.
  rewrite diag_iend. cbn [ix]. unfold cell_index_x.
  rewrite (constrain_valid _ _ Hvx).
  apply (cell_index_floor mx dx ex Hdx).
Qed.

Lemma diag_end_y :
  (mesh_line my dy (iy (iend L)) <= ey)%Q /\
  (ey < mesh_line my dy (iy (iend L) + 1))%Q.
Proof.
  rewrite diag_iend. cbn [iy]. unfold cell_index_y.
  rewrite (constrain_valid _ _ Hvy).
  apply (cell_index_floor my dy ey Hdy).
Qed.

(** With no X line left to cross and two or more Y lines left, the loop
    takes the Y line. *)
Lemma diag_y_first_when_x_done (ny : Z) :
  (2 <= ny)%Z ->
  y_line_first env L (ix (iend L) + ix (ineg L) + ix (iadd L))
    (iy (iend L) + iy (ineg L) - iy (iadd L) * (ny - 1)) = true.
Proof.
  intros Hny. apply diag_y_line_first.
  destruct diag_ineg as [Hnx Hny']. destruct diag_iadd as [Hax Hay].
  rewrite Hnx, Hny', Hax, Hay.
  pose proof diag_sign_x as Hsx. pose proof diag_sign_y as Hsy.
  destruct diag_end_x as [Hxl Hxh]. destruct diag_end_y as [Hyl Hyh].
  pose proof (mesh_line_succ my dy (iy (iend L))) as Hys.
  pose proof (mesh_line_succ mx dx (ix (iend L))) as Hxs.
  destruct (neg_x L); destruct (neg_y L); cbn [Z_of_bool].
  - pose proof (mesh_line_le my dy (iy (iend L) + 1)
                  (iy (iend L) + 1 - -1 * (ny - 1)) Hdy ltac:(lia)) as Hm.
    pose proof (line_x_before_end_neg sx sy ex ey diag_ax diag_ay
                  (mesh_line my dy (iy (iend L) + 1 - -1 * (ny - 1))) Hsx
                  ltac:(right; split; [exact Hsy|lra])) as Hl.
    replace (ix (iend L) + 1 + -1)%Z with (ix (iend L)) by lia. lra.
  - pose proof (mesh_line_le my dy (iy (iend L) + 0 - 1 * (ny - 1))
                  (iy (iend L) - 1) Hdy ltac:(lia)) as Hm.
    pose proof (mesh_line_succ my dy (iy (iend L) - 1)) as Hys'.
    replace (iy (iend L) - 1 + 1)%Z with (iy (iend L)) in Hys' by lia.
    pose proof (line_x_before_end_neg sx sy ex ey diag_ax diag_ay
                  (mesh_line my dy (iy (iend L) + 0 - 1 * (ny - 1))) Hsx
                  ltac:(left; split; [exact Hsy|lra])) as Hl.
    replace (ix (iend L) + 1 + -1)%Z with (ix (iend L)) by lia. lra.
  - pose proof (mesh_line_le my dy (iy (iend L) + 1)
                  (iy (iend L) + 1 - -1 * (ny - 1)) Hdy ltac:(lia)) as Hm.
    pose proof (line_x_before_end_pos sx sy ex ey diag_ax diag_ay
                  (mesh_line my dy (iy (iend L) + 1 - -1 * (ny - 1))) Hsx
                  ltac:(right; split; [exact Hsy|lra])) as Hl.
    replace (ix (iend L) + 0 + 1)%Z with (ix (iend L) + 1)%Z by lia. lra.
  - pose proof (mesh_line_le my dy (iy (iend L) + 0 - 1 * (ny - 1))
                  (iy (iend L) - 1) Hdy ltac:(lia)) as Hm.
    pose proof (mesh_line_succ my dy (iy (iend L) - 1)) as Hys'.
    replace (iy (iend L) - 1 + 1)%Z with (iy (iend L)) in Hys' by lia.
    pose proof (line_x_before_end_pos sx sy ex ey diag_ax diag_ay
                  (mesh_line my dy (iy (iend L) + 0 - 1 * (ny - 1))) Hsx
                  ltac:(left; split; [exact Hsy|lra])) as Hl.
    replace (ix (iend L) + 0 + 1)%Z with (ix (iend L) + 1)%Z by lia. lra.
Qed.

(** With no Y line left to cross and two or more X lines left, the loop
    takes the X line. *)
Lemma diag_x_first_when_y_done (nx : Z) :
  (2 <= nx)%Z ->
  y_line_first env L (ix (iend L) + ix (ineg L) - ix (iadd L) * (nx - 1))
    (iy (iend L) + iy (ineg L) + iy (iadd L)) = false.
Proof.
  intros Hnx.
  destruct (y_line_first env L
              (ix (iend L) + ix (ineg L) - ix (iadd L) * (nx - 1))
              (iy (iend L) + iy (ineg L) + iy (iadd L))) eqn:E;
    [exfalso|reflexivity].
  apply diag_y_line_first in E. revert E.
  destruct diag_ineg as [Hnx' Hny]. destruct diag_iadd as [Hax Hay].
  rewrite Hnx', Hny, Hax, Hay.
  pose proof diag_sign_x as Hsx. pose proof diag_sign_y as Hsy.
  destruct diag_end_x as [Hxl Hxh]. destruct diag_end_y as [Hyl Hyh].
  destruct (neg_x L); destruct (neg_y L); cbn [Z_of_bool]; intros E.
  - pose proof (mesh_line_le mx dx (ix (iend L) + 1)
                  (ix (iend L) + 1 - -1 * (nx - 1)) Hdx ltac:(lia)) as Hm.
    replace (iy (iend L) + 1 + -1)%Z with (iy (iend L)) in E by lia.
    pose proof (line_x_beyond_end_neg sx sy ex ey diag_ax diag_ay
                  (mesh_line my dy (iy (iend L))) Hsx
                  ltac:(right; split; [exact Hsy|lra])) as Hl.
    lra.
  - pose proof (mesh_line_le mx dx (ix (iend L) + 1)
                  (ix (iend L) + 1 - -1 * (nx - 1)) Hdx ltac:(lia)) as Hm.
    replace (iy (iend L) + 0 + 1)%Z with (iy (iend L) + 1)%Z in E by lia.
    pose proof (line_x_beyond_end_neg sx sy ex ey diag_ax diag_ay
                  (mesh_line my dy (iy (iend L) + 1)) Hsx
                  ltac:(left; split; [exact Hsy|lra])) as Hl.
    lra.
  - pose proof (mesh_line_le mx dx (ix (iend L) + 0 - 1 * (nx - 1))
                  (ix (iend L) - 1) Hdx ltac:(lia)) as Hm.
    pose proof (mesh_line_succ mx dx (ix (iend L) - 1)) as Hxs.
    replace (ix (iend L) - 1 + 1)%Z with (ix (iend L)) in Hxs by lia.
    replace (iy (iend L) + 1 + -1)%Z with (iy (iend L)) in E by lia.
    pose proof (line_x_beyond_end_pos sx sy ex ey diag_ax diag_ay
                  (mesh_line my dy (iy (iend L))) Hsx
                  ltac:(right; split; [exact Hsy|lra])) as Hl.
    lra.
  - pose proof (mesh_line_le mx dx (ix (iend L) + 0 - 1 * (nx - 1))
                  (ix (iend L) - 1) Hdx ltac:(lia)) as Hm.
    pose proof (mesh_line_succ mx dx (ix (iend L) - 1)) as Hxs.
    replace (ix (iend L) - 1 + 1)%Z with (ix (iend L)) in Hxs by lia.
    replace (iy (iend L) + 0 + 1)%Z with (iy (iend L) + 1)%Z in E by lia.
    pose proof (line_x_beyond_end_pos sx sy ex ey diag_ax diag_ay
                  (mesh_line my dy (iy (iend L) + 1)) Hsx
                  ltac:(left; split; [exact Hsy|lra])) as Hl.
    lra.
Qed.

Hypothesis Haccept : forall hist p, buffer_segment env hist p = true.

Lemma diag_crossing_moves :
  exists h,
    crossing_moves env L = Some h /\
    Z.of_nat (length h)
    = (Z.abs (ix (istart L) - ix (iend L))
       + Z.abs (iy (istart L) - iy (iend L)))%Z /\
    Forall (fun p => on_y_line_general env L p \/ on_x_line env L p) h.
Proof.
  destruct diag_iadd as [Hax Hay]. destruct diag_ineg as [Hnx Hny].
  pose proof diag_direction_x as Hdirx. pose proof diag_direction_y as Hdiry.
  assert (Hrs : (0 <= ix (istart L) <= 126 /\ 0 <= iy (istart L) <= 126)%Z)
    by (rewrite diag_istart; apply (cell_indexes_range env
          (mk_pos (Fin sx) (Fin sy) sz se) Hfit)).
  assert (Hre : (0 <= ix (iend L) <= 126 /\ 0 <= iy (iend L) <= 126)%Z)
    by (rewrite diag_iend; apply (cell_indexes_range env
          (mk_pos (Fin ex) (Fin ey) ez ee) Hfit)).
  assert (Hiax : (ix (iadd L) = 1 /\ ix (ineg L) = 0 \/
                  ix (iadd L) = -1 /\ ix (ineg L) = 1)%Z)
    by (rewrite Hax, Hnx; destruct (neg_x L); cbn; auto).
  assert (Hiay : (iy (iadd L) = 1 /\ iy (ineg L) = 0 \/
                  iy (iadd L) = -1 /\ iy (ineg L) = 1)%Z)
    by (rewrite Hay, Hny; destruct (neg_y L); cbn; auto).
  unfold crossing_moves.
  replace (ix (iadd L) =? 0)%Z with false
    by (symmetry; apply Z.eqb_neq; lia).
  replace (iy (iadd L) =? 0)%Z with false
    by (symmetry; apply Z.eqb_neq; lia).
  cbn [ix iy].
  rewrite (int8_t_small (ix (istart L) - ix (iend L))) by lia.
  rewrite (int8_t_small (iy (istart L) - iy (iend L))) by lia.
  rewrite (int8_t_small (Z.abs (ix (istart L) - ix (iend L)))) by lia.
  rewrite (int8_t_small (Z.abs (iy (istart L) - iy (iend L)))) by lia.
  rewrite (int8_t_small (ix (istart L) + ix (ineg L))) by lia.
  rewrite (int8_t_small (iy (istart L) + iy (ineg L))) by lia.
  match goal with
  | |- context [general_loop env L ?f ?ic ?cn []] =>
      destruct (general_loop_count env L Haccept
                  ltac:(lia) ltac:(lia) ltac:(lia) ltac:(lia)
                  diag_y_first_when_x_done diag_x_first_when_y_done
                  f ic cn [])
        as (h & Hrun & Hlen & Hall); [cbn [ix iy]; lia .. | ]
  end.
  exists h. split; [exact Hrun|]. split; [exact Hlen|exact Hall].
Qed.

End DiagonalMove.

Lemma on_line_is_on_gridline (env : ubl_env) (L : line_locals) (p : xyze_pos_t) :
  on_y_line_general env L p \/ on_x_line env L p ->
  (exists i, pos_x p = get_mesh_x env i) \/
  (exists j, pos_y p = get_mesh_y env j).
Proof.
  intros [(j & corr & ->)|(i & corr & ->)].
  - right. exists j. unfold crossing_move.
    destruct (negb (inf_normalized_flag L)); reflexivity.
  - left. exists i. unfold crossing_move.
    destruct (negb (inf_normalized_flag L)); reflexivity.
Qed.

(** C4, as amended.  For a general (diagonal) move, one whose start and
    end cell indices differ on both axes, whose destination lies on the
    mesh (its cell index is not clamped) and every sub-move of which the
    planner accepts, the number of sub-moves emitted before the final move
    is |delta column| + |delta row|, and each of them has its X on a
    vertical mesh line or its Y on a horizontal mesh line. *)
Theorem diagonal_move_crosses_each_line_once
    (env : ubl_env) (cur dest : xyze_pos_t) :
  let L := compute_locals env cur dest in
  grid_fits env ->
  (0 < MESH_X_DIST env)%Q -> (0 < MESH_Y_DIST env)%Q ->
  xy_finite (start L) -> xy_finite (end_ L) ->
  cell_index_x_valid env (pos_x (end_ L)) = true ->
  cell_index_y_valid env (pos_y (end_ L)) = true ->
  (forall hist p, buffer_segment env hist p = true) ->
  ix (istart L) <> ix (iend L) -> iy (istart L) <> iy (iend L) ->
  exists h,
    line_to_destination_cartesian env cur dest
    = Some (if xy_neb cur (end_ L)
            then h ++ [FINAL_MOVE env (end_ L) (iend L)] else h, dest) /\
    Z.of_nat (length h)
    = Z.abs (ix (istart L) - ix (iend L))
      + Z.abs (iy (istart L) - iy (iend L)) /\
    Forall (fun p => (exists i, pos_x p = get_mesh_x env i) \/
                     (exists j, pos_y p = get_mesh_y env j)) h.
Proof.
  intros L Hfit Hdx Hdy [Hsx Hsy] [Hex Hey] Hvx Hvy Hacc Hcol Hrow.
  assert (Hs : exists sx sy sz se,
             apply_modifiers env cur = mk_pos (Fin sx) (Fin sy) sz se).
  { unfold L, compute_locals in Hsx, Hsy. cbn [start] in Hsx, Hsy.
    destruct (apply_modifiers env cur) as [x y z e]. cbn [pos_x pos_y] in *.
    destruct (isfinite_Fin _ Hsx) as [sx ->].
    destruct (isfinite_Fin _ Hsy) as [sy ->]. eauto. }
  assert (He : exists ex ey ez ee,
             apply_modifiers env dest = mk_pos (Fin ex) (Fin ey) ez ee).
  { unfold L, compute_locals in Hex, Hey. cbn [end_] in Hex, Hey.
    destruct (apply_modifiers env dest) as [x y z e]. cbn [pos_x pos_y] in *.
    destruct (isfinite_Fin _ Hex) as [ex ->].
    destruct (isfinite_Fin _ Hey) as [ey ->]. eauto. }
  destruct Hs as (sx & sy & sz & se & Hs).
  destruct He as (ex & ey & ez & ee & He).
  assert (Hend : end_ L = mk_pos (Fin ex) (Fin ey) ez ee) by exact He.
  rewrite Hend in Hvx, Hvy. cbn [pos_x pos_y] in Hvx, Hvy.
  destruct (diag_crossing_moves env cur dest sx sy ex ey sz se ez ee)
    as (h & Hrun & Hlen & Hall); try assumption.
  fold L in Hrun, Hlen, Hall.
  exists h. split; [|split].
  - unfold line_to_destination_cartesian. fold L.
    replace (xy_int8_eqb (istart L) (iend L)) with false.
    + rewrite Hrun. destruct (xy_neb cur (end_ L)); reflexivity.
    + symmetry. unfold xy_int8_eqb. apply andb_false_iff. left.
      apply Z.eqb_neq. exact Hcol.
  - exact Hlen.
  - eapply Forall_impl; [|exact Hall].
    intros p. apply on_line_is_on_gridline.
Qed.

Lemma diagonal_move_crosses_each_line_once_witness :
  let m := Example.machine Example.bump Example.accept_all Example.anywhere in
  exists h,
    line_to_destination_cartesian m (Example.at_xyz 5 5 0)
      (Example.at_xyz 140 110 0)
    = Some (h ++ [FINAL_MOVE m (Example.at_xyz 140 110 0) (mk_xy_int8 2 2)],
            Example.at_xyz 140 110 0) /\
    length h = 4%nat.
Proof.
  intros m.
  destruct (diagonal_move_crosses_each_line_once m (Example.at_xyz 5 5 0)
              (Example.at_xyz 140 110 0)) as (h & Hrun & Hlen & _).
  - unfold grid_fits. cbn. lia.
  - reflexivity.
  - reflexivity.
  - split; reflexivity.
  - split; reflexivity.
  - reflexivity.
  - reflexivity.
  - reflexivity.
  - cbn. lia.
  - cbn. lia.
  - exists h. split; [exact Hrun|].
    apply Nat2Z.inj. rewrite Hlen. reflexivity.
Defined.

(** C4 as stated fails.  A destination off the mesh has a clamped cell
    index: the move from (4, 11) to (400, 110) changes cell index by 2
    columns and 2 rows, but crosses the X lines 50, 100 and 150 before any
    Y line and then leaves the loop, three sub-moves before the final one.
    And when the planner refuses the first crossing of the move from
    (40, 40) to (60, 60), one sub-move precedes the final one, not two. *)
Lemma diagonal_crossing_count_counterexample :
  let m := Example.machine Example.bump Example.accept_all Example.anywhere in
  let r := Example.machine Example.bump Example.reject_all Example.anywhere in
  (cell_indexes m (Example.at_xyz 4 11 0) = mk_xy_int8 0 0 /\
   cell_indexes m (Example.at_xyz 400 110 0) = mk_xy_int8 2 2 /\
   line_to_destination_cartesian m (Example.at_xyz 4 11 0)
     (Example.at_xyz 400 110 0)
   = Some ([Example.at_xyz 50 (45 # 2) (9 # 10); Example.at_xyz 100 35 0;
            Example.at_xyz 150 (95 # 2) 0; Example.at_xyz 400 110 0],
           Example.at_xyz 400 110 0)) /\
  (cell_indexes r (Example.at_xyz 40 40 0) = mk_xy_int8 0 0 /\
   cell_indexes r (Example.at_xyz 60 60 0) = mk_xy_int8 1 1 /\
   line_to_destination_cartesian r (Example.at_xyz 40 40 0)
     (Example.at_xyz 60 60 0)
   = Some ([Example.at_xyz 50 50 2; Example.at_xyz 60 60 (32 # 25)],
           Example.at_xyz 60 60 0)).
Proof.
  intros m r. repeat split; vm_compute; reflexivity.
Qed.

(** * Further properties *)

(** ** Helper facts *)










(** ** Bilinear interpolation within a cell *)












(** ** The two interpolations side by side *)
















(** ** Segment count and cell index of the segmenter *)

Lemma Qneg_bool_nonneg (q : Q) : (0 <= q)%Q -> Qneg_bool q = false.
Proof.
  intros H. unfold Qneg_bool. destruct (q ?= 0)%Q eqn:E; try reflexivity.
  apply Qlt_alt in E. lra.
Qed.

(** The number of minimum-length segments in a length, as the segmenter
    computes it before the conversion to [uint16_t]. *)
Lemma seglimit_nearest (l m : Q) :
  (0 <= l)%Q -> (0 < m)%Q ->
  let k := LROUND (Fin l * RECIPROCAL (Fin m))%F in
  0 <= k /\ ((inject_Z k - (1 # 2)) * m <= l)%Q /\
  (l < (inject_Z k + (1 # 2)) * m)%Q.
Proof.
  intros Hl Hm k. unfold k.
  assert (Hnz : ~ (m == 0)%Q) by lra.
  rewrite (RECIPROCAL_Fin _ Hnz). cbn [fmul LROUND].
  set (r := Qred (l * Qred (1 / m))).
  assert (Hr : (r * m == l)%Q).
  { unfold r. rewrite !Qred_correct. field. exact Hnz. }
  assert (Hr0 : (0 <= r)%Q) by nra.
  rewrite (Qneg_bool_nonneg _ Hr0).
  pose proof (Qfloor_le (r + (1 # 2))) as Hlo.
  pose proof (Qlt_floor (r + (1 # 2))) as Hhi.
  rewrite inject_Z_plus in Hhi. change (inject_Z 1) with 1%Q in Hhi.
  split; [|split].
  - assert (H : (inject_Z (-1) < inject_Z (Qfloor (r + (1 # 2))))%Q).
    { change (inject_Z (-1)) with (-1)%Q. lra. }
    rewrite <- Zlt_Qlt in H. lia.
  - nra.
  - nra.
Qed.

Lemma uint16_t_le (z : Z) : 0 <= z -> uint16_t z <= z.
Proof. intros H. unfold uint16_t. apply Z.mod_le; lia. Qed.

Lemma uint16_t_small (z : Z) : 0 <= z < 65536 -> uint16_t z = z.
Proof. intros H. unfold uint16_t. apply Z.mod_small. exact H. Qed.

(** X7.  The segment count keeps the XY length of a segment near
    [DELTA_SEGMENT_MIN_LENGTH].  With [l] the XY length of the move and
    [m] the threshold: a move cut into [n >= 2] segments has
    [(n - 1/2) m <= l], so each segment is at least 3/4 of [m] long; on a
    Cartesian machine, for [l] below 65535.5 [m], also [l < (n + 1/2) m],
    so each segment is shorter than 3/2 of [m]. *)
Theorem segment_length_near_minimum
    (env : ubl_env) (total : xyze_pos_t) (fr : float) (l m : Q) :
  SQRT env (HYPOT2 (pos_x total) (pos_y total)) = Fin l -> (0 <= l)%Q ->
  DELTA_SEGMENT_MIN_LENGTH env = Fin m -> (0 < m)%Q ->
  let n := segment_count env total fr in
  (2 <= n ->
   ((inject_Z n - (1 # 2)) * m <= l)%Q /\
   ((3 # 4) * m * inject_Z n <= l)%Q) /\
  (segments_per_second env = None -> (l < (65535 + (1 # 2)) * m)%Q ->
   (l < (inject_Z n + (1 # 2)) * m)%Q /\
   (l < (3 # 2) * m * inject_Z n)%Q).
Proof.
  intros Hsqrt Hl Hmin Hm n.
  pose proof (segment_count_range env total fr) as Hn. fold n in Hn.
  destruct (seglimit_nearest l m Hl Hm) as (Hk0 & Hklo & Hkhi).
  set (k := LROUND (Fin l * RECIPROCAL (Fin m))%F) in *.
  assert (Hq : forall a b : Z, a <= b -> (inject_Z a <= inject_Z b)%Q)
    by (intros a b H; rewrite <- Zle_Qle; exact H).
  split.
  - intros H2.
    assert (Hnk : n <= k).
    { unfold n, segment_count in *. rewrite Hsqrt, Hmin in *. fold k in H2 |- *.
      pose proof (uint16_t_le k Hk0) as Hle.
      destruct (segments_per_second env) as [sps|];
        unfold NOLESS, NOMORE in *;
        repeat match goal with
               | H : context [if ?a <? ?b then _ else _] |- _ =>
                   destruct (a <? b) eqn:?
               | |- context [if ?a <? ?b then _ else _] =>
                   destruct (a <? b) eqn:?
               end;
        rewrite ?Z.ltb_lt, ?Z.ltb_ge in *; lia. }
    pose proof (Hq _ _ Hnk) as Hnk'. pose proof (Hq 2 n H2) as H2'.
    change (inject_Z 2) with 2%Q in H2'.
    split; nra.
  - intros Hcart Hwrap.
    assert (Hk : k < 65536).
    { destruct (Z_lt_le_dec k 65536) as [H|H]; [exact H|exfalso].
      pose proof (Hq _ _ H) as H'. change (inject_Z 65536) with 65536%Q in H'.
      nra. }
    assert (Hkn : k <= n).
    { unfold n, segment_count. rewrite Hsqrt, Hmin, Hcart. fold k.
      rewrite (uint16_t_small k) by lia. unfold NOLESS.
      destruct (k <? 1) eqn:E; rewrite ?Z.ltb_lt, ?Z.ltb_ge in E; lia. }
    pose proof (Hq _ _ Hkn) as Hkn'. pose proof (Hq 1 n ltac:(lia)) as H1'.
    change (inject_Z 1) with 1%Q in H1'.
    split; nra.
Qed.

Lemma segment_length_near_minimum_witness :
  let m := Example.machine Example.bump Example.accept_all Example.anywhere in
  let n := segment_count m (Example.at_xyz 3 4 0) (Fin 10) in
  ((inject_Z n - (1 # 2)) * 1 <= 5)%Q /\ (5 < (inject_Z n + (1 # 2)) * 1)%Q.
Proof.
  intros m n.
  destruct (segment_length_near_minimum m (Example.at_xyz 3 4 0) (Fin 10) 5 1)
    as [Hlo Hhi].
  - reflexivity.
  - unfold Qle. cbn. lia.
  - reflexivity.
  - reflexivity.
  - split.
    + apply Hlo. vm_compute. intros E. discriminate E.
    + apply Hhi; reflexivity.
Defined.

Lemma fsub_same (a b : float) :
  isfinite b = true -> feqb a b = true -> (a - b)%F = Fin 0.
Proof.
  intros Hb H. destruct (isfinite_Fin _ Hb) as [q ->].
  destruct a as [p|s|]; try discriminate.
  - apply feqb_Fin in H. cbn [fsub]. f_equal.
    change 0%Q with (Qred 0). apply Qred_complete. lra.
  - destruct s; discriminate.
Qed.

Lemma segment_count_no_xy_travel
    (env : ubl_env) (total : xyze_pos_t) (fr : float) (m : Q) :
  SQRT env (Fin 0) = Fin 0 ->
  DELTA_SEGMENT_MIN_LENGTH env = Fin m -> ~ (m == 0)%Q ->
  pos_x total = Fin 0 -> pos_y total = Fin 0 ->
  segment_count env total fr = 1.
Proof.
  intros Hsqrt Hmin Hm Hx Hy. unfold segment_count. rewrite Hx, Hy.
  change (HYPOT2 (Fin 0) (Fin 0)) with (Fin 0). rewrite Hsqrt, Hmin.
  rewrite (RECIPROCAL_Fin _ Hm). cbn [fmul].
  replace (Qred (0 * Qred (1 / m))) with 0%Q
    by (change 0%Q with (Qred 0) at 1; apply Qred_complete; ring).
  change (uint16_t (LROUND (Fin 0))) with 0.
  destruct (segments_per_second env) as [sps|]; [|reflexivity].
  match goal with |- context [NOMORE ?v 0] =>
    pose proof (uint16_t_range (LROUND (sps * (Fin 0 / fr))%F)) as Hv
  end.
  unfold NOMORE.
  destruct (0 <? _) eqn:E; [reflexivity|].
  apply Z.ltb_ge in E.
  replace (uint16_t (LROUND (sps * (Fin 0 / fr))%F)) with 0 by lia.
  reflexivity.
Qed.

(** X8.  A reachable move without travel in X and Y (Z or E only) is
    handed to the planner as exactly one segment, to the destination (its
    Z corrected when leveling is active). *)
Theorem move_without_xy_travel_is_one_segment
    (env : ubl_env) (cur dest : xyze_pos_t) (fr : float) (m : Q) :
  position_is_reachable env dest = true ->
  SQRT env (Fin 0) = Fin 0 ->
  DELTA_SEGMENT_MIN_LENGTH env = Fin m -> ~ (m == 0)%Q ->
  xy_finite cur ->
  feqb (pos_x dest) (pos_x cur) = true ->
  feqb (pos_y dest) (pos_y cur) = true ->
  exists s,
    line_to_destination_segmented env cur dest fr = Some (false, [s]) /\
    pos_x (seg_target s) = pos_x dest /\
    pos_y (seg_target s) = pos_y dest /\
    pos_e (seg_target s) = pos_e dest /\
    (negb (leveling_active env)
     || negb (leveling_active_at_z env (pos_z dest)) = true ->
     seg_target s = dest).
Proof.
  intros Hreach Hsqrt Hmin Hm [Hcx Hcy] Hx Hy.
  assert (Hn : segmented_segments env cur dest fr = 1).
  { unfold segmented_segments.
    apply (segment_count_no_xy_travel env _ fr m Hsqrt Hmin Hm);
      unfold pos_sub; cbn [pos_x pos_y]; apply fsub_same; assumption. }
  rewrite (line_to_destination_segmented_spec env cur dest fr Hreach).
  rewrite Hn. change (Z.to_nat 1) with 1%nat. cbn [Nat.sub seq map app].
  destruct (negb (leveling_active env)
            || negb (leveling_active_at_z env (pos_z dest))).
  - eexists. split; [reflexivity|]. cbn [seg_target]. auto.
  - eexists. split; [reflexivity|].
    unfold leveled_segment. cbn [Nat.eqb seg_target set_z pos_x pos_y pos_e].
    repeat split. discriminate.
Qed.

Lemma move_without_xy_travel_is_one_segment_witness :
  let m := Example.machine Example.bump Example.accept_all Example.anywhere in
  exists s,
    line_to_destination_segmented m (Example.at_xyz 10 10 0)
      (Example.at_xyz 10 10 5) (Fin 10) = Some (false, [s]) /\
    pos_x (seg_target s) = Fin 10 /\ pos_y (seg_target s) = Fin 10.
Proof.
  intros m.
  destruct (move_without_xy_travel_is_one_segment m (Example.at_xyz 10 10 0)
              (Example.at_xyz 10 10 5) (Fin 10) 1)
    as (s & Hrun & Hx & Hy & _).
  - reflexivity.
  - reflexivity.
  - reflexivity.
  - intros E. discriminate E.
  - split; reflexivity.
  - reflexivity.
  - reflexivity.
  - exists s. split; [exact Hrun|]. split; assumption.
Defined.





(** ** What the planner's answers and the mesh heights cannot change *)

Lemma vertical_loop_any_sink (env : ubl_env)
    (sink : list xyze_pos_t -> xyze_pos_t -> bool) (L : line_locals)
    (fuel : nat) :
  forall (icell : xy_int8_t) (hist : list xyze_pos_t),
    vertical_loop (with_buffer_segment env sink) L fuel icell hist
    = vertical_loop env L fuel icell hist.
Proof.
  induction fuel as [|fuel IH]; intros icell hist; [reflexivity|].
  cbn [vertical_loop]. rewrite !IH. reflexivity.
Qed.

(** X10.  A move whose start and destination lie in the same mesh column
    (the same-cell and the vertical path) is split the same way whatever
    the planner answers: the vertical loop never looks at the result of
    [planner.buffer_segment]. *)
Theorem single_column_move_ignores_planner
    (env : ubl_env) (sink : list xyze_pos_t -> xyze_pos_t -> bool)
    (cur dest : xyze_pos_t) :
  let L := compute_locals env cur dest in
  ix (istart L) = ix (iend L) ->
  line_to_destination_cartesian (with_buffer_segment env sink) cur dest
  = line_to_destination_cartesian env cur dest.
Proof.
  intros L Hcol. unfold line_to_destination_cartesian.
  change (compute_locals (with_buffer_segment env sink) cur dest) with L.
  fold L.
  change (FINAL_MOVE (with_buffer_segment env sink)) with (FINAL_MOVE env).
  destruct (xy_int8_eqb (istart L) (iend L)); [reflexivity|].
  assert (E : crossing_moves (with_buffer_segment env sink) L
              = crossing_moves env L).
  { unfold crossing_moves.
    assert (Hadd : (ix (iadd L) =? 0) = true).
    { unfold L, compute_locals in *. cbn [iadd istart iend ix] in *.
      rewrite Hcol, Z.eqb_refl. reflexivity. }
    rewrite Hadd. apply vertical_loop_any_sink. }
  rewrite E. reflexivity.
Qed.

Lemma single_column_move_ignores_planner_witness :
  let m := Example.machine Example.bump Example.accept_all Example.anywhere in
  line_to_destination_cartesian (with_buffer_segment m Example.reject_all)
    (Example.at_xyz 40 40 0) (Example.at_xyz 45 140 0)
  = line_to_destination_cartesian m (Example.at_xyz 40 40 0)
      (Example.at_xyz 45 140 0).
Proof.
  intros m.
  apply (single_column_move_ignores_planner m Example.reject_all
           (Example.at_xyz 40 40 0) (Example.at_xyz 45 140 0)).
  vm_compute. reflexivity.
Defined.

Lemma xye_crossing_move (L : line_locals) (x y z0 z0' : float) :
  xye (crossing_move L x y z0) = xye (crossing_move L x y z0').
Proof.
  unfold crossing_move, xye.
  destruct (negb (inf_normalized_flag L)); reflexivity.
Qed.

Lemma map_xye_snoc (h h' : list xyze_pos_t) (p p' : xyze_pos_t) :
  map xye h' = map xye h -> xye p' = xye p ->
  map xye (h' ++ [p']) = map xye (h ++ [p]).
Proof. intros Hh Hp. rewrite !map_app, Hh. cbn [map]. rewrite Hp. reflexivity. Qed.

Section OtherHeights.

Variable env : ubl_env.
Variable zv : Z -> Z -> float.
Variables on_x on_y : float -> Z -> Z -> float.
Variable fade : float -> float.
Variable raise : option float.
Variable L : line_locals.

Hypothesis Hsink : sink_ignores_z (buffer_segment env).

Let env' := with_mesh_heights env zv on_x on_y fade raise.

Lemma same_answer (h h' : list xyze_pos_t) (p p' : xyze_pos_t) :
  map xye h' = map xye h -> xye p' = xye p ->
  buffer_segment env' h' p' = buffer_segment env h p.
Proof. intros Hh Hp. apply (Hsink h' h p' p); assumption. Qed.

Lemma vertical_loop_xye (fuel : nat) :
  forall (icell : xy_int8_t) (hist hist' : list xyze_pos_t),
    map xye hist' = map xye hist ->
    option_map (map xye) (vertical_loop env' L fuel icell hist')
    = option_map (map xye) (vertical_loop env L fuel icell hist).
Proof.
  induction fuel as [|fuel IH]; intros icell hist hist' Hh;
    cbn [vertical_loop];
    destruct (iy icell =? iy (iend L) + iy (ineg L));
    cbn [option_map]; try (rewrite Hh; reflexivity); try reflexivity.
  change (get_mesh_y env') with (get_mesh_y env).
  match goal with
  | |- context [if fneb ?a ?b then _ else _] => destruct (fneb a b)
  end.
  - apply IH. apply map_xye_snoc; [exact Hh|apply xye_crossing_move].
  - apply IH. exact Hh.
Qed.

Lemma horizontal_loop_xye (fuel : nat) :
  forall (icell : xy_int8_t) (hist hist' : list xyze_pos_t),
    map xye hist' = map xye hist ->
    option_map (map xye) (horizontal_loop env' L fuel icell hist')
    = option_map (map xye) (horizontal_loop env L fuel icell hist).
Proof.
  induction fuel as [|fuel IH]; intros icell hist hist' Hh;
    cbn [horizontal_loop];
    destruct (ix icell =? ix (iend L) + ix (ineg L));
    cbn [option_map]; try (rewrite Hh; reflexivity); try reflexivity.
  change (get_mesh_x env') with (get_mesh_x env).
  match goal with
  | |- context [if fneb ?a ?b then _ else _] => destruct (fneb a b)
  end; [|apply IH; exact Hh].
  match goal with
  | |- context [buffer_segment env' hist' ?d'] =>
      match goal with
      | |- context [buffer_segment env hist ?d] =>
          assert (Hd : xye d' = xye d) by apply xye_crossing_move;
          rewrite (same_answer hist hist' d d' Hh Hd);
          destruct (buffer_segment env hist d); cbn [negb option_map]
      end
  end.
  - apply IH. apply map_xye_snoc; assumption.
  - f_equal. apply map_xye_snoc; assumption.
Qed.

Lemma general_loop_xye (fuel : nat) :
  forall (icell cnt : xy_int8_t) (hist hist' : list xyze_pos_t),
    map xye hist' = map xye hist ->
    option_map (map xye) (general_loop env' L fuel icell cnt hist')
    = option_map (map xye) (general_loop env L fuel icell cnt hist).
Proof.
  induction fuel as [|fuel IH]; intros icell cnt hist hist' Hh;
    cbn [general_loop];
    destruct ((ix cnt =? 0) && (iy cnt =? 0));
    cbn [option_map]; try (rewrite Hh; reflexivity); try reflexivity.
  change (get_mesh_x env') with (get_mesh_x env).
  change (get_mesh_y env') with (get_mesh_y env).
  match goal with
  | |- context [if Bool.eqb ?a ?b then _ else _] => destruct (Bool.eqb a b)
  end;
  match goal with
  | |- context [buffer_segment env' hist' ?d'] =>
      match goal with
      | |- context [buffer_segment env hist ?d] =>
          assert (Hd : xye d' = xye d) by apply xye_crossing_move;
          rewrite (same_answer hist hist' d d' Hh Hd);
          destruct (buffer_segment env hist d); cbn [negb option_map]
      end
  end;
  try (f_equal; apply map_xye_snoc; assumption);
  match goal with
  | |- context [if ?b then _ else _] => destruct b
  end; cbn [option_map];
  try (f_equal; apply map_xye_snoc; assumption);
  apply IH; apply map_xye_snoc; assumption.
Qed.

Lemma crossing_moves_xye :
  option_map (map xye) (crossing_moves env' L)
  = option_map (map xye) (crossing_moves env L).
Proof.
  unfold crossing_moves.
  destruct (ix (iadd L) =? 0); [apply vertical_loop_xye; reflexivity|].
  destruct (iy (iadd L) =? 0); [apply horizontal_loop_xye; reflexivity|].
  apply general_loop_xye. reflexivity.
Qed.

End OtherHeights.

(** X11.  The mesh heights (the mesh table, the edge corrections, the
    fade factor and the off-mesh raise) change nothing but Z: with a
    planner whose answers do not depend on Z, the sub-moves of a move have
    the same X, Y and E, in the same number and order, and the current
    position is set to the same value, on any two sets of mesh heights. *)
Theorem leveling_changes_only_z
    (env : ubl_env) (zv : Z -> Z -> float)
    (on_x on_y : float -> Z -> Z -> float) (fade : float -> float)
    (raise : option float) (cur dest : xyze_pos_t) :
  sink_ignores_z (buffer_segment env) ->
  without_z (line_to_destination_cartesian
               (with_mesh_heights env zv on_x on_y fade raise) cur dest)
  = without_z (line_to_destination_cartesian env cur dest).
Proof.
  intros Hsink. unfold line_to_destination_cartesian.
  set (env' := with_mesh_heights env zv on_x on_y fade raise).
  change (compute_locals env' cur dest) with (compute_locals env cur dest).
  set (L := compute_locals env cur dest).
  assert (Hfinal : xye (FINAL_MOVE env' (end_ L) (iend L))
                   = xye (FINAL_MOVE env (end_ L) (iend L))).
  { destruct (FINAL_MOVE_xye env' (end_ L) (iend L)) as (Hx & Hy & He).
    destruct (FINAL_MOVE_xye env (end_ L) (iend L)) as (Hx' & Hy' & He').
    unfold xye. rewrite Hx, Hy, He, Hx', Hy', He'. reflexivity. }
  destruct (xy_int8_eqb (istart L) (iend L)).
  - cbn [without_z map]. rewrite Hfinal. reflexivity.
  - pose proof (crossing_moves_xye env zv on_x on_y fade raise L Hsink) as E.
    fold env' in E.
    destruct (crossing_moves env' L) as [h'|];
      destruct (crossing_moves env L) as [h|]; cbn [option_map] in E;
      try discriminate E; [|reflexivity].
    injection E as E.
    destruct (xy_neb cur (end_ L)); cbn [without_z].
    + rewrite (map_xye_snoc h h' _ _ E Hfinal). reflexivity.
    + rewrite E. reflexivity.
Qed.

Lemma leveling_changes_only_z_witness :
  let m := Example.machine Example.bump Example.accept_all Example.anywhere in
  without_z
    (line_to_destination_cartesian
       (with_mesh_heights m Example.holed (Example.edge_x Example.holed)
          (Example.edge_y Example.holed) (fun _ => Fin (1 # 2)) (Some (Fin 5)))
       (Example.at_xyz 5 5 0) (Example.at_xyz 140 110 0))
  = without_z
      (line_to_destination_cartesian m (Example.at_xyz 5 5 0)
         (Example.at_xyz 140 110 0)).
Proof.
  intros m.
  apply (leveling_changes_only_z m).
  intros h h' p p' _ _. reflexivity.
Defined.

(** ** The zero-length guard of the single-axis paths *)

Lemma crossing_move_xy (L : line_locals) (x y z0 : float) :
  pos_x (crossing_move L x y z0) = x /\ pos_y (crossing_move L x y z0) = y.
Proof.
  unfold crossing_move. destruct (negb (inf_normalized_flag L)); split;
    reflexivity.
Qed.

Lemma vertical_loop_leaves_start (env : ubl_env) (L : line_locals)
    (fuel : nat) :
  forall (icell : xy_int8_t) (hist r : list xyze_pos_t),
    vertical_loop env L fuel icell hist = Some r ->
    exists h, r = hist ++ h /\
      Forall (fun p => fneb (pos_y p) (pos_y (start L)) = true) h.
Proof.
  induction fuel as [|fuel IH]; intros icell hist r; cbn [vertical_loop];
    destruct (iy icell =? iy (iend L) + iy (ineg L));
    try (intros H; injection H as <-; exists []; rewrite app_nil_r;
         split; [reflexivity|constructor]);
    try discriminate.
  match goal with
  | |- context [if fneb ?a ?b then _ else _] => destruct (fneb a b) eqn:E
  end; intros H; [|exact (IH _ _ _ H)].
  destruct (IH _ _ _ H) as (h & -> & Hall).
  eexists (_ :: h). split; [rewrite <- app_assoc; reflexivity|].
  constructor; [|exact Hall].
  rewrite (proj2 (crossing_move_xy L _ _ _)). exact E.
Qed.

Lemma horizontal_loop_leaves_start (env : ubl_env) (L : line_locals)
    (fuel : nat) :
  forall (icell : xy_int8_t) (hist r : list xyze_pos_t),
    horizontal_loop env L fuel icell hist = Some r ->
    exists h, r = hist ++ h /\
      Forall (fun p => fneb (pos_x p) (pos_x (start L)) = true) h.
Proof.
  induction fuel as [|fuel IH]; intros icell hist r; cbn [horizontal_loop];
    destruct (ix icell =? ix (iend L) + ix (ineg L));
    try (intros H; injection H as <-; exists []; rewrite app_nil_r;
         split; [reflexivity|constructor]);
    try discriminate.
  match goal with
  | |- context [if fneb ?a ?b then _ else _] => destruct (fneb a b) eqn:E
  end; [|intros H; exact (IH _ _ _ H)].
  match goal with
  | |- context [buffer_segment env hist ?d] =>
      destruct (buffer_segment env hist d); cbn [negb]
  end; intros H.
  - destruct (IH _ _ _ H) as (h & -> & Hall).
    eexists (_ :: h). split; [rewrite <- app_assoc; reflexivity|].
    constructor; [|exact Hall].
    rewrite (proj1 (crossing_move_xy L _ _ _)). exact E.
  - injection H as <-. eexists [_]. split; [reflexivity|].
    constructor; [|constructor].
    rewrite (proj1 (crossing_move_xy L _ _ _)). exact E.
Qed.

(** X12.  The zero-length guards of the single-axis paths: on a move
    within one column no crossing sub-move has the Y of the start, and on
    a move within one row none has the X of the start. *)
Theorem single_axis_crossings_leave_the_start_line
    (env : ubl_env) (cur dest : xyze_pos_t) :
  grid_fits env ->
  let L := compute_locals env cur dest in
  exists crossings final,
    line_to_destination_cartesian env cur dest
    = Some (crossings ++ final, dest) /\
    (final = [] \/ final = [FINAL_MOVE env (end_ L) (iend L)]) /\
    (ix (istart L) = ix (iend L) ->
     Forall (fun p => fneb (pos_y p) (pos_y (start L)) = true) crossings) /\
    (iy (istart L) = iy (iend L) ->
     Forall (fun p => fneb (pos_x p) (pos_x (start L)) = true) crossings).
Proof.
  intros Hfit L. unfold line_to_destination_cartesian. fold L.
  destruct (xy_int8_eqb (istart L) (iend L)) eqn:E.
  - exists [], [FINAL_MOVE env (end_ L) (iend L)].
    split; [reflexivity|]. split; [right; reflexivity|].
    split; intros _; constructor.
  - assert (Hne : istart L <> iend L).
    { intros H. apply xy_int8_eqb_eq in H. congruence. }
    pose proof (compute_locals_ok env cur dest Hfit Hne) as Hok. fold L in Hok.
    destruct (crossing_moves_spec env L Hok) as (h & Hrun & _).
    rewrite Hrun.
    exists h, (if xy_neb cur (end_ L)
               then [FINAL_MOVE env (end_ L) (iend L)] else []).
    split; [destruct (xy_neb cur (end_ L)); rewrite ?app_nil_r; reflexivity|].
    split; [destruct (xy_neb cur (end_ L)); auto|].
    destruct Hok as [_ _ _ Hax Hay _].
    unfold crossing_moves in Hrun. split.
    + intros Hcol.
      assert (Hadd : (ix (iadd L) =? 0) = true).
      { apply Z.eqb_eq. destruct Hax as [[H _]|[_ H]]; [exact H|].
        exfalso. apply H. symmetry. exact Hcol. }
      rewrite Hadd in Hrun.
      destruct (vertical_loop_leaves_start env L _ _ _ _ Hrun)
        as (h' & Hh & Hall).
      cbn [app] in Hh. subst h'. exact Hall.
    + intros Hrow.
      destruct (ix (iadd L) =? 0) eqn:Ex.
      * exfalso. apply Z.eqb_eq in Ex. apply Hne.
        destruct Hax as [[_ Hx]|[Hx _]]; [|lia].
        destruct (istart L) as [sx sy], (iend L) as [ex ey];
          cbn [ix iy] in *. congruence.
      * assert (Hadd : (iy (iadd L) =? 0) = true).
        { apply Z.eqb_eq. destruct Hay as [[H _]|[_ H]]; [exact H|].
          exfalso. apply H. symmetry. exact Hrow. }
        rewrite Hadd in Hrun.
        destruct (horizontal_loop_leaves_start env L _ _ _ _ Hrun)
          as (h' & Hh & Hall).
        cbn [app] in Hh. subst h'. exact Hall.
Qed.

Lemma single_axis_crossings_leave_the_start_line_witness :
  let m := Example.machine Example.bump Example.accept_all Example.anywhere in
  exists crossings final,
    line_to_destination_cartesian m (Example.at_xyz 40 40 0)
      (Example.at_xyz 45 140 0)
    = Some (crossings ++ final, Example.at_xyz 45 140 0) /\
    Forall (fun p => fneb (pos_y p) (Fin 40) = true) crossings.
Proof.
  intros m.
  destruct (single_axis_crossings_leave_the_start_line m
              (Example.at_xyz 40 40 0) (Example.at_xyz 45 140 0))
    as (crossings & final & Hrun & _ & Hy & _).
  - unfold grid_fits. cbn. lia.
  - exists crossings, final. split; [exact Hrun|].
    apply Hy. vm_compute. reflexivity.
Defined.

(** The general path has no such guard: a diagonal move that starts on a
    vertical mesh line and heads left begins with a sub-move to the X and
    Y of its own start. *)
Example general_path_zero_length_sub_move :
  line_to_destination_cartesian
    (Example.machine Example.bump Example.accept_all Example.anywhere)
    (Example.at_xyz 50 10 0) (Example.at_xyz 10 60 0)
  = Some ([Example.at_xyz 50 10 (2 # 5); Example.at_xyz 18 50 (18 # 25);
           Example.at_xyz 10 60 (8 # 25)],
          Example.at_xyz 10 60 0).
Proof. vm_compute. reflexivity. Qed.

(** ** How many sub-moves a move can take *)

Lemma vertical_loop_length (env : ubl_env) (L : line_locals) (fuel : nat) :
  forall (icell : xy_int8_t) (hist r : list xyze_pos_t),
    -128 <= iy (iend L) + iy (ineg L) <= 127 ->
    -128 <= iy icell <= 127 ->
    iy (iadd L) = 1 \/ iy (iadd L) = -1 ->
    vertical_loop env L fuel icell hist = Some r ->
    Z.of_nat (length r)
    <= Z.of_nat (length hist)
       + ((iy (iend L) + iy (ineg L) - iy icell) * iy (iadd L)) mod 256.
Proof.
  induction fuel as [|fuel IH]; intros icell hist r Ht Hy Hs;
    cbn [vertical_loop];
    destruct (iy icell =? iy (iend L) + iy (ineg L)) eqn:E;
    try discriminate;
    try (intros H; injection H as <-;
         pose proof (Z.mod_pos_bound
           ((iy (iend L) + iy (ineg L) - iy icell) * iy (iadd L)) 256);
         lia).
  apply Z.eqb_neq in E.
  pose proof (wrap_step _ _ _ Ht Hy Hs E) as Hstep.
  match goal with
  | |- context [if fneb ?a ?b then _ else _] => destruct (fneb a b)
  end; intros H; apply IH in H; cbn [ix iy] in *;
    try assumption; try apply int8_t_range;
    rewrite ?length_app in H; cbn [length] in H; lia.
Qed.

Lemma horizontal_loop_length (env : ubl_env) (L : line_locals) (fuel : nat) :
  forall (icell : xy_int8_t) (hist r : list xyze_pos_t),
    -128 <= ix (iend L) + ix (ineg L) <= 127 ->
    -128 <= ix icell <= 127 ->
    ix (iadd L) = 1 \/ ix (iadd L) = -1 ->
    horizontal_loop env L fuel icell hist = Some r ->
    Z.of_nat (length r)
    <= Z.of_nat (length hist)
       + ((ix (iend L) + ix (ineg L) - ix icell) * ix (iadd L)) mod 256.
Proof.
  induction fuel as [|fuel IH]; intros icell hist r Ht Hx Hs;
    cbn [horizontal_loop];
    destruct (ix icell =? ix (iend L) + ix (ineg L)) eqn:E;
    try discriminate;
    try (intros H; injection H as <-;
         pose proof (Z.mod_pos_bound
           ((ix (iend L) + ix (ineg L) - ix icell) * ix (iadd L)) 256);
         lia).
  apply Z.eqb_neq in E.
  pose proof (wrap_step _ _ _ Ht Hx Hs E) as Hstep.
  pose proof (Z.mod_pos_bound
    ((ix (iend L) + ix (ineg L) - int8_t (ix icell + ix (iadd L)))
     * ix (iadd L)) 256) as Hpos.
  match goal with
  | |- context [if fneb ?a ?b then _ else _] => destruct (fneb a b)
  end.
  - match goal with
    | |- context [buffer_segment env hist ?d] =>
        destruct (buffer_segment env hist d); cbn [negb]
    end; intros H.
    + apply IH in H; cbn [ix iy] in *;
        try assumption; try apply int8_t_range.
      rewrite length_app in H. cbn [length] in H. lia.
    + injection H as <-. rewrite length_app. cbn [length]. lia.
  - intros H. apply IH in H; cbn [ix iy] in *;
      try assumption; try apply int8_t_range. lia.
Qed.

(** The cell index moves the way the coordinate does. *)
Lemma index_follows_travel (env : ubl_env) (cur dest : xyze_pos_t) :
  grid_fits env ->
  (0 < MESH_X_DIST env)%Q -> (0 < MESH_Y_DIST env)%Q ->
  let L := compute_locals env cur dest in
  xy_finite (start L) -> xy_finite (end_ L) ->
  (ix (iend L) - ix (istart L)) * ix (iadd L)
  = Z.abs (ix (istart L) - ix (iend L)) /\
  (iy (iend L) - iy (istart L)) * iy (iadd L)
  = Z.abs (iy (istart L) - iy (iend L)).
Proof.
  intros Hfit Hdx Hdy L. unfold L, compute_locals.
  cbn [start end_ istart iend iadd ix iy].
  generalize (apply_modifiers env cur) (apply_modifiers env dest).
  intros s e [Hsx Hsy] [Hex Hey].
  destruct (isfinite_Fin _ Hsx) as [sx Esx].
  destruct (isfinite_Fin _ Hsy) as [sy Esy].
  destruct (isfinite_Fin _ Hex) as [ex Eex].
  destruct (isfinite_Fin _ Hey) as [ey Eey].
  unfold cell_indexes. cbn [ix iy]. rewrite Esx, Esy, Eex, Eey.
  cbn [fsub]. split.
  - destruct (cell_index_x env (Fin ex) =? cell_index_x env (Fin sx)) eqn:E.
    + apply Z.eqb_eq in E. lia.
    + apply Z.eqb_neq in E.
      destruct (flt (Fin (Qred (ex - sx))) (Fin 0)) eqn:En.
      * apply flt_Fin in En. rewrite Qred_correct in En.
        pose proof (cell_index_x_mono env ex sx Hfit Hdx ltac:(lra)).
        change (int8_t (ftrunc (Fin (-1)))) with (-1). lia.
      * apply flt_Fin_false in En. rewrite Qred_correct in En.
        pose proof (cell_index_x_mono env sx ex Hfit Hdx ltac:(lra)).
        change (int8_t (ftrunc (Fin 1))) with 1. lia.
  - destruct (cell_index_y env (Fin ey) =? cell_index_y env (Fin sy)) eqn:E.
    + apply Z.eqb_eq in E. lia.
    + apply Z.eqb_neq in E.
      destruct (flt (Fin (Qred (ey - sy))) (Fin 0)) eqn:En.
      * apply flt_Fin in En. rewrite Qred_correct in En.
        pose proof (cell_index_y_mono env ey sy Hfit Hdy ltac:(lra)).
        change (int8_t (ftrunc (Fin (-1)))) with (-1). lia.
      * apply flt_Fin_false in En. rewrite Qred_correct in En.
        pose proof (cell_index_y_mono env sy ey Hfit Hdy ltac:(lra)).
        change (int8_t (ftrunc (Fin 1))) with 1. lia.
Qed.

(** X13.  On a mesh that fits [int8_t] indices and has positive spacing,
    and for finite X and Y of start and destination (as
    [planner.apply_modifiers] returns them), the splitter returns with the
    current position set to the destination, having handed the planner at
    most |delta column| + |delta row| + 1 sub-moves. *)
Theorem sub_moves_bounded_by_cells_crossed
    (env : ubl_env) (cur dest : xyze_pos_t) :
  grid_fits env ->
  (0 < MESH_X_DIST env)%Q -> (0 < MESH_Y_DIST env)%Q ->
  let L := compute_locals env cur dest in
  xy_finite (start L) -> xy_finite (end_ L) ->
  exists moves,
    line_to_destination_cartesian env cur dest = Some (moves, dest) /\
    Z.of_nat (length moves)
    <= Z.abs (ix (istart L) - ix (iend L))
       + Z.abs (iy (istart L) - iy (iend L)) + 1.
Proof.
  intros Hfit Hdx Hdy L Hs He.
  destruct (index_follows_travel env cur dest Hfit Hdx Hdy Hs He)
    as [Hdirx Hdiry]. fold L in Hdirx, Hdiry.
  unfold line_to_destination_cartesian. fold L.
  destruct (xy_int8_eqb (istart L) (iend L)) eqn:E.
  - eexists. split; [reflexivity|]. cbn [length]. lia.
  - assert (Hne : istart L <> iend L).
    { intros H. apply xy_int8_eqb_eq in H. congruence. }
    pose proof (compute_locals_ok env cur dest Hfit Hne) as Hok. fold L in Hok.
    destruct (crossing_moves_spec env L Hok) as (h & Hrun & Hshape).
    rewrite Hrun.
    assert (Hlen : Z.of_nat (length h)
                   <= Z.abs (ix (istart L) - ix (iend L))
                      + Z.abs (iy (istart L) - iy (iend L))).
    { destruct Hok as [Hsr Her Hn Hax Hay _].
      unfold crossing_moves in Hrun.
      destruct (ix (iadd L) =? 0) eqn:Ex.
      - apply Z.eqb_eq in Ex.
        assert (Hyadd : iy (iadd L) = 1 \/ iy (iadd L) = -1).
        { destruct Hay as [[_ Hy]|[Hy _]]; [|exact Hy].
          destruct Hax as [[_ Hx]|[Hx _]]; [|lia].
          exfalso. apply Hne.
          destruct (istart L) as [sx sy], (iend L) as [ex ey];
            cbn [ix iy] in *. congruence. }
        apply vertical_loop_length in Hrun; cbn [ix iy] in *;
          try lia; try apply int8_t_range; try exact Hyadd.
        rewrite int8_t_small in Hrun by lia.
        replace ((iy (iend L) + iy (ineg L) - (iy (istart L) + iy (ineg L)))
                 * iy (iadd L))
          with (Z.abs (iy (istart L) - iy (iend L))) in Hrun by lia.
        rewrite Z.mod_small in Hrun by lia. cbn [length] in Hrun. lia.
      - apply Z.eqb_neq in Ex.
        assert (Hxadd : ix (iadd L) = 1 \/ ix (iadd L) = -1)
          by (destruct Hax as [[Hx _]|[Hx _]]; [lia|exact Hx]).
        destruct (iy (iadd L) =? 0) eqn:Ey.
        + apply horizontal_loop_length in Hrun; cbn [ix iy] in *;
            try lia; try apply int8_t_range; try exact Hxadd.
          rewrite int8_t_small in Hrun by lia.
          replace ((ix (iend L) + ix (ineg L) - (ix (istart L) + ix (ineg L)))
                   * ix (iadd L))
            with (Z.abs (ix (istart L) - ix (iend L))) in Hrun by lia.
          rewrite Z.mod_small in Hrun by lia. cbn [length] in Hrun. lia.
        + apply Z.eqb_neq in Ey.
          destruct Hshape as [[Hx _]|[(_ & Hy & _)|(_ & _ & _ & _ & Hl)]];
            [contradiction|contradiction|exact Hl]. }
    destruct (xy_neb cur (end_ L)); eexists; (split; [reflexivity|]).
    + rewrite length_app. cbn [length]. lia.
    + lia.
Qed.

Lemma sub_moves_bounded_by_cells_crossed_witness :
  let m := Example.machine Example.bump Example.accept_all Example.anywhere in
  exists moves,
    line_to_destination_cartesian m (Example.at_xyz 5 5 0)
      (Example.at_xyz 140 110 0)
    = Some (moves, Example.at_xyz 140 110 0) /\
    Z.of_nat (length moves) <= 5.
Proof.
  intros m.
  destruct (sub_moves_bounded_by_cells_crossed m (Example.at_xyz 5 5 0)
              (Example.at_xyz 140 110 0)) as (moves & Hrun & Hlen).
  - unfold grid_fits. cbn. lia.
  - reflexivity.
  - reflexivity.
  - split; reflexivity.
  - split; reflexivity.
  - exists moves. split; [exact Hrun|].
    match type of Hlen with
    | _ <= ?b => replace b with 5 in Hlen by (vm_compute; reflexivity)
    end.
    exact Hlen.
Defined.
